(** * menpo/math/decomposition.py: eigenvalue_decomposition, pca, ipca

    A shallow embedding of the three functions of
    [menpo/math/decomposition.py] and the properties stated about them.

    - Scalars are an interface ([Scalar]) with two instances: IEEE binary64
      ([float_scalar], what numpy's float64 computes, executable) and the
      real numbers ([R_scalar], the exact arithmetic in which the algebraic
      properties of PCA hold).
    - numpy arrays are values ([list F] for rank 1, [ndarray] for rank 2);
      arrays that the caller can observe live in a [heap], so that the
      difference between rebinding ([X = X - m]) and writing in place
      ([X -= m]) is visible.
    - The LAPACK drivers behind [np.linalg.eigh], [np.linalg.qr] and
      [np.linalg.svd] are parameters of the functions that call them. *)

From Stdlib Require Import ZArith List Bool Reals Lra Lia Floats Sorted Permutation.
From Stdlib Require Uint63.
From stdpp Require Import base list sorting.

(* ================================================================== *)
(** ** Scalars *)

(** The arithmetic numpy performs on array elements. *)
Class Scalar (F : Type) := {
  f_zero : F;
  f_one : F;
  f_two : F;
  f_add : F -> F -> F;
  f_sub : F -> F -> F;
  f_mul : F -> F -> F;
  f_div : F -> F -> F;
  f_sqrt : F -> F;
  f_abs : F -> F;
  f_ltb : F -> F -> bool;      (* [a < b] *)
  f_eqb : F -> F -> bool;      (* [a == b] *)
  f_of_Z : Z -> F              (* a Python int used in float arithmetic *)
}.

(** [a > b], as the source writes its comparisons. *)
Definition f_gtb {F} `{Scalar F} (a b : F) : bool := f_ltb b a.

(** [np.isnan]: the only values that differ from themselves. *)
Definition f_isnan {F} `{Scalar F} (a : F) : bool := negb (f_eqb a a).

(** IEEE 754 binary64: dividing by zero yields an infinity or a NaN and
    raises nothing. *)
Definition float_of_Z (z : Z) : float :=
  match z with
  | Z0 => 0%float
  | Zpos _ => PrimFloat.of_uint63 (Uint63.of_Z z)
  | Zneg _ => PrimFloat.opp (PrimFloat.of_uint63 (Uint63.of_Z (- z)))
  end.

#[global] Instance float_scalar : Scalar float := {|
  f_zero := 0%float;
  f_one := 1%float;
  f_two := 2%float;
  f_add := PrimFloat.add;
  f_sub := PrimFloat.sub;
  f_mul := PrimFloat.mul;
  f_div := PrimFloat.div;
  f_sqrt := PrimFloat.sqrt;
  f_abs := PrimFloat.abs;
  f_ltb := PrimFloat.ltb;
  f_eqb := PrimFloat.eqb;
  f_of_Z := float_of_Z
|}.

(** Exact real arithmetic. *)
Definition Rltb (a b : R) : bool := if Rlt_dec a b then true else false.
Definition Reqb (a b : R) : bool := if Req_dec_T a b then true else false.

#[global] Instance R_scalar : Scalar R := {|
  f_zero := 0%R;
  f_one := 1%R;
  f_two := 2%R;
  f_add := Rplus;
  f_sub := Rminus;
  f_mul := Rmult;
  f_div := Rdiv;
  f_sqrt := R_sqrt.sqrt;
  f_abs := Rabs;
  f_ltb := Rltb;
  f_eqb := Reqb;
  f_of_Z := IZR
|}.

(* ================================================================== *)
(** ** Exceptions *)

Inductive exn :=
| ValueError      (* shape mismatch, reduction over an empty array *)
| IndexError      (* index or mask out of bounds *)
| TypeError       (* an array of the wrong rank *)
| LinAlgError.    (* a LAPACK driver gave up *)

Inductive result (A : Type) :=
| Ok (a : A)
| Raise (e : exn).
Arguments Ok {A} a.
Arguments Raise {A} e.

#[global] Instance result_ret : MRet result := @Ok.
#[global] Instance result_bind : MBind result := fun A B f r =>
  match r with Ok a => f a | Raise e => Raise e end.

Definition is_ok {A} (r : result A) : bool :=
  match r with Ok _ => true | Raise _ => false end.

(** What a LAPACK driver returns, or its failure. *)
Definition lapack {A} (o : option A) : result A :=
  match o with Some a => Ok a | None => Raise LinAlgError end.

(* ================================================================== *)
(** ** Arrays *)

(** A rank-2 array of shape [(length rows, ncols)], row-major. *)
Record ndarray (F : Type) := Mat { ncols : nat; rows : list (list F) }.
Arguments Mat {F} ncols rows.
Arguments ncols {F} _.
Arguments rows {F} _.

Definition nrows {F} (X : ndarray F) : nat := length (rows X).

(** Every row has [ncols] entries: what every numpy array satisfies. *)
Definition wf {F} (X : ndarray F) : Prop :=
  Forall (fun r => length r = ncols X) (rows X).

Section Numpy.
Context {F : Type} `{Scalar F}.

Definition np_zeros (d : nat) : list F := repeat f_zero d.

Definition vadd (u v : list F) : list F := zip_with f_add u v.
Definition vsub (u v : list F) : list F := zip_with f_sub u v.
Definition vmul (u v : list F) : list F := zip_with f_mul u v.
Definition vscale (a : F) (v : list F) : list F := map (f_mul a) v.
Definition vdivs (v : list F) (a : F) : list F := map (fun x => f_div x a) v.

(** numpy broadcasting of two rank-1 operands. *)
Definition broadcast (op : F -> F -> F) (u v : list F) : result (list F) :=
  if decide (length u = length v) then Ok (zip_with op u v)
  else match u, v with
       | [a], _ => Ok (map (op a) v)
       | _, [b] => Ok (map (fun x => op x b) u)
       | _, _ => Raise ValueError
       end.

(** [np.sum(X, axis=0)] *)
Definition np_sum0 (X : ndarray F) : list F :=
  fold_left vadd (rows X) (np_zeros (ncols X)).

(** [np.mean(X, axis=0)]: the column sums divided by the row count. *)
Definition np_mean0 (X : ndarray F) : list F :=
  vdivs (np_sum0 X) (f_of_Z (Z.of_nat (nrows X))).

(** [X - m] for [X] of shape (n, d) and [m] of shape (d,). *)
Definition sub_row (X : ndarray F) (m : list F) : ndarray F :=
  Mat (ncols X) (map (fun r => vsub r m) (rows X)).

(** [X / a], [X + Y] and [X - Y] elementwise. *)
Definition mdivs (X : ndarray F) (a : F) : ndarray F :=
  Mat (ncols X) (map (fun r => vdivs r a) (rows X)).
Definition mscale (a : F) (X : ndarray F) : ndarray F :=
  Mat (ncols X) (map (vscale a) (rows X)).
Definition madd (X Y : ndarray F) : ndarray F :=
  Mat (ncols X) (zip_with vadd (rows X) (rows Y)).
Definition msub (X Y : ndarray F) : ndarray F :=
  Mat (ncols X) (zip_with vsub (rows X) (rows Y)).

(** Column [j] of [X]. *)
Definition col (X : ndarray F) (j : nat) : list F :=
  map (fun r => nth j r f_zero) (rows X).

(** [X.T] *)
Definition np_T (X : ndarray F) : ndarray F :=
  Mat (nrows X) (map (col X) (seq 0 (ncols X))).

(** Row [a] times the matrix with rows [Bs]:
    entry [j] is [((0 + a_0 B_0j) + a_1 B_1j) + ...]. *)
Definition lincomb (d : nat) (a : list F) (Bs : list (list F)) : list F :=
  fold_left (fun acc p => vadd acc (vscale (fst p) (snd p)))
            (combine a Bs) (np_zeros d).

(** [np.dot(A, B)] for rank-2 operands. *)
Definition np_dot (A B : ndarray F) : result (ndarray F) :=
  if decide (ncols A = nrows B)
  then Ok (Mat (ncols B) (map (fun a => lincomb (ncols B) a (rows B)) (rows A)))
  else Raise ValueError.

(** [X * w[:, None]]: row [i] scaled by [w_i]. *)
Definition scale_rows (X : ndarray F) (w : list F) : result (ndarray F) :=
  if decide (length w = nrows X) then
    Ok (Mat (ncols X) (zip_with vscale w (rows X)))
  else if decide (length w = 1) then
    Ok (Mat (ncols X) (map (vscale (nth 0 w f_zero)) (rows X)))
  else Raise ValueError.

(** [np.diag(s)] for a rank-1 [s]. *)
Definition np_diag (s : list F) : ndarray F :=
  Mat (length s)
      (imap (fun i x => <[i := x]> (np_zeros (length s))) s).

(** [np.vstack((X, Y))] and [np.hstack((X, Y))]. *)
Definition np_vstack (X Y : ndarray F) : result (ndarray F) :=
  if decide (ncols X = ncols Y) then Ok (Mat (ncols X) (rows X ++ rows Y))
  else Raise ValueError.
Definition np_hstack (X Y : ndarray F) : result (ndarray F) :=
  if decide (nrows X = nrows Y)
  then Ok (Mat (ncols X + ncols Y) (zip_with app (rows X) (rows Y)))
  else Raise ValueError.

(** [np.zeros((n, d))] *)
Definition np_zeros2 (n d : nat) : ndarray F := Mat d (repeat (np_zeros d) n).

(** [X[:k, :]] *)
Definition take_rows (k : nat) (X : ndarray F) : ndarray F :=
  Mat (ncols X) (take k (rows X)).

(** *** Sorting, indexing, masks *)

(** The order of [np.sort] on floats: ascending, NaN last. *)
Definition np_lt (a b : F) : bool :=
  f_ltb a b || (f_isnan b && negb (f_isnan a)).

Fixpoint insert_sorted (x : F * nat) (l : list (F * nat)) : list (F * nat) :=
  match l with
  | [] => [x]
  | y :: l' => if np_lt (fst x) (fst y) then x :: l
               else y :: insert_sorted x l'
  end.

Definition sort_pairs (l : list (F * nat)) : list (F * nat) :=
  fold_left (fun acc x => insert_sorted x acc) l [].

(** [np.argsort(v)]: the indices that sort [v]. numpy leaves the order of
    equal keys unspecified; here they keep their order. *)
Definition np_argsort (v : list F) : list nat :=
  map snd (sort_pairs (combine v (seq 0 (length v)))).

(** [v[index]] for an integer index array. *)
Definition np_take (v : list F) (index : list nat) : result (list F) :=
  mapM (fun i => match v !! i with
                 | Some x => Ok x
                 | None => Raise IndexError
                 end) index.

(** [X[:, index]] *)
Definition take_cols (X : ndarray F) (index : list nat) : result (ndarray F) :=
  if forallb (fun i => i <? ncols X)%nat index
  then Ok (Mat (length index)
               (map (fun r => map (fun i => nth i r f_zero) index) (rows X)))
  else Raise IndexError.

(** [v[mask]] for a boolean mask. *)
Fixpoint compress (mask : list bool) (v : list F) : list F :=
  match mask, v with
  | b :: mask', x :: v' => if b then x :: compress mask' v' else compress mask' v'
  | _, _ => []
  end.

Definition count_true (mask : list bool) : nat :=
  length (List.filter (fun b => b) mask).

(** [X[:, mask]] *)
Definition compress_cols (mask : list bool) (X : ndarray F) : result (ndarray F) :=
  if decide (length mask = ncols X)
  then Ok (Mat (count_true mask) (map (compress mask) (rows X)))
  else Raise IndexError.

(** [np.maximum], which propagates NaN. *)
Definition np_maximum (a b : F) : F :=
  if f_isnan a then a else if f_isnan b then b
  else if f_ltb a b then b else a.

(** [np.max(v)]: it raises on an empty array. *)
Definition np_max (v : list F) : result F :=
  match v with
  | [] => Raise ValueError
  | x :: v' => Ok (fold_left np_maximum v' x)
  end.

End Numpy.

(* ================================================================== *)
(** ** eigenvalue_decomposition *)

Section Eigen.
Context {F : Type} `{Scalar F}.

(** [np.linalg.eigh]: eigenvalues and eigenvectors (as columns), or
    [None] when it raises [LinAlgError]. *)
Variable eigh : ndarray F -> option (list F * ndarray F).

Definition eigenvalue_decomposition (C : ndarray F) (eps : F)
  : result (ndarray F * list F) :=
  (* compute eigenvalue decomposition *)
  '(eigenvalues, eigenvectors) ← lapack (eigh C);
  (* sort eigenvalues from largest to smallest *)
  let index := reverse (np_argsort eigenvalues) in
  eigenvalues ← np_take eigenvalues index;
  eigenvectors ← take_cols eigenvectors index;
  (* set tolerance limit *)
  mx ← np_max (map f_abs eigenvalues);
  let limit := f_mul mx eps in
  (* select positive eigenvalues *)
  let pos_index := map (fun x => f_gtb x f_zero) eigenvalues in
  let pos_eigenvalues := compress pos_index eigenvalues in
  pos_eigenvectors ← compress_cols pos_index eigenvectors;
  (* check they are within the expected tolerance *)
  let index := map (fun x => f_gtb x limit) pos_eigenvalues in
  let pos_eigenvalues := compress index pos_eigenvalues in
  pos_eigenvectors ← compress_cols index pos_eigenvectors;
  mret (pos_eigenvectors, pos_eigenvalues).

End Eigen.

(* ================================================================== *)
(** ** The heap of arrays *)

Section Heap.
Context {F : Type} `{Scalar F}.

Inductive array :=
| A1 (v : list F)          (* rank 1 *)
| A2 (X : ndarray F).      (* rank 2 *)

Local Abbreviation heap := (list array).

(** A name is bound to a whole buffer or to the view [b[:k]] of one. *)
Inductive ref :=
| Whole (b : nat)
| Rows (b : nat) (k : nat).

(** A computation on the heap; the heap survives an exception. *)
Definition M (A : Type) : Type := heap -> result A * heap.

#[global] Instance M_ret : MRet M := fun A a σ => (Ok a, σ).
#[global] Instance M_bind : MBind M := fun A B f m σ =>
  match m σ with
  | (Ok a, σ') => f a σ'
  | (Raise e, σ') => (Raise e, σ')
  end.

Definition lift {A} (r : result A) : M A := fun σ => (r, σ).

(** A fresh array. *)
Definition alloc (a : array) : M ref :=
  fun σ => (Ok (Whole (length σ)), σ ++ [a]).

Definition deref1 (σ : heap) (r : ref) : result (list F) :=
  match r with
  | Whole b => match σ !! b with Some (A1 v) => Ok v | _ => Raise TypeError end
  | Rows _ _ => Raise TypeError
  end.

Definition deref2 (σ : heap) (r : ref) : result (ndarray F) :=
  match r with
  | Whole b => match σ !! b with Some (A2 X) => Ok X | _ => Raise TypeError end
  | Rows b k =>
      match σ !! b with Some (A2 X) => Ok (take_rows k X) | _ => Raise TypeError end
  end.

Definition load1 (r : ref) : M (list F) := fun σ => (deref1 σ r, σ).
Definition load2 (r : ref) : M (ndarray F) := fun σ => (deref2 σ r, σ).

(** Writing the elements of [Y] through [r]: the buffer keeps its
    identity, every name bound to it sees the new contents. *)
Definition write2 (r : ref) (Y : ndarray F) : M unit := fun σ =>
  match r with
  | Whole b =>
      match σ !! b with
      | Some (A2 _) => (Ok tt, <[b := A2 Y]> σ)
      | _ => (Raise TypeError, σ)
      end
  | Rows b k =>
      match σ !! b with
      | Some (A2 X) =>
          (Ok tt, <[b := A2 (Mat (ncols X) (rows Y ++ drop k (rows X)))]> σ)
      | _ => (Raise TypeError, σ)
      end
  end.

(** [X -= m] *)
Definition isub_row (X : ref) (m : list F) : M unit :=
  Xv ← load2 X; write2 X (sub_row Xv m).

(** [U *= w[:, None]] *)
Definition imul_rows (U : ref) (w : list F) : M unit :=
  Uv ← load2 U; Y ← lift (scale_rows Uv w); write2 U Y.

(** Modelled from the spec: [dot_inplace_right] of [menpo/math/linalg.py],
    imported by the source and absent from it. The spec describes it as
    the same matrix product as [np.dot], written into the buffer of the
    right operand; the result is the view of the leading rows of that
    buffer. *)
Definition dot_inplace_right (a : ndarray F) (b : ref) : M ref :=
  bv ← load2 b;
  c ← lift (np_dot a bv);
  match b with
  | Whole x | Rows x _ =>
      let r := Rows x (nrows a) in
      _ ← write2 r c; mret r
  end.

(** A computation that only reads and allocates: every array that was on
    the heap before is there, unchanged, afterwards. *)
Definition allocates {A} (m : M A) : Prop :=
  forall σ, σ `prefix_of` (m σ).2.

End Heap.
Arguments array F : clear implicits.
Arguments M F A : clear implicits.

(** Arrays the program can name, by allocation order. *)
Abbreviation heap F := (list (array F)).

(* ================================================================== *)
(** ** pca *)

Section PCA.
Context {F : Type} `{Scalar F}.
Variable eigh : ndarray F -> option (list F * ndarray F).

(** [np.dot(X.T, X) / (n - 1)], or [np.dot(X, X.T) / (n - 1)] in the
    dual regime, then [(C + C.T) / 2.0]. *)
Definition covariance (dual : bool) (X : ndarray F) : result (ndarray F) :=
  C ← (if dual then np_dot X (np_T X) else np_dot (np_T X) X);
  let C := mdivs C (f_of_Z (Z.of_nat (nrows X) - 1)) in
  mret (mdivs (madd C (np_T C)) f_two).

(** [np.sqrt(1.0 / ((n - 1) * l))] *)
Definition dual_scaling (n : nat) (l : list F) : list F :=
  map (fun x => f_sqrt (f_div f_one (f_mul (f_of_Z (Z.of_nat n - 1)) x))) l.

Definition pca (X : ref) (centre inplace : bool) (eps : F)
  : M F (ref * ref * ref) :=
  Xv ← load2 X;
  let n := nrows Xv in
  let d := ncols Xv in
  (* m (mean vector): d *)
  m ← alloc (A1 (if centre then np_mean0 Xv else np_zeros d));
  mv ← load1 m;
  (* This is required if the data matrix is very large! *)
  X ← (if inplace then _ ← isub_row X mv; mret X
       else alloc (A2 (sub_row Xv mv)));
  Xv ← load2 X;
  if (d <? n)%nat then
    (* C (covariance): d x d *)
    C ← lift (covariance false Xv);
    '(U, l) ← lift (eigenvalue_decomposition eigh C eps);
    U ← alloc (A2 (np_T U));
    l ← alloc (A1 l);
    mret (U, l, m)
  else
    (* C (covariance): n x n *)
    C ← lift (covariance true Xv);
    '(V, l) ← lift (eigenvalue_decomposition eigh C eps);
    (* compute final eigenvectors *)
    let w := dual_scaling n l in
    U ← (if inplace then dot_inplace_right (np_T V) X
         else P ← lift (np_dot (np_T V) Xv); alloc (A2 P));
    _ ← imul_rows U w;
    l ← alloc (A1 l);
    mret (U, l, m).

End PCA.

(* ================================================================== *)
(** ** pca on integer and on float arrays *)

(** The element type of the array handed to [pca]: numpy's integers or its
    floats. An integer array is held by the values its entries convert to,
    which is what [np.mean(X, axis=0)] and [X - m] compute with. *)
Inductive dtype := int64 | float64.

Section PCADtype.
Context {F : Type} `{Scalar F}.
Variable eigh : ndarray F -> option (list F * ndarray F).

(** [X -= m] on an [X] of element type [dt]. The mean [m] is a float array
    ([np.mean] and [np.zeros] return float64), and so is [X - m]; numpy
    writes it into the buffer of [X] only where float64 casts to the type
    of [X] by a same-kind cast. To an integer type it does not: the
    statement raises UFuncTypeError, a [TypeError], and [X] is left as it
    was. *)
Definition isub_row_dtype (dt : dtype) (X : ref) (m : list F) : M F unit :=
  match dt with
  | float64 => isub_row X m
  | int64 => _ ← load2 X; lift (Raise TypeError)
  end.

(** [pca] on an [X] of element type [dt]. Every other array of the body
    is a float array: [m], [X - m] and what is computed from them. *)
Definition pca_dtype (dt : dtype) (X : ref) (centre inplace : bool) (eps : F)
  : M F (ref * ref * ref) :=
  Xv ← load2 X;
  let n := nrows Xv in
  let d := ncols Xv in
  (* m (mean vector): d *)
  m ← alloc (A1 (if centre then np_mean0 Xv else np_zeros d));
  mv ← load1 m;
  (* This is required if the data matrix is very large! *)
  X ← (if inplace then _ ← isub_row_dtype dt X mv; mret X
       else alloc (A2 (sub_row Xv mv)));
  Xv ← load2 X;
  if (d <? n)%nat then
    (* C (covariance): d x d *)
    C ← lift (covariance false Xv);
    '(U, l) ← lift (eigenvalue_decomposition eigh C eps);
    U ← alloc (A2 (np_T U));
    l ← alloc (A1 l);
    mret (U, l, m)
  else
    (* C (covariance): n x n *)
    C ← lift (covariance true Xv);
    '(V, l) ← lift (eigenvalue_decomposition eigh C eps);
    (* compute final eigenvectors *)
    let w := dual_scaling n l in
    U ← (if inplace then dot_inplace_right (np_T V) X
         else P ← lift (np_dot (np_T V) Xv); alloc (A2 P));
    _ ← imul_rows U w;
    l ← alloc (A1 l);
    mret (U, l, m).

End PCADtype.

(* ================================================================== *)
(** ** ipca *)

Section IPCA.
Context {F : Type} `{Scalar F}.

(** [np.linalg.qr(A)[0]], the factor Q, and [np.linalg.svd] (the singular
    values and Vt; the left factor, which [ipca] never reads, is left out);
    [None] when they raise [LinAlgError]. *)
Variable qr : ndarray F -> option (ndarray F).
Variable svd : ndarray F -> option (list F * ndarray F).

(** [m_a is not None and not np.all(m_a == 0)] *)
Definition centred (m_a : option (list F)) : option (list F) :=
  match m_a with
  | Some v => if forallb (fun x => f_eqb x f_zero) v then None else Some v
  | None => None
  end.

(** [np.sqrt((n_a - 1) * l_a)] *)
Definition prior_singular_values (n_a : Z) (l_a : list F) : list F :=
  map (fun x => f_sqrt (f_mul (f_of_Z (n_a - 1)) x)) l_a.

(** [B.dot(U_a.T)] and [PB = B - B.dot(U_a.T).dot(U_a)] *)
Definition project_out (B U_a : ndarray F) : result (ndarray F * ndarray F) :=
  BUt ← np_dot B (np_T U_a);
  P ← np_dot BUt U_a;
  mret (BUt, msub B P).

(** The matrix R of the update. *)
Definition form_R (f : F) (s_a : list F) (BUt PB B_tilde : ndarray F)
  : result (ndarray F) :=
  let S_a := np_diag s_a in
  left ← np_vstack (mscale f S_a) BUt;
  PBBt ← np_dot PB (np_T B_tilde);
  right ← np_vstack (np_zeros2 (nrows S_a) (nrows B_tilde)) PBBt;
  np_hstack left right.

(** [l = s_tilde ** 2 / (n - 1)] and [l = l[l > eps]] *)
Definition new_eigenvalues (s_tilde : list F) (n eps : F) : list F :=
  let l := map (fun s => f_div (f_mul s s) (f_sub n f_one)) s_tilde in
  compress (map (fun x => f_gtb x eps) l) l.

Definition ipca (B U_a l_a : ref) (n_a : Z) (m_a : option ref) (f eps : F)
  : M F (ref * ref * ref) :=
  (* singular values of the original data *)
  l_av ← load1 l_a;
  let s_a := prior_singular_values n_a l_av in
  (* number of dimensions and number of samples of new data *)
  Bv ← load2 B;
  let n_b := f_of_Z (Z.of_nat (nrows Bv)) in
  let d := ncols Bv in
  let n_a := f_mul (f_of_Z n_a) f in
  (* total number of samples *)
  let n := f_add n_a n_b in
  m_av ← match m_a with
         | Some r => v ← load1 r; mret (Some v)
         | None => mret None
         end;
  '(B, m) ← match centred m_av with
            | Some m_av =>
                (* centred ipca; compute mean of new data *)
                let m_b := np_mean0 Bv in
                (* compute new mean *)
                mv ← lift (broadcast f_add (vscale (f_div n_a n) m_av)
                                           (vscale (f_div n_b n) m_b));
                m ← alloc (A1 mv);
                (* centre new data *)
                B ← alloc (A2 (sub_row Bv m_b));
                (* augment centred data with extra sample *)
                Bv ← load2 B;
                diff ← lift (broadcast f_sub m_b m_av);
                let extra := vscale (f_sqrt (f_div (f_mul n_a n_b) n)) diff in
                Bv ← lift (np_vstack Bv (Mat (length extra) [extra]));
                B ← alloc (A2 Bv);
                mret (B, m)
            | None =>
                m ← alloc (A1 (np_zeros d));
                mret (B, m)
            end;
  Bv ← load2 B;
  U_av ← load2 U_a;
  (* project out current eigenspace out of data matrix *)
  '(BUt, PB) ← lift (project_out Bv U_av);
  (* orthogonalise the previous projection using QR *)
  Q ← lift (lapack (qr (np_T PB)));
  let B_tilde := np_T Q in
  (* form R matrix *)
  R ← lift (form_R f s_a BUt PB B_tilde);
  (* compute SVD of R *)
  '(s_tilde, Vt_tilde) ← lift (lapack (svd R));
  (* compute new eigenvalues, keep only positive ones within tolerance *)
  l ← alloc (A1 (new_eigenvalues s_tilde n eps));
  lv ← load1 l;
  stacked ← lift (np_vstack U_av B_tilde);
  VtS ← lift (np_dot Vt_tilde stacked);
  U ← alloc (A2 (take_rows (length lv) VtS));
  mret (U, l, m).

End IPCA.

(* ================================================================== *)
(** ** Reference drivers for the examples *)

Section Drivers.
Context {F : Type} `{Scalar F}.

Definition diagonal (C : ndarray F) : list F :=
  imap (fun i r => nth i r f_zero) (rows C).

Definition is_diagonal (C : ndarray F) : bool :=
  forallb (fun b => b)
    (imap (fun i r => forallb (fun b => b)
             (imap (fun j x => (i =? j)%nat || f_eqb x f_zero) r)) (rows C)).

Definition unit_vector (n i : nat) : list F := <[i := f_one]> (np_zeros n).

(** [eigh] on a diagonal matrix: the diagonal in ascending order and the
    matching unit vectors as columns (LAPACK's answer on such a matrix);
    any other matrix is outside this driver. *)
Definition eigh_diagonal (C : ndarray F) : option (list F * ndarray F) :=
  if (nrows C =? ncols C)%nat && is_diagonal C then
    let w := diagonal C in
    let index := np_argsort w in
    Some (map (fun i => nth i w f_zero) index,
          np_T (Mat (nrows C) (map (unit_vector (nrows C)) index)))
  else None.

(** [np.array_equal] *)
Definition veqb (u v : list F) : bool :=
  (length u =? length v)%nat && forallb (fun b => b) (zip_with f_eqb u v).

Definition meqb (X Y : ndarray F) : bool :=
  (ncols X =? ncols Y)%nat && (nrows X =? nrows Y)%nat &&
  forallb (fun b => b) (zip_with veqb (rows X) (rows Y)).

(** The Euclidean norm of column [j]. *)
Definition col_norm (X : ndarray F) (j : nat) : F :=
  f_sqrt (fold_left (fun acc x => f_add acc (f_mul x x)) (col X j) f_zero).

(** [np.linalg.qr(A)[0]] on a matrix with a single row (Q is the 1 x 1
    identity) or a single non-zero column (Q is that column, normalised);
    LAPACK's answer up to sign. Any other matrix is outside this driver. *)
Definition qr_thin (A : ndarray F) : option (ndarray F) :=
  if (nrows A =? 1)%nat then Some (Mat 1 [[f_one]])
  else if (ncols A =? 1)%nat && negb (f_eqb (col_norm A 0) f_zero) then
    Some (Mat 1 (map (fun x => [f_div x (col_norm A 0)]) (col A 0)))
  else None.

(** The dot product of two columns. *)
Definition col_dot (X : ndarray F) (j k : nat) : F :=
  fold_left (fun acc p => f_add acc (f_mul (fst p) (snd p)))
            (combine (col X j) (col X k)) f_zero.

(** [np.linalg.svd] on a matrix whose columns are mutually orthogonal and
    of non-increasing norm: the singular values are the column norms and
    Vt is the identity (LAPACK's answer up to sign and rounding). Any
    other matrix is outside this driver. *)
Definition svd_orthogonal_columns (R : ndarray F) : option (list F * ndarray F) :=
  let js := seq 0 (ncols R) in
  let norms := map (col_norm R) js in
  if forallb (fun j => forallb (fun k => (j =? k)%nat || f_eqb (col_dot R j k) f_zero) js) js
     && forallb (fun j => negb (f_ltb (col_norm R j) (col_norm R (S j))))
                (seq 0 (ncols R - 1))
  then Some (take (Nat.min (nrows R) (ncols R)) norms,
             Mat (ncols R) (map (unit_vector (ncols R)) js))
  else None.

End Drivers.

(** [eigh] on a 1 x 1 matrix: its entry, and the unit vector (LAPACK's
    answer on such a matrix); any other matrix is outside this driver. *)
Definition eigh_single {F} `{Scalar F} (C : ndarray F)
  : option (list F * ndarray F) :=
  match C with
  | Mat 1 [[c]] => Some ([c], Mat 1 [[f_one]])
  | _ => None
  end.

(* ================================================================== *)
(** ** What pca and ipca compute, as values *)

Section Values.
Context {F : Type} `{Scalar F}.
Variable eigh : ndarray F -> option (list F * ndarray F).
Variable qr : ndarray F -> option (ndarray F).
Variable svd : ndarray F -> option (list F * ndarray F).

(** What [eigenvalues[index]] holds after the sort of
    [eigenvalue_decomposition]: the eigenvalues from largest to smallest. *)
Definition eigenvalues_desc (w : list F) : list F :=
  reverse (map fst (sort_pairs (combine w (seq 0 (length w))))).

(** The two filters of [eigenvalue_decomposition] on the sorted
    eigenvalues. *)
Definition pos_eigenvalues (ws : list F) (limit : F) : list F :=
  List.filter (fun x => f_gtb x limit) (List.filter (fun x => f_gtb x f_zero) ws).

(** The mean that [pca] subtracts. *)
Definition pca_mean (X : ndarray F) (centre : bool) : list F :=
  if centre then np_mean0 X else np_zeros (ncols X).

(** The contents of the arrays [pca] returns: the same computation with
    every in-place update replaced by a fresh value. *)
Definition pca_values (X : ndarray F) (centre : bool) (eps : F)
  : result (ndarray F * list F * list F) :=
  let n := nrows X in
  let d := ncols X in
  let m := pca_mean X centre in
  let Xc := sub_row X m in
  if (d <? n)%nat then
    C ← covariance false Xc;
    '(U, l) ← eigenvalue_decomposition eigh C eps;
    mret (np_T U, l, m)
  else
    C ← covariance true Xc;
    '(V, l) ← eigenvalue_decomposition eigh C eps;
    P ← np_dot (np_T V) Xc;
    U ← scale_rows P (dual_scaling n l);
    mret (U, l, m).

(** What [pca(X, inplace=True)] leaves in the buffer of [X]. *)
Definition pca_buffer (X : ndarray F) (centre : bool) (U : ndarray F)
  : ndarray F :=
  let Xc := sub_row X (pca_mean X centre) in
  if (ncols X <? nrows X)%nat then Xc
  else Mat (ncols X) (rows U ++ drop (nrows U) (rows Xc)).

(** Lines 192-202 of [ipca]: the data handed to the subspace update and
    the mean that is returned. *)
Definition ipca_centre (B : ndarray F) (n_a n_b n : F) (m_a : option (list F))
  : result (ndarray F * list F) :=
  match centred m_a with
  | Some m_a =>
      let m_b := np_mean0 B in
      m ← broadcast f_add (vscale (f_div n_a n) m_a) (vscale (f_div n_b n) m_b);
      diff ← broadcast f_sub m_b m_a;
      let extra := vscale (f_sqrt (f_div (f_mul n_a n_b) n)) diff in
      B' ← np_vstack (sub_row B m_b) (Mat (length extra) [extra]);
      mret (B', m)
  | None => mret (B, np_zeros (ncols B))
  end.

(** Lines 204-223 of [ipca]: the subspace update. *)
Definition ipca_update (B U_a : ndarray F) (s_a : list F) (n f eps : F)
  : result (ndarray F * list F) :=
  '(BUt, PB) ← project_out B U_a;
  Q ← lapack (qr (np_T PB));
  let B_tilde := np_T Q in
  R ← form_R f s_a BUt PB B_tilde;
  '(s_tilde, Vt_tilde) ← lapack (svd R);
  let l := new_eigenvalues s_tilde n eps in
  stacked ← np_vstack U_a B_tilde;
  VtS ← np_dot Vt_tilde stacked;
  mret (take_rows (length l) VtS, l).

(** Lines 198-200 of [ipca] for [m_a] of the length of a row: [B - m_b]
    followed by the correction row [sqrt(n_a n_b / n) (m_b - m_a)]. *)
Definition augmented (B : ndarray F) (n_a n_b n : F) (m_a : list F)
  : ndarray F :=
  let m_b := np_mean0 B in
  Mat (ncols B)
      (rows (sub_row B m_b)
       ++ [vscale (f_sqrt (f_div (f_mul n_a n_b) n)) (vsub m_b m_a)]).

(** The contents of the arrays [ipca] returns. *)
Definition ipca_values (B U_a : ndarray F) (l_a : list F) (n_a : Z)
    (m_a : option (list F)) (f eps : F)
  : result (ndarray F * list F * list F) :=
  let s_a := prior_singular_values n_a l_a in
  let n_b := f_of_Z (Z.of_nat (nrows B)) in
  let n_a := f_mul (f_of_Z n_a) f in
  let n := f_add n_a n_b in
  '(B', m) ← ipca_centre B n_a n_b n m_a;
  '(U, l) ← ipca_update B' U_a s_a n f eps;
  mret (U, l, m).

End Values.

(* ================================================================== *)
(** ** Vocabulary of the statements *)

Section Vocabulary.
Context {F : Type} `{Scalar F}.

(** The entries of a rank-1 array strictly decrease. *)
Fixpoint strictly_descending (l : list F) : bool :=
  match l with
  | a :: (b :: _) as l' => f_gtb a b && strictly_descending l'
  | _ => true
  end.

(** [C == C.T] *)
Definition is_symmetric (C : ndarray F) : bool := meqb C (np_T C).

(** [np.eye(n)] *)
Definition np_eye (n : nat) : ndarray F := np_diag (repeat f_one n).

(** [V * w]: column [k] scaled by [w_k], that is [V.dot(np.diag(w))]. *)
Definition mul_cols (V : ndarray F) (w : list F) : ndarray F :=
  Mat (ncols V) (map (fun r => vmul r w) (rows V)).

(** The shapes [np.linalg.eigh] returns for an (N, N) argument. *)
Definition eigh_shape (C : ndarray F) (w : list F) (V : ndarray F) : Prop :=
  length w = nrows C /\ nrows V = nrows C /\ ncols V = nrows C /\ wf V.

Definition eigh_shapes (eigh : ndarray F -> option (list F * ndarray F)) : Prop :=
  forall C w V, eigh C = Some (w, V) -> eigh_shape C w V.

(** What [np.linalg.eigh] documents: the columns of [V] are eigenvectors
    of [C] for the eigenvalues [w], and [V] is orthogonal. *)
Definition eigendecomposition (C : ndarray F) (w : list F) (V : ndarray F)
  : Prop :=
  eigh_shape C w V /\
  np_dot C V = Ok (mul_cols V w) /\
  np_dot V (np_T V) = Ok (np_eye (nrows C)).

Definition eigh_correct (eigh : ndarray F -> option (list F * ndarray F)) : Prop :=
  forall C w V, eigh C = Some (w, V) -> eigendecomposition C w V.

(** An optional argument that is an array. *)
Definition deref1_opt (σ : heap F) (r : option ref) : result (option (list F)) :=
  match r with
  | Some r => v ← deref1 σ r; mret (Some v)
  | None => Ok None
  end.

(** The spec's words for step 3 of the incremental update: the combined
    mean [(n_a'/n) m_a + (n_b/n) m_b] and the correction row
    [sqrt(n_a' n_b / n) (m_b - m_a)]. *)
Definition spec_combined_mean (n_a' n_b n : F) (m_a m_b : list F) : list F :=
  zip_with f_add (map (f_mul (f_div n_a' n)) m_a) (map (f_mul (f_div n_b n)) m_b).

Definition spec_correction_row (n_a' n_b n : F) (m_a m_b : list F) : list F :=
  map (f_mul (f_sqrt (f_div (f_mul n_a' n_b) n))) (zip_with f_sub m_b m_a).

(** The spec's words for the filter of the eigenvalue solver, a limit
    relative to the largest magnitude, applied to a sequence [l]. *)
Definition relative_filter (l : list F) (eps : F) : result (list F) :=
  mx ← np_max (map f_abs l);
  mret (List.filter (fun x => f_gtb x (f_mul mx eps))
                    (List.filter (fun x => f_gtb x f_zero) l)).

End Vocabulary.

(* ================================================================== *)
(** ** Vocabulary of the further properties *)

(** [xs[mask]] for a boolean mask, on any list. *)
Definition keep {A} (mask : list bool) (xs : list A) : list A :=
  map snd (List.filter fst (combine mask xs)).

(** The positions, in the arrays [np.linalg.eigh] returned, of what
    [eigenvalue_decomposition] keeps: [index] after the two masks. *)
Definition kept_indices {F} `{Scalar F} (w : list F) (limit : F) : list nat :=
  let index := reverse (np_argsort w) in
  let at_w := fun i => nth i w f_zero in
  let index := keep (map (fun x => f_gtb x f_zero) (map at_w index)) index in
  keep (map (fun x => f_gtb x limit) (map at_w index)) index.

(** [X + c] for [X] of shape (n, d) and [c] of shape (d,). *)
Definition add_row {F} `{Scalar F} (X : ndarray F) (c : list F) : ndarray F :=
  Mat (ncols X) (map (fun r => vadd r c) (rows X)).

(** The shapes [np.linalg.qr] (reduced mode) and [np.linalg.svd] return:
    [Q] has the rows of its argument; [Vt] is square of the width of its
    argument and there are no more singular values than that. *)
Definition qr_shapes {F} (qr : ndarray F -> option (ndarray F)) : Prop :=
  forall A Q, qr A = Some Q -> wf Q /\ nrows Q = nrows A.

Definition svd_shapes {F} (svd : ndarray F -> option (list F * ndarray F)) : Prop :=
  forall M s Vt, svd M = Some (s, Vt) ->
    wf Vt /\ nrows Vt = ncols M /\ ncols Vt = ncols M /\ length s <= ncols M.

(** [n = n_a * f + n_b], the weight of the old and the new samples
    together, by which [ipca] divides. *)
Definition total_weight {F} `{Scalar F} (n_a : Z) (f : F) (B : ndarray F) : F :=
  f_add (f_mul (f_of_Z n_a) f) (f_of_Z (Z.of_nat (nrows B))).

(* ================================================================== *)
(** ** Example data (float64) *)

#[local] Set Warnings "-inexact-float".

(** [eps], the default tolerance of the three functions. *)
Definition eps_default : float := 1e-10%float.

Definition I2 : ndarray float := Mat 2 [[1; 0]; [0; 1]]%float.

(** A data matrix with a single sample. *)
Definition one_sample : ndarray float := Mat 1 [[5]]%float.

(** A data set split in two; the first half has mean zero. *)
Definition X_old : ndarray float := Mat 1 [[1]; [-1]]%float.
Definition X_new : ndarray float := Mat 1 [[1]; [1]]%float.
Definition X_all : ndarray float := Mat 1 [[1]; [-1]; [1]; [1]]%float.
Definition split_heap : heap float := [A2 X_old; A2 X_new; A2 X_all].

(** A prior model with one large eigenvalue and a batch with a small
    component outside its eigenspace. *)
Definition U_prior : ndarray float := Mat 2 [[1; 0]]%float.
Definition l_prior : list float := [2e12]%float.
Definition B_small : ndarray float := Mat 2 [[0; 0.125]]%float.
Definition update_heap : heap float := [A2 B_small; A2 U_prior; A1 l_prior].

(** A prior model with a non-zero mean and a batch of one sample. *)
Definition U_unit : ndarray float := Mat 1 [[1]]%float.
Definition m_prior : list float := [3]%float.
Definition B_one : ndarray float := Mat 1 [[5]]%float.
Definition centred_heap : heap float :=
  [A2 B_one; A2 U_unit; A1 l_prior; A1 m_prior].

(** Three samples in two dimensions. *)
Definition X_tall : ndarray float := Mat 2 [[2; 0]; [0; 3]; [0; 0]]%float.

(** A diagonal matrix with a NaN on its diagonal. *)
Definition C_nan : ndarray float := Mat 2 [[nan; 0]; [0; 1]]%float.

(* ================================================================== *)
(** ** Vocabulary and example data over the reals *)

(** Pairs ordered by their keys. *)
Definition key_le (p q : R * nat) : Prop := (p.1 <= q.1)%R.

(** [mx] is the largest magnitude in [w]: [np.max(np.abs(w))]. *)
Definition max_abs (w : list R) (mx : R) : Prop :=
  Forall (fun y => (Rabs y <= mx)%R) w /\ Exists (fun y => mx = Rabs y) w.

(** The sum of the entries of a vector, and the dot product. *)
Definition Rsum (v : list R) : R := fold_right Rplus 0%R v.
Definition dotp (a b : list R) : R := Rsum (zip_with Rmult a b).

(** Entry [j] of a vector (0 outside it). *)
Definition entry (j : nat) (v : list R) : R := nth j v 0%R.

#[global] Instance R_eq_dec : EqDecision R := Req_dec_T.

#[global] Instance ndarray_eq_dec {F} `{EqDecision F} : EqDecision (ndarray F).
Proof. solve_decision. Defined.

(** Two samples in two dimensions, mirror images of each other. *)
Definition X_pair : ndarray R := Mat 2 [[1; 0]; [-1; 0]]%R.

(** The Gram matrix of [X_pair] and its eigendecomposition: eigenvalues
    [0] and [2], eigenvectors [(1, 1) / sqrt 2] and [(1, -1) / sqrt 2]. *)
Definition C_pair : ndarray R := Mat 2 [[1; -1]; [-1; 1]]%R.
Definition w_pair : list R := [0; 2]%R.
Definition V_pair : ndarray R :=
  Mat 2 [[/ R_sqrt.sqrt 2; / R_sqrt.sqrt 2]; [/ R_sqrt.sqrt 2; - / R_sqrt.sqrt 2]]%R.

(** [eigh] known by its answer on [C_pair]. *)
Definition eigh_pair (C : ndarray R) : option (list R * ndarray R) :=
  if decide (C = C_pair) then Some (w_pair, V_pair) else None.

(** A split of three samples on a line, over the reals: the old part has
    mean 2, the whole has mean 3. *)
Definition Y_old : ndarray R := Mat 1 [[1]; [3]]%R.
Definition Y_new : ndarray R := Mat 1 [[5]]%R.
Definition Y_all : ndarray R := Mat 1 [[1]; [3]; [5]]%R.

(** Entry [(i, j)] of a matrix (0 outside it). *)
Definition cell (X : ndarray R) (i j : nat) : R := entry j (nth i (rows X) []).

(** The sum of [f 0 .. f (n - 1)]. *)
Definition sumn (n : nat) (f : nat -> R) : R := Rsum (map f (seq 0 n)).

(** Entry [(j, k)] of [X.T X]: the scatter of columns [j] and [k]. *)
Definition gram (X : ndarray R) (j k : nat) : R := dotp (col X j) (col X k).

(** What [ipca] needs of [Q = np.linalg.qr(A)[0]]: the columns of [A] lie
    in the span of the columns of [Q], and projecting on them leaves [A]
    unchanged ([Q Q.T A = A], which [A = Q R] with orthonormal columns of
    [Q] gives). *)
Definition qr_spans (A Q : ndarray R) : Prop :=
  wf Q /\ nrows Q = nrows A /\
  forall i j, (i < nrows A)%nat -> (j < ncols A)%nat ->
    cell A i j
    = sumn (ncols Q) (fun c =>
        cell Q i c * sumn (nrows A) (fun r => cell Q r c * cell A r j))%R.

(** What [ipca] needs of [(s, Vt)] from [np.linalg.svd(M)]: [Vt] is square
    of the width of [M] and [M.T M = Vt.T diag(s^2) Vt] (which
    [M = U diag(s) Vt] with orthonormal columns of [U] gives). *)
Definition svd_gram (M : ndarray R) (s : list R) (Vt : ndarray R) : Prop :=
  wf Vt /\ nrows Vt = ncols M /\ ncols Vt = ncols M /\
  forall c c', (c < ncols M)%nat -> (c' < ncols M)%nat ->
    gram M c c'
    = sumn (length s) (fun t =>
        entry t s * entry t s * (cell Vt t c * cell Vt t c'))%R.

(** The eigenvectors [eigh] returns are orthonormal, as LAPACK's are. *)
Definition orthonormal_columns (eigh : ndarray R -> option (list R * ndarray R))
  : Prop :=
  forall C w V, eigh C = Some (w, V) ->
    forall i j, (i < length w)%nat -> (j < length w)%nat ->
      gram V i j = if decide (i = j) then 1%R else 0%R.

(** The rows of [U] are orthonormal. *)
Definition orthonormal_rows (U : ndarray R) : Prop :=
  forall a b, (a < nrows U)%nat -> (b < nrows U)%nat ->
    sumn (ncols U) (fun j => (cell U a j * cell U b j)%R)
    = if decide (a = b) then 1%R else 0%R.

(** What the eigen-structure of the update needs of [(s, Vt)] from
    [np.linalg.svd(M)] beyond [svd_gram]: no more singular values than
    columns, orthonormal rows of [Vt], and singular values that are
    non-negative and in descending order, as LAPACK returns them. *)
Definition svd_exact (M : ndarray R) (s : list R) (Vt : ndarray R) : Prop :=
  svd_gram M s Vt /\
  (length s <= ncols M)%nat /\
  (forall t t', (t < ncols M)%nat -> (t' < ncols M)%nat ->
     sumn (ncols M) (fun c => (cell Vt t c * cell Vt t' c)%R)
     = if decide (t = t') then 1%R else 0%R) /\
  Forall (fun x => (0 <= x)%R) s /\
  (forall t t', (t <= t')%nat -> (t' < length s)%nat ->
     (entry t' s <= entry t s)%R).

(** The model [(U, l)] accounts for the whole scatter of [X] about its
    mean: [pca] filtered out no eigenvalue but zero ones. *)
Definition accounts_for_scatter (X U : ndarray R) (l : list R) : Prop :=
  forall j k,
    gram (sub_row X (np_mean0 X)) j k
    = (IZR (Z.of_nat (nrows X) - 1)
       * sumn (length l) (fun i => entry i l * (cell U i j * cell U i k)))%R.

(** Every eigenvalue [eigh] computes for the covariance (or Gram) matrix
    of [X] centred on its mean is zero or among [l]: [pca] filtered out
    nothing but zero eigenvalues. *)
Definition filters_only_zeros (eigh : ndarray R -> option (list R * ndarray R))
    (X : ndarray R) (l : list R) : Prop :=
  forall C w V0,
    covariance (negb (ncols X <? nrows X)%nat) (sub_row X (np_mean0 X)) = Ok C ->
    eigh C = Some (w, V0) ->
    Forall (fun x => x = 0%R \/ In x l) w.

(* ================================================================== *)
(** ** Lists, shapes and the eigenvalue solver *)

Section ListLemmas.
Context {T : Type}.
Implicit Types (l : list T).

Lemma snoc_lookup l a : (l ++ [a]) !! length l = Some a.
Proof. by rewrite lookup_app_r, Nat.sub_diag by lia. Qed.

Lemma lookup_app_add l1 l2 k : (l1 ++ l2) !! (length l1 + k) = l2 !! k.
Proof. rewrite lookup_app_r by lia. f_equal. lia. Qed.

Lemma lookup_app_length l1 l2 : (l1 ++ l2) !! length l1 = l2 !! 0.
Proof. rewrite lookup_app_r by lia. f_equal. lia. Qed.

Lemma insert_app_add l1 l2 k x :
  <[length l1 + k := x]> (l1 ++ l2) = l1 ++ <[k := x]> l2.
Proof. rewrite insert_app_r_alt by lia. do 2 f_equal. lia. Qed.

Lemma insert_app_length l1 l2 x :
  <[length l1 := x]> (l1 ++ l2) = l1 ++ <[0 := x]> l2.
Proof. rewrite insert_app_r_alt by lia. do 2 f_equal. lia. Qed.

Lemma lookup_ins_app_add l1 l2 i x k :
  (<[i := x]> l1 ++ l2) !! (length l1 + k) = l2 !! k.
Proof. rewrite lookup_app_r by (rewrite length_insert; lia). f_equal. rewrite length_insert. lia. Qed.

Lemma lookup_ins_app_length l1 l2 i x :
  (<[i := x]> l1 ++ l2) !! length l1 = l2 !! 0.
Proof. rewrite lookup_app_r by (rewrite length_insert; lia). f_equal. rewrite length_insert. lia. Qed.

Lemma take_ins_app l1 l2 i x :
  take (length l1) (<[i := x]> l1 ++ l2) = <[i := x]> l1.
Proof. apply take_app_length'. by rewrite length_insert. Qed.

End ListLemmas.

Section ShapeLemmas.
Context {F : Type} `{Scalar F}.
Implicit Types (X Y A B C V : ndarray F) (u v w : list F).

Lemma length_np_zeros d : length (np_zeros (F:=F) d) = d.
Proof. apply repeat_length. Qed.

Lemma length_vadd u v : length (vadd u v) = Nat.min (length u) (length v).
Proof. apply length_zip_with. Qed.

Lemma length_vsub u v : length (vsub u v) = Nat.min (length u) (length v).
Proof. apply length_zip_with. Qed.

Lemma length_vscale a v : length (vscale a v) = length v.
Proof. apply length_map. Qed.

Lemma nrows_np_T X : nrows (np_T X) = ncols X.
Proof. unfold nrows, np_T. simpl. by rewrite length_map, length_seq. Qed.

Lemma ncols_np_T X : ncols (np_T X) = nrows X.
Proof. done. Qed.

Lemma wf_np_T X : wf (np_T X).
Proof.
  unfold wf, np_T. simpl. apply Forall_map, Forall_forall. intros j _.
  unfold col, nrows. simpl. apply length_map.
Qed.

Lemma nrows_sub_row X m : nrows (sub_row X m) = nrows X.
Proof. unfold nrows, sub_row. simpl. apply length_map. Qed.

Lemma nrows_mdivs X a : nrows (mdivs X a) = nrows X.
Proof. unfold nrows, mdivs. simpl. apply length_map. Qed.

Lemma nrows_mscale a X : nrows (mscale a X) = nrows X.
Proof. unfold nrows, mscale. simpl. apply length_map. Qed.

Lemma nrows_madd X Y : nrows (madd X Y) = Nat.min (nrows X) (nrows Y).
Proof. unfold nrows, madd. simpl. apply length_zip_with. Qed.

Lemma nrows_msub X Y : nrows (msub X Y) = Nat.min (nrows X) (nrows Y).
Proof. unfold nrows, msub. simpl. apply length_zip_with. Qed.

Lemma np_dot_shape A B C :
  np_dot A B = Ok C -> nrows C = nrows A /\ ncols C = ncols B.
Proof.
  unfold np_dot. destruct (decide _); [|discriminate].
  intros [= <-]. unfold nrows. simpl. by rewrite length_map.
Qed.

Lemma np_dot_ok A B : ncols A = nrows B -> exists C, np_dot A B = Ok C.
Proof. intros E. unfold np_dot. destruct (decide _); [eauto|done]. Qed.

Lemma scale_rows_shape X w Y :
  scale_rows X w = Ok Y -> nrows Y = nrows X /\ ncols Y = ncols X.
Proof.
  unfold scale_rows.
  repeat destruct (decide _); try discriminate; intros [= <-]; unfold nrows; simpl.
  - rewrite length_zip_with. unfold nrows in *. lia.
  - by rewrite length_map.
Qed.

Lemma compress_filter (p : F -> bool) v :
  compress (map p v) v = List.filter p v.
Proof. induction v as [|x v IH]; simpl; [done|]. destruct (p x); by rewrite IH. Qed.

Lemma count_true_map (p : F -> bool) v :
  count_true (map p v) = length (List.filter p v).
Proof.
  unfold count_true. induction v as [|x v IH]; simpl; [done|].
  destruct (p x); simpl; by rewrite IH.
Qed.

Lemma insert_sorted_perm (x : F * nat) l : Permutation (insert_sorted x l) (x :: l).
Proof.
  induction l as [|y l IH]; simpl; [done|].
  destruct (np_lt x.1 y.1); [done|].
  rewrite IH. apply perm_swap.
Qed.

Lemma sort_pairs_perm (l : list (F * nat)) : Permutation (sort_pairs l) l.
Proof.
  unfold sort_pairs.
  assert (G : forall acc, Permutation (fold_left (fun acc x => insert_sorted x acc) l acc) (acc ++ l)).
  { induction l as [|x l IH]; intros acc; simpl.
    - by rewrite app_nil_r.
    - rewrite IH, insert_sorted_perm. simpl. apply Permutation_middle. }
  apply (G []).
Qed.

Lemma combine_zip {T1 T2} (l : list T1) (k : list T2) : combine l k = zip l k.
Proof. revert k. induction l as [|a l IH]; intros [|b k]; simpl; [done..|]. by rewrite IH. Qed.

Lemma eigenvalues_desc_perm w : Permutation (eigenvalues_desc w) w.
Proof.
  unfold eigenvalues_desc. rewrite reverse_Permutation.
  rewrite sort_pairs_perm, combine_zip.
  rewrite fst_zip; [done|]. rewrite length_seq. lia.
Qed.

Lemma length_np_argsort w : length (np_argsort w) = length w.
Proof.
  unfold np_argsort. rewrite length_map.
  rewrite (Permutation_length (sort_pairs_perm _)), combine_zip.
  rewrite length_zip_with, length_seq. lia.
Qed.

Lemma np_take_pairs w (ps : list (F * nat)) :
  Forall (fun p => w !! p.2 = Some p.1) ps ->
  np_take w (map snd ps) = Ok (map fst ps).
Proof.
  unfold np_take. induction 1 as [|p ps Hp _ IH]; simpl; [done|].
  rewrite Hp. simpl. unfold mbind, result_bind in *. rewrite IH. done.
Qed.

Lemma combine_seq_lookup w :
  Forall (fun p => w !! p.2 = Some p.1) (combine w (seq 0 (length w))).
Proof.
  rewrite combine_zip.
  apply Forall_forall. intros [x i] Hin.
  apply list_elem_of_lookup in Hin as [k Hk].
  apply lookup_zip_with_Some in Hk as (a & b & [= -> ->] & Ha & Hb).
  apply lookup_seq in Hb as [-> _]. done.
Qed.

Lemma np_take_argsort w :
  np_take w (reverse (np_argsort w)) = Ok (eigenvalues_desc w).
Proof.
  unfold np_argsort, eigenvalues_desc. rewrite <- (fmap_reverse snd), <- (fmap_reverse fst).
  apply np_take_pairs.
  apply Forall_forall. intros p Hp.
  rewrite elem_of_reverse in Hp.
  rewrite sort_pairs_perm in Hp.
  pose proof (combine_seq_lookup w) as G.
  rewrite Forall_forall in G. by apply G.
Qed.

Lemma np_argsort_bound w :
  Forall (fun i => i < length w) (reverse (np_argsort w)).
Proof.
  apply Forall_forall. intros i Hi. rewrite elem_of_reverse in Hi.
  unfold np_argsort in Hi. apply list_elem_of_fmap in Hi as ([x j] & -> & Hp).
  rewrite sort_pairs_perm in Hp.
  pose proof (combine_seq_lookup w) as G. rewrite Forall_forall in G.
  apply G in Hp. simpl in *. apply lookup_lt_is_Some. eauto.
Qed.

Lemma take_cols_shape V index V' :
  take_cols V index = Ok V' -> nrows V' = nrows V /\ ncols V' = length index.
Proof.
  unfold take_cols. destruct (forallb _ _); [|discriminate].
  intros [= <-]. unfold nrows. simpl. by rewrite length_map.
Qed.

Lemma take_cols_ok V index :
  Forall (fun i => i < ncols V) index -> is_ok (take_cols V index) = true.
Proof.
  intros Hb. unfold take_cols.
  replace (forallb _ index) with true; [done|].
  symmetry. apply forallb_forall. intros i Hi.
  apply Nat.ltb_lt. rewrite Forall_forall in Hb. apply Hb.
  by apply list_elem_of_In.
Qed.

Lemma compress_cols_shape mask V V' :
  compress_cols mask V = Ok V' ->
  nrows V' = nrows V /\ ncols V' = count_true mask.
Proof.
  unfold compress_cols. destruct (decide _); [|discriminate].
  intros [= <-]. unfold nrows. simpl. by rewrite length_map.
Qed.

Lemma np_max_ok v : v <> [] -> exists mx, np_max v = Ok mx.
Proof. destruct v; [done|]. simpl. eauto. Qed.

End ShapeLemmas.

Section EigenLemmas.
Context {F : Type} `{Scalar F}.
Variable eigh : ndarray F -> option (list F * ndarray F).

Lemma eigenvalue_decomposition_inv C eps V l :
  eigenvalue_decomposition eigh C eps = Ok (V, l) ->
  exists w V0 mx,
    eigh C = Some (w, V0) /\
    np_max (map f_abs (eigenvalues_desc w)) = Ok mx /\
    l = pos_eigenvalues (eigenvalues_desc w) (f_mul mx eps) /\
    ncols V = length l.
Proof.
  intros Hed. unfold eigenvalue_decomposition in Hed.
  destruct (eigh C) as [[w V0]|]; [|discriminate]. simpl in Hed.
  rewrite np_take_argsort in Hed. simpl in Hed.
  destruct (take_cols V0 _) as [V1|]; [|discriminate]. simpl in Hed.
  destruct (np_max _) as [mx|] eqn:Hmx; [|discriminate]. simpl in Hed.
  destruct (compress_cols _ V1) as [V2|]; [|discriminate]. simpl in Hed.
  destruct (compress_cols _ V2) as [V3|] eqn:E3; [|discriminate]. simpl in Hed.
  injection Hed as <- <-. exists w, V0, mx. split; [done|]. split; [done|].
  unfold pos_eigenvalues. rewrite !compress_filter. split; [done|].
  apply compress_cols_shape in E3 as [_ ->].
  rewrite compress_filter. by rewrite count_true_map.
Qed.

Lemma eigenvalue_decomposition_ok C eps w V0 :
  eigh C = Some (w, V0) -> eigh_shape C w V0 -> nrows C <> 0 ->
  exists V mx,
    np_max (map f_abs (eigenvalues_desc w)) = Ok mx /\
    eigenvalue_decomposition eigh C eps
      = Ok (V, pos_eigenvalues (eigenvalues_desc w) (f_mul mx eps)) /\
    nrows V = nrows C /\
    ncols V = length (pos_eigenvalues (eigenvalues_desc w) (f_mul mx eps)).
Proof.
  intros Hw (Hlen & HnV & HdV & _) Hn.
  unfold eigenvalue_decomposition. rewrite Hw. simpl.
  rewrite np_take_argsort. simpl.
  destruct (take_cols V0 (reverse (np_argsort w))) as [V1|] eqn:E1.
  2:{ pose proof (take_cols_ok V0 (reverse (np_argsort w))) as G.
      rewrite E1 in G. simpl in G. exfalso.
      assert (false = true); [apply G|done].
      rewrite HdV, <- Hlen. apply np_argsort_bound. }
  simpl. apply take_cols_shape in E1 as [Hn1 Hd1].
  rewrite length_reverse, length_np_argsort in Hd1.
  destruct (np_max_ok (map f_abs (eigenvalues_desc w))) as [mx Hmx].
  { intros E. apply (f_equal length) in E. rewrite length_map in E.
    rewrite (Permutation_length (eigenvalues_desc_perm w)) in E. simpl in E. lia. }
  rewrite Hmx. simpl.
  unfold compress_cols at 2.
  rewrite decide_True.
  2:{ rewrite length_map, (Permutation_length (eigenvalues_desc_perm w)). done. }
  simpl. unfold compress_cols. simpl.
  rewrite decide_True.
  2:{ rewrite length_map, compress_filter. by rewrite count_true_map. }
  simpl. eexists _, mx. split; [done|].
  rewrite !compress_filter. split; [done|].
  unfold nrows. simpl. rewrite !length_map. split; [unfold nrows in *; lia|].
  by rewrite count_true_map.
Qed.

Lemma eigenvalue_decomposition_empty C eps :
  eigh_shapes eigh -> nrows C = 0 ->
  eigenvalue_decomposition eigh C eps = Raise ValueError \/
  eigenvalue_decomposition eigh C eps = Raise LinAlgError.
Proof.
  intros Hsh Hn. unfold eigenvalue_decomposition.
  destruct (eigh C) as [[w V0]|] eqn:Hw; [|by right]. left. simpl.
  destruct (Hsh _ _ _ Hw) as (Hlen & _).
  rewrite Hn in Hlen. apply nil_length_inv in Hlen. subst w. done.
Qed.

End EigenLemmas.

(* ================================================================== *)
(** ** pca: the run of the code and its values *)

Ltac heap_norm :=
  repeat first
    [ rewrite <- app_assoc
    | rewrite length_app
    | rewrite length_insert
    | rewrite <- Nat.add_assoc
    | rewrite lookup_app_add
    | rewrite lookup_app_length
    | rewrite lookup_ins_app_add
    | rewrite lookup_ins_app_length
    | rewrite insert_app_add
    | rewrite insert_app_length
    | progress simpl ].

Section PcaLemmas.
Context {F : Type} `{Scalar F}.
Variable eigh : ndarray F -> option (list F * ndarray F).
Implicit Types (X Y C V U : ndarray F) (σ : heap F).

#[local] Arguments sub_row : simpl never.
#[local] Arguments np_T : simpl never.
#[local] Arguments np_dot : simpl never.
#[local] Arguments scale_rows : simpl never.
#[local] Arguments covariance : simpl never.
#[local] Arguments eigenvalue_decomposition : simpl never.
#[local] Arguments take_rows : simpl never.
#[local] Arguments nrows : simpl never.

Lemma covariance_ok dual X :
  exists C, covariance dual X = Ok C /\
    nrows C = (if dual then nrows X else ncols X) /\
    ncols C = (if dual then nrows X else ncols X).
Proof.
  unfold covariance. destruct dual.
  - destruct (np_dot_ok X (np_T X)) as [C HC]; [by rewrite nrows_np_T|].
    rewrite HC. apply np_dot_shape in HC as [Hn Hd]. simpl.
    eexists; split; [done|].
    rewrite nrows_mdivs, nrows_madd, nrows_mdivs, nrows_np_T. simpl.
    rewrite Hn, Hd, ncols_np_T. lia.
  - destruct (np_dot_ok (np_T X) X) as [C HC]; [done|].
    rewrite HC. apply np_dot_shape in HC as [Hn Hd]. simpl.
    rewrite nrows_np_T in Hn.
    eexists; split; [done|].
    rewrite nrows_mdivs, nrows_madd, nrows_mdivs, nrows_np_T. simpl.
    rewrite Hn, Hd. lia.
Qed.

Lemma pca_run σ x X centre inplace eps :
  σ !! x = Some (A2 X) ->
  exists r σ',
    pca eigh (Whole x) centre inplace eps σ = (r, σ') /\
    match pca_values eigh X centre eps with
    | Ok (U, l, m) =>
        (exists rU rl rm, r = Ok (rU, rl, rm) /\
           deref2 σ' rU = Ok U /\ deref1 σ' rl = Ok l /\ deref1 σ' rm = Ok m) /\
        take (length σ) σ' =
          (if inplace then <[x := A2 (pca_buffer X centre U)]> σ else σ)
    | Raise e => r = Raise e /\ (inplace = false -> take (length σ) σ' = σ)
    end.
Proof.
  intros Hx.
  assert (Hlt : x < length σ) by (apply lookup_lt_is_Some; eauto).
  unfold pca, pca_values, pca_buffer.
  assert (HXc : nrows (sub_row X (pca_mean X centre)) = nrows X /\
                ncols (sub_row X (pca_mean X centre)) = ncols X).
  { unfold sub_row, nrows. simpl. by rewrite length_map. }
  destruct HXc as [HnXc HdXc].
  unfold mbind, M_bind, load2, deref2, alloc, load1, deref1. simpl.
  rewrite Hx. simpl.
  fold (pca_mean X centre).
  rewrite snoc_lookup.
  remember (pca_mean X centre) as m eqn:Em.
  remember (sub_row X m) as Xc eqn:EXc.
  unfold result_bind.
  destruct inplace.
  - (* inplace=True *)
    unfold isub_row, write2, mbind, M_bind, load2, deref2. simpl.
    rewrite (lookup_app_l σ) by done. rewrite Hx. simpl.
    rewrite <- EXc.
    rewrite insert_app_l by done.
    rewrite (lookup_app_l (<[x:=A2 Xc]> σ)) by (by rewrite length_insert).
    rewrite list_lookup_insert_eq by done.
    destruct (ncols X <? nrows X)%nat eqn:Hreg.
    + destruct (covariance false Xc) as [C|e];
        [|eexists _, _; split; [done|]; split; [done|discriminate]].
      destruct (eigenvalue_decomposition eigh C eps) as [[U l]|e];
        [|eexists _, _; split; [done|]; split; [done|discriminate]].
      eexists _, _; split; [done|]. split.
      * eexists _, _, _. split; [done|]. simpl.
        heap_norm. done.
      * heap_norm. by rewrite take_ins_app.
    + destruct (covariance true Xc) as [C|e];
        [|eexists _, _; split; [done|]; split; [done|discriminate]].
      destruct (eigenvalue_decomposition eigh C eps) as [[V l]|e];
        [|eexists _, _; split; [done|]; split; [done|discriminate]].
      unfold dot_inplace_right, imul_rows, write2, mbind, M_bind, load2, deref2, lift.
      simpl.
      rewrite (lookup_app_l (<[x:=A2 Xc]> σ)) by (by rewrite length_insert).
      rewrite list_lookup_insert_eq by done.
      destruct (np_dot (np_T V) Xc) as [P|e] eqn:HP;
        [|eexists _, _; split; [done|]; split; [done|discriminate]].
      simpl.
      apply np_dot_shape in HP as [HnP HdP].
      rewrite insert_app_l by (by rewrite length_insert).
      rewrite list_insert_insert_eq.
      rewrite (lookup_app_l (<[x:=_]> σ)) by (by rewrite length_insert).
      rewrite list_lookup_insert_eq by done.
      assert (HvP : take_rows (nrows (np_T V))
                (Mat (ncols Xc) (rows P ++ drop (nrows (np_T V)) (rows Xc))) = P).
      { unfold take_rows. simpl. rewrite take_app_length' by (by rewrite <- HnP).
        rewrite <- HdP. by destruct P. }
      rewrite HvP.
      destruct (scale_rows P (dual_scaling (nrows X) l)) as [Y|e] eqn:HY;
        [|eexists _, _; split; [done|]; split; [done|discriminate]].
      simpl.
      apply scale_rows_shape in HY as [HnY HdY].
      rewrite insert_app_l by (by rewrite length_insert).
      rewrite list_insert_insert_eq.
      eexists _, _; split; [done|]. split.
      * eexists _, _, _. split; [done|]. heap_norm.
        rewrite (lookup_app_l (<[x:=_]> σ)) by (by rewrite length_insert).
        rewrite list_lookup_insert_eq by done.
        split; [|done].
        f_equal. unfold take_rows. simpl.
        rewrite take_app_length' by (change (nrows (np_T V) = nrows Y); congruence).
        rewrite <- HdP, <- HdY. by destruct Y.
      * heap_norm. rewrite take_ins_app.
        rewrite drop_app_length' by (by rewrite <- HnP).
        rewrite HnY, HnP, HdXc, EXc. done.
  - (* inplace=False *)
    rewrite snoc_lookup.
    destruct (ncols X <? nrows X)%nat eqn:Hreg.
    + destruct (covariance false Xc) as [C|e];
        [|eexists _, _; split; [done|]; split; [done|]; intros _; heap_norm;
          by rewrite take_app_length].
      destruct (eigenvalue_decomposition eigh C eps) as [[U l]|e];
        [|eexists _, _; split; [done|]; split; [done|]; intros _; heap_norm;
          by rewrite take_app_length].
      eexists _, _; split; [done|]. split.
      * eexists _, _, _. split; [done|]. simpl. heap_norm. done.
      * heap_norm. by rewrite take_app_length.
    + destruct (covariance true Xc) as [C|e];
        [|eexists _, _; split; [done|]; split; [done|]; intros _; heap_norm;
          by rewrite take_app_length].
      destruct (eigenvalue_decomposition eigh C eps) as [[V l]|e];
        [|eexists _, _; split; [done|]; split; [done|]; intros _; heap_norm;
          by rewrite take_app_length].
      unfold imul_rows, write2, mbind, M_bind, load2, deref2, lift. simpl.
      destruct (np_dot (np_T V) Xc) as [P|e] eqn:HP;
        [|eexists _, _; split; [done|]; split; [done|]; intros _; heap_norm;
          by rewrite take_app_length].
      simpl. heap_norm.
      destruct (scale_rows P (dual_scaling (nrows X) l)) as [Y|e] eqn:HY;
        [|eexists _, _; split; [done|]; split; [done|]; intros _; heap_norm;
          by rewrite take_app_length].
      simpl.
      eexists _, _; split; [done|]. split.
      * eexists _, _, _. split; [done|]. simpl. heap_norm. done.
      * heap_norm. by rewrite take_app_length.
Qed.

Lemma pca_returns σ x X centre inplace eps rU rl rm σ' :
  σ !! x = Some (A2 X) ->
  pca eigh (Whole x) centre inplace eps σ = (Ok (rU, rl, rm), σ') ->
  exists U l m,
    pca_values eigh X centre eps = Ok (U, l, m) /\
    deref2 σ' rU = Ok U /\ deref1 σ' rl = Ok l /\ deref1 σ' rm = Ok m.
Proof.
  intros Hx Hrun.
  destruct (pca_run σ x X centre inplace eps Hx) as (r & σ'' & Hrun' & Hv).
  rewrite Hrun in Hrun'. injection Hrun' as <- <-.
  destruct (pca_values eigh X centre eps) as [[[U l] m]|e].
  - destruct Hv as [(rU' & rl' & rm' & [= <- <- <-] & HU & Hl & Hm) _]. eauto 10.
  - by destruct Hv.
Qed.

Lemma pca_raises σ x X centre inplace eps e :
  σ !! x = Some (A2 X) ->
  pca_values eigh X centre eps = Raise e ->
  exists σ', pca eigh (Whole x) centre inplace eps σ = (Raise e, σ').
Proof.
  intros Hx Hv.
  destruct (pca_run σ x X centre inplace eps Hx) as (r & σ'' & Hrun' & Hv').
  rewrite Hv in Hv'. destruct Hv' as [-> _]. eauto.
Qed.

Lemma pca_values_inv X centre eps U l m :
  pca_values eigh X centre eps = Ok (U, l, m) ->
  exists C w V0 mx,
    covariance (negb (ncols X <? nrows X)%nat) (sub_row X (pca_mean X centre)) = Ok C /\
    eigh C = Some (w, V0) /\
    np_max (map f_abs (eigenvalues_desc w)) = Ok mx /\
    l = pos_eigenvalues (eigenvalues_desc w) (f_mul mx eps) /\
    m = pca_mean X centre /\
    nrows U = length l.
Proof.
  unfold pca_values. intros Hv.
  destruct (ncols X <? nrows X)%nat; simpl.
  - destruct (covariance false _) as [C|] eqn:HC; [|discriminate]. simpl in Hv.
    destruct (eigenvalue_decomposition eigh C eps) as [[V l']|] eqn:HE; [|discriminate].
    simpl in Hv. injection Hv as <- <- <-.
    apply eigenvalue_decomposition_inv in HE as (w & V0 & mx & Hw & Hmx & -> & Hd).
    exists C, w, V0, mx. rewrite nrows_np_T. done.
  - destruct (covariance true _) as [C|] eqn:HC; [|discriminate]. simpl in Hv.
    destruct (eigenvalue_decomposition eigh C eps) as [[V l']|] eqn:HE; [|discriminate].
    simpl in Hv.
    destruct (np_dot (np_T V) _) as [P|] eqn:HP; [|discriminate]. simpl in Hv.
    destruct (scale_rows P _) as [Y|] eqn:HY; [|discriminate]. simpl in Hv.
    injection Hv as <- <- <-.
    apply eigenvalue_decomposition_inv in HE as (w & V0 & mx & Hw & Hmx & -> & Hd).
    exists C, w, V0, mx.
    apply scale_rows_shape in HY as [-> _].
    apply np_dot_shape in HP as [-> _]. rewrite nrows_np_T. done.
Qed.

Lemma length_dual_scaling n (l : list F) : length (dual_scaling n l) = length l.
Proof. apply length_map. Qed.

(** Away from empty matrices, [pca] raises only if [eigh] does. *)
Lemma pca_values_ok X centre eps :
  eigh_shapes eigh -> nrows X <> 0 -> ncols X <> 0 ->
  exists C, covariance (negb (ncols X <? nrows X)%nat)
              (sub_row X (pca_mean X centre)) = Ok C /\
    match eigh C with
    | Some (w, _) =>
        exists U mx,
          np_max (map f_abs (eigenvalues_desc w)) = Ok mx /\
          pca_values eigh X centre eps =
            Ok (U, pos_eigenvalues (eigenvalues_desc w) (f_mul mx eps),
                pca_mean X centre)
    | None => pca_values eigh X centre eps = Raise LinAlgError
    end.
Proof.
  intros Hsh Hn Hd. unfold pca_values.
  set (Xc := sub_row X (pca_mean X centre)).
  destruct (covariance_ok (negb (ncols X <? nrows X)%nat) Xc) as (C & HC & HnC & HdC).
  exists C. split; [done|].
  assert (HnXc : nrows Xc = nrows X) by apply nrows_sub_row.
  assert (HdXc : ncols Xc = ncols X) by done.
  destruct (ncols X <? nrows X)%nat eqn:Hreg; simpl in *; rewrite HC; simpl.
  - destruct (eigh C) as [[w V0]|] eqn:Hw.
    + destruct (eigenvalue_decomposition_ok eigh C eps w V0 Hw (Hsh _ _ _ Hw))
        as (V & mx & Hmx & HE & HnV & HdV); [lia|].
      rewrite HE. simpl. eauto.
    + unfold eigenvalue_decomposition. rewrite Hw. done.
  - destruct (eigh C) as [[w V0]|] eqn:Hw.
    + destruct (eigenvalue_decomposition_ok eigh C eps w V0 Hw (Hsh _ _ _ Hw))
        as (V & mx & Hmx & HE & HnV & HdV); [lia|].
      rewrite HE. simpl.
      destruct (np_dot_ok (np_T V) Xc) as [P HP].
      { rewrite ncols_np_T. lia. }
      rewrite HP. simpl. apply np_dot_shape in HP as [HnP HdP].
      unfold scale_rows. rewrite decide_True.
      2:{ rewrite length_dual_scaling, HnP, nrows_np_T. done. }
      simpl. eauto.
    + unfold eigenvalue_decomposition. rewrite Hw. done.
Qed.

(** On an empty matrix [pca] raises. *)
Lemma pca_values_empty X centre eps :
  eigh_shapes eigh -> nrows X = 0 \/ ncols X = 0 ->
  pca_values eigh X centre eps = Raise ValueError \/
  pca_values eigh X centre eps = Raise LinAlgError.
Proof.
  intros Hsh Hemp. unfold pca_values.
  set (Xc := sub_row X (pca_mean X centre)).
  destruct (covariance_ok (negb (ncols X <? nrows X)%nat) Xc) as (C & HC & HnC & HdC).
  assert (HnXc : nrows Xc = nrows X) by apply nrows_sub_row.
  assert (HdXc : ncols Xc = ncols X) by done.
  assert (Hn0 : nrows C = 0).
  { destruct (ncols X <? nrows X)%nat eqn:Hreg; simpl in *.
    - apply Nat.ltb_lt in Hreg. lia.
    - apply Nat.ltb_ge in Hreg. lia. }
  destruct (eigenvalue_decomposition_empty eigh C eps Hsh Hn0) as [HE|HE];
    destruct (ncols X <? nrows X)%nat; simpl in *; rewrite HC; simpl; rewrite HE; auto.
Qed.

End PcaLemmas.

(* ================================================================== *)
(** ** The heap: frame and forward execution; ipca *)

Section FrameLemmas.
Context {F : Type} `{Scalar F}.
Implicit Types (σ : heap F).

Lemma allocates_ret {A} (a : A) : allocates (F:=F) (mret a).
Proof. intros σ. done. Qed.

Lemma allocates_lift {A} (r : result A) : allocates (F:=F) (lift r).
Proof. intros σ. done. Qed.

Lemma allocates_load1 r : allocates (F:=F) (load1 r).
Proof. intros σ. done. Qed.

Lemma allocates_load2 r : allocates (F:=F) (load2 r).
Proof. intros σ. done. Qed.

Lemma allocates_alloc a : allocates (F:=F) (alloc a).
Proof. intros σ. simpl. by apply prefix_app_r. Qed.

Lemma allocates_bind {A B} (m : M F A) (f : A -> M F B) :
  allocates m -> (forall a, allocates (f a)) -> allocates (m ≫= f).
Proof.
  intros Hm Hf σ. unfold mbind, M_bind.
  specialize (Hm σ). destruct (m σ) as [[a|e] σ1]; simpl in *; [|done].
  etrans; [exact Hm|]. apply Hf.
Qed.

Lemma deref1_prefix σ σ' r v :
  σ `prefix_of` σ' -> deref1 σ r = Ok v -> deref1 σ' r = Ok v.
Proof.
  intros [k ->]. destruct r as [b|b n]; simpl; [|done].
  destruct (σ !! b) as [a|] eqn:E; [|done].
  by rewrite (lookup_app_l_Some _ _ _ _ E).
Qed.

Lemma deref2_prefix σ σ' r X :
  σ `prefix_of` σ' -> deref2 σ r = Ok X -> deref2 σ' r = Ok X.
Proof.
  intros [k ->]. destruct r as [b|b n]; simpl;
    (destruct (σ !! b) as [a|] eqn:E; [|done]);
    by rewrite (lookup_app_l_Some _ _ _ _ E).
Qed.

End FrameLemmas.

Section RunLemmas.
Context {F : Type} `{Scalar F}.
Implicit Types (σ : heap F).

Lemma bind_ok {A B} (m : M F A) (f : A -> M F B) σ a σ1 res :
  m σ = (Ok a, σ1) -> f a σ1 = res -> (m ≫= f) σ = res.
Proof. intros Hm Hf. unfold mbind, M_bind. by rewrite Hm. Qed.

Lemma bind_raise {A B} (m : M F A) (f : A -> M F B) σ e σ1 :
  m σ = (Raise e, σ1) -> (m ≫= f) σ = (Raise e, σ1).
Proof. intros Hm. unfold mbind, M_bind. by rewrite Hm. Qed.

Lemma load1_eq σ r v : deref1 σ r = Ok v -> load1 r σ = (Ok v, σ).
Proof. intros E. unfold load1. by rewrite E. Qed.

Lemma load2_eq σ r X : deref2 σ r = Ok X -> load2 r σ = (Ok X, σ).
Proof. intros E. unfold load2. by rewrite E. Qed.

Lemma lift_eq {A} σ (r res : result A) : r = res -> lift r σ = (res, σ).
Proof. by intros ->. Qed.

Lemma deref2_app σ k r X : deref2 σ r = Ok X -> deref2 (σ ++ k) r = Ok X.
Proof. apply deref2_prefix. by apply prefix_app_r. Qed.

Lemma deref1_app σ k r v : deref1 σ r = Ok v -> deref1 (σ ++ k) r = Ok v.
Proof. apply deref1_prefix. by apply prefix_app_r. Qed.

End RunLemmas.

Ltac deref :=
  first
    [ eassumption
    | apply deref1_app; deref
    | apply deref2_app; deref
    | solve [ simpl; heap_norm; reflexivity ] ].

Ltac run_step :=
  cbv beta iota zeta;
  lazymatch goal with
  | |- mret _ _ = _ => reflexivity
  | |- load1 _ _ = _ => eapply load1_eq; deref
  | |- load2 _ _ = _ => eapply load2_eq; deref
  | |- lift _ _ = _ => eapply lift_eq; first [ eassumption | reflexivity ]
  | |- alloc _ _ = _ => reflexivity
  | |- mbind _ _ _ = _ =>
      first [ eapply bind_ok; [ solve [ repeat run_step ] | ]
            | eapply bind_raise; solve [ repeat run_step ] ]
  | |- (match ?x with _ => _ end) _ = _ =>
      first [ eassumption
            | match goal with E : x = _ |- _ => rewrite E end ]
  end.

Ltac run_raise :=
  eexists _, _; split; [ unfold ipca; solve [ repeat run_step ] | reflexivity ].

Ltac allocates_tac :=
  repeat first
    [ apply allocates_ret | apply allocates_lift | apply allocates_load1
    | apply allocates_load2 | apply allocates_alloc
    | apply allocates_bind; [|intros ?]
    | match goal with
      | |- allocates (match ?x with _ => _ end) => destruct x
      | |- allocates (let '(_, _) := ?x in _) => destruct x
      end ].

Section IpcaLemmas.
Context {F : Type} `{Scalar F}.
Variable qr : ndarray F -> option (ndarray F).
Variable svd : ndarray F -> option (list F * ndarray F).
Implicit Types (σ : heap F).

Lemma ipca_allocates B U_a l_a n_a m_a f eps :
  allocates (ipca qr svd B U_a l_a n_a m_a f eps).
Proof. unfold ipca. allocates_tac. Qed.

#[local] Arguments sub_row : simpl never.
#[local] Arguments np_T : simpl never.
#[local] Arguments np_dot : simpl never.
#[local] Arguments np_vstack : simpl never.
#[local] Arguments project_out : simpl never.
#[local] Arguments form_R : simpl never.
#[local] Arguments take_rows : simpl never.
#[local] Arguments nrows : simpl never.
#[local] Arguments broadcast : simpl never.
#[local] Arguments centred : simpl never.
#[local] Arguments new_eigenvalues : simpl never.
#[local] Arguments prior_singular_values : simpl never.
#[local] Arguments np_mean0 : simpl never.

Lemma ipca_run σ B U_a l_a n_a m_a f eps Bv Uv lv mv :
  deref2 σ B = Ok Bv -> deref2 σ U_a = Ok Uv -> deref1 σ l_a = Ok lv ->
  deref1_opt σ m_a = Ok mv ->
  exists r σ',
    ipca qr svd B U_a l_a n_a m_a f eps σ = (r, σ') /\
    match ipca_values qr svd Bv Uv lv n_a mv f eps with
    | Ok (U, l, m) =>
        exists rU rl rm, r = Ok (rU, rl, rm) /\
          deref2 σ' rU = Ok U /\ deref1 σ' rl = Ok l /\ deref1 σ' rm = Ok m
    | Raise e => r = Raise e
    end.
Proof.
  intros HB HU Hl Hm.
  assert (Hma : (match m_a with
                 | Some r => v ← load1 r; mret (Some v)
                 | None => mret None
                 end) σ = (Ok mv, σ)).
  { destruct m_a as [r|]; simpl in Hm.
    - unfold mbind, result_bind in Hm.
      destruct (deref1 σ r) eqn:E; [|done]. injection Hm as <-.
      repeat run_step.
    - by injection Hm as <-. }
  unfold ipca_values, ipca_centre, ipca_update.
  unfold mbind at 1 2, result_bind.
  cbv zeta.
  destruct (centred mv) as [m_av|] eqn:Hc.
  - unfold mbind at 1, result_bind.
    destruct (broadcast f_add _ _) as [m|e] eqn:E1; [|run_raise].
    unfold mbind at 1, result_bind.
    destruct (broadcast f_sub _ _) as [diff|e] eqn:E2; [|run_raise].
    unfold mbind at 1, result_bind.
    destruct (np_vstack _ _) as [Baug|e] eqn:E3; [|run_raise].
    cbn [mret result_ret].
    unfold mbind at 1, result_bind.
    destruct (project_out Baug Uv) as [[BUt PB]|e] eqn:E4; [|run_raise].
    unfold mbind at 1, result_bind.
    destruct (lapack (qr (np_T PB))) as [Q|e] eqn:E5; [|run_raise].
    unfold mbind at 1, result_bind.
    destruct (form_R _ _ _ _ _) as [R0|e] eqn:E6; [|run_raise].
    unfold mbind at 1, result_bind.
    destruct (lapack (svd R0)) as [[s_tilde Vt]|e] eqn:E7; [|run_raise].
    unfold mbind at 1, result_bind.
    destruct (np_vstack Uv (np_T Q)) as [stacked|e] eqn:E8; [|run_raise].
    unfold mbind at 1, result_bind.
    destruct (np_dot Vt stacked) as [VtS|e] eqn:E9; [|run_raise].
    cbn [mret result_ret].
    eexists _, _; split; [ unfold ipca; solve [ repeat run_step ] | ].
    eexists _, _, _. split; [reflexivity|]. repeat split; deref.
  - cbn [mret result_ret].
    destruct (project_out Bv Uv) as [[BUt PB]|e] eqn:E4; [|run_raise].
    unfold mbind at 1, result_bind.
    destruct (lapack (qr (np_T PB))) as [Q|e] eqn:E5; [|run_raise].
    unfold mbind at 1, result_bind.
    destruct (form_R _ _ _ _ _) as [R0|e] eqn:E6; [|run_raise].
    unfold mbind at 1, result_bind.
    destruct (lapack (svd R0)) as [[s_tilde Vt]|e] eqn:E7; [|run_raise].
    unfold mbind at 1, result_bind.
    destruct (np_vstack Uv (np_T Q)) as [stacked|e] eqn:E8; [|run_raise].
    unfold mbind at 1, result_bind.
    destruct (np_dot Vt stacked) as [VtS|e] eqn:E9; [|run_raise].
    cbn [mret result_ret].
    eexists _, _; split; [ unfold ipca; solve [ repeat run_step ] | ].
    eexists _, _, _. split; [reflexivity|]. repeat split; deref.
Qed.

End IpcaLemmas.

(* ================================================================== *)
(** ** Properties in any arithmetic *)

Section DriverLemmas.
Context {F : Type} `{Scalar F}.

Lemma eigh_diagonal_shapes : eigh_shapes (eigh_diagonal (F:=F)).
Proof.
  intros C w V. unfold eigh_diagonal.
  destruct (_ && _); [|discriminate]. intros [= <- <-].
  assert (Hlen : length (np_argsort (diagonal C)) = nrows C).
  { rewrite length_np_argsort. unfold diagonal. by rewrite length_imap. }
  repeat split.
  - by rewrite length_map.
  - by rewrite nrows_np_T.
  - rewrite ncols_np_T. unfold nrows at 1. simpl. by rewrite length_map.
  - apply wf_np_T.
Qed.

End DriverLemmas.

Section GenericClaims.
Context {F : Type} `{Scalar F}.
Implicit Types (σ : heap F).

(** C10. [ipca] mutates none of its arguments: whether it returns or
    raises, the heap after the call is the heap before it followed by the
    arrays [ipca] allocated, so [B], [U_a], [l_a] and [m_a] (and every other
    array of the caller) hold the same elements as before. *)
Theorem ipca_leaves_arguments_unchanged
    (qr : ndarray F -> option (ndarray F))
    (svd : ndarray F -> option (list F * ndarray F))
    (B U_a l_a : ref) (n_a : Z) (m_a : option ref) (f eps : F) σ :
  σ `prefix_of` (ipca qr svd B U_a l_a n_a m_a f eps σ).2 /\
  (forall r X, deref2 σ r = Ok X ->
     deref2 (ipca qr svd B U_a l_a n_a m_a f eps σ).2 r = Ok X) /\
  (forall r v, deref1 σ r = Ok v ->
     deref1 (ipca qr svd B U_a l_a n_a m_a f eps σ).2 r = Ok v).
Proof.
  pose proof (ipca_allocates qr svd B U_a l_a n_a m_a f eps σ) as Hpre.
  split; [exact Hpre|]. split.
  - intros r X. by apply deref2_prefix.
  - intros r v. by apply deref1_prefix.
Qed.

(** On a float array [pca_dtype] is [pca], and so it is on any array when
    [inplace=False]: the element type matters to [X -= m] only. *)
Lemma pca_dtype_float64
    (eigh : ndarray F -> option (list F * ndarray F))
    (X : ref) (centre inplace : bool) (eps : F) σ :
  pca_dtype eigh float64 X centre inplace eps σ = pca eigh X centre inplace eps σ.
Proof. reflexivity. Qed.

Lemma pca_dtype_copy
    (eigh : ndarray F -> option (list F * ndarray F))
    (dt : dtype) (X : ref) (centre : bool) (eps : F) σ :
  pca_dtype eigh dt X centre false eps σ = pca eigh X centre false eps σ.
Proof. reflexivity. Qed.

(** On an integer array the in-place call raises at [X -= m], with the
    mean allocated and nothing written. *)
Lemma pca_dtype_int64_inplace
    (eigh : ndarray F -> option (list F * ndarray F))
    σ (x : nat) (X : ndarray F) (centre : bool) (eps : F) :
  σ !! x = Some (A2 X) ->
  pca_dtype eigh int64 (Whole x) centre true eps σ
  = (Raise TypeError,
     σ ++ [A1 (if centre then np_mean0 X else np_zeros (ncols X))]).
Proof.
  intros Hx.
  assert (Hlt : x < length σ) by (apply lookup_lt_is_Some; eauto).
  unfold pca_dtype, isub_row_dtype, mbind, M_bind, load2, deref2, alloc, load1,
    deref1, lift. simpl.
  rewrite Hx. simpl. rewrite snoc_lookup. simpl.
  rewrite (lookup_app_l σ) by done. by rewrite Hx.
Qed.


Lemma ipca_returns qr svd σ B U_a l_a n_a m_a f eps Bv Uv lv mv rU rl rm σ' :
  deref2 σ B = Ok Bv -> deref2 σ U_a = Ok Uv -> deref1 σ l_a = Ok lv ->
  deref1_opt σ m_a = Ok mv ->
  ipca qr svd B U_a l_a n_a m_a f eps σ = (Ok (rU, rl, rm), σ') ->
  exists U l m,
    ipca_values qr svd Bv Uv lv n_a mv f eps = Ok (U, l, m) /\
    deref2 σ' rU = Ok U /\ deref1 σ' rl = Ok l /\ deref1 σ' rm = Ok m.
Proof.
  intros HB HU Hl Hm Hrun.
  destruct (ipca_run qr svd σ B U_a l_a n_a m_a f eps Bv Uv lv mv HB HU Hl Hm)
    as (r & σ'' & Hrun' & Hv).
  rewrite Hrun in Hrun'. injection Hrun' as <- <-.
  destruct (ipca_values _ _ _ _ _ _ _ _ _) as [[[U l] m]|e]; [|done].
  destruct Hv as (rU' & rl' & rm' & [= <- <- <-] & HU' & Hl' & Hm'). eauto 10.
Qed.

Lemma length_np_sum0 (X : ndarray F) : wf X -> length (np_sum0 X) = ncols X.
Proof.
  unfold wf, np_sum0. generalize (np_zeros (F:=F) (ncols X)) (length_np_zeros (F:=F) (ncols X)).
  generalize (ncols X). intros d.
  induction (rows X) as [|r rs IH]; intros acc Hacc Hwf; simpl; [done|].
  inversion Hwf; subst. apply IH; [|done].
  rewrite length_vadd. lia.
Qed.

Lemma length_np_mean0 (X : ndarray F) : wf X -> length (np_mean0 X) = ncols X.
Proof. intros Hwf. unfold np_mean0, vdivs. rewrite length_map. by apply length_np_sum0. Qed.

Lemma broadcast_same op (u v : list F) :
  length u = length v -> broadcast op u v = Ok (zip_with op u v).
Proof. intros E. unfold broadcast. by rewrite decide_True. Qed.

(** C4. When [m_a] is present and not all zero (and has the documented
    length [d]), the mean [ipca] returns is
    [(n_a'/n) m_a + (n_b/n) m_b] with [n_a' = n_a f], [n = n_a' + n_b] and
    [m_b] the column mean of [B], and the subspace update runs on [B - m_b]
    followed by the single row [sqrt(n_a' n_b / n) (m_b - m_a)]. When [m_a]
    is absent or all zero, the mean returned is the zero vector and the
    update runs on [B] itself. *)
Theorem ipca_mean_and_correction_row
    (qr : ndarray F -> option (ndarray F))
    (svd : ndarray F -> option (list F * ndarray F))
    σ (B U_a l_a : ref) (n_a : Z) (m_a : option ref) (f eps : F)
    (Bv Uv : ndarray F) (lv : list F) (mv : option (list F))
    (rU rl rm : ref) σ' :
  deref2 σ B = Ok Bv -> deref2 σ U_a = Ok Uv -> deref1 σ l_a = Ok lv ->
  deref1_opt σ m_a = Ok mv -> wf Bv ->
  ipca qr svd B U_a l_a n_a m_a f eps σ = (Ok (rU, rl, rm), σ') ->
  let n_b := f_of_Z (Z.of_nat (nrows Bv)) in
  let n_a' := f_mul (f_of_Z n_a) f in
  let n := f_add n_a' n_b in
  let m_b := np_mean0 Bv in
  let s_a := prior_singular_values n_a lv in
  exists U l,
    deref2 σ' rU = Ok U /\ deref1 σ' rl = Ok l /\
    match mv with
    | Some m_av =>
        if forallb (fun x => f_eqb x f_zero) m_av then
          deref1 σ' rm = Ok (np_zeros (ncols Bv)) /\
          ipca_update qr svd Bv Uv s_a n f eps = Ok (U, l)
        else
          length m_av = ncols Bv ->
          deref1 σ' rm = Ok (spec_combined_mean n_a' n_b n m_av m_b) /\
          ipca_update qr svd
            (Mat (ncols Bv)
               (rows (sub_row Bv m_b) ++ [spec_correction_row n_a' n_b n m_av m_b]))
            Uv s_a n f eps = Ok (U, l)
    | None =>
        deref1 σ' rm = Ok (np_zeros (ncols Bv)) /\
        ipca_update qr svd Bv Uv s_a n f eps = Ok (U, l)
    end.
Proof.
  intros HB HU Hl Hm Hwf Hrun n_b n_a' n m_b s_a.
  destruct (ipca_returns _ _ _ _ _ _ _ _ _ _ _ _ _ _ _ _ _ _ HB HU Hl Hm Hrun)
    as (U & l & m & Hv & HdU & Hdl & Hdm).
  exists U, l. split; [done|]. split; [done|].
  unfold ipca_values in Hv. fold n_b n_a' n s_a in Hv.
  unfold ipca_centre, centred in Hv. fold m_b in Hv.
  assert (Hnone :
    ('(B', m0) ← Ok (Bv, np_zeros (ncols Bv));
     '(U0, l0) ← ipca_update qr svd B' Uv s_a n f eps; mret (U0, l0, m0))
      = Ok (U, l, m) ->
    deref1 σ' rm = Ok (np_zeros (ncols Bv)) /\
    ipca_update qr svd Bv Uv s_a n f eps = Ok (U, l)).
  { simpl. destruct (ipca_update _ _ _ _ _ _ _ _) as [[U0 l0]|]; [|discriminate].
    simpl. intros [= <- <- <-]. done. }
  destruct mv as [m_av|]; [|by apply Hnone].
  destruct (forallb _ m_av); [by apply Hnone|].
  intros Hlen.
  assert (Hmb : length m_b = ncols Bv) by (by apply length_np_mean0).
  rewrite (broadcast_same f_add) in Hv by (rewrite !length_vscale; congruence).
  rewrite (broadcast_same f_sub) in Hv by congruence.
  simpl in Hv.
  unfold np_vstack in Hv. simpl in Hv.
  rewrite decide_True in Hv.
  2:{ unfold vscale, vsub. rewrite length_map, length_zip_with. lia. }
  simpl in Hv.
  destruct (ipca_update _ _ _ _ _ _ _ _) as [[U0 l0]|] eqn:Hup; [|discriminate].
  simpl in Hv. injection Hv as <- <- <-.
  split; [exact Hdm|reflexivity].
Qed.


End GenericClaims.



#[local] Set Warnings "-inexact-float".

Lemma ipca_mean_and_correction_row_witness :
  let σ' := (ipca qr_thin svd_orthogonal_columns (Whole 0) (Whole 1) (Whole 2) 2
               (Some (Whole 3)) 1%float eps_default centred_heap).2 in
  let n_a' := (2 * 1)%float in
  let n := (2 * 1 + 1)%float in
  deref1 σ' (Whole 4)
    = Ok (spec_combined_mean n_a' 1%float n m_prior (np_mean0 B_one)) /\
  exists U l,
    ipca_update qr_thin svd_orthogonal_columns
      (Mat 1 (rows (sub_row B_one (np_mean0 B_one)) ++
              [spec_correction_row n_a' 1%float n m_prior (np_mean0 B_one)]))
      U_unit (prior_singular_values 2 l_prior) n 1%float eps_default = Ok (U, l).
Proof.
  intros σ' n_a' n.
  destruct (ipca_mean_and_correction_row qr_thin svd_orthogonal_columns
              centred_heap (Whole 0) (Whole 1) (Whole 2) 2 (Some (Whole 3))
              1%float eps_default B_one U_unit l_prior (Some m_prior)
              (Whole 8) (Whole 7) (Whole 4) σ')
    as (U & l & _ & _ & Hc).
  - reflexivity.
  - reflexivity.
  - reflexivity.
  - reflexivity.
  - repeat constructor.
  - vm_compute. reflexivity.
  - simpl in Hc. destruct (Hc eq_refl) as [Hm Hup]. split; [exact Hm|]. eauto.
Defined.





(** C2, counterexample: on the identity matrix, which is symmetric, the
    eigenvalues returned are [1, 1]: not strictly descending. *)
Lemma eigenvalue_decomposition_repeated_eigenvalue :
  is_symmetric I2 = true /\
  exists V l,
    eigenvalue_decomposition eigh_diagonal I2 eps_default = Ok (V, l) /\
    strictly_descending l = false.
Proof. split; [reflexivity|]. eexists _, _. split; vm_compute; reflexivity. Qed.

(** C8, counterexample: with [centre=False] a 2 x 2 matrix yields two
    components, more than [min(n_samples - 1, n_dims) = 1]. *)
Lemma pca_uncentred_two_components :
  exists σ' rU rl rm U l,
    pca eigh_diagonal (Whole 0) false false eps_default [A2 I2]
      = (Ok (rU, rl, rm), σ') /\
    deref2 σ' rU = Ok U /\ deref1 σ' rl = Ok l /\
    nrows U = 2 /\ length l = 2 /\
    Nat.min (nrows I2 - 1) (ncols I2) = 1.
Proof.
  eexists _, _, _, _, _, _. split; [vm_compute; reflexivity|].
  repeat split; vm_compute; reflexivity.
Qed.



(* ================================================================== *)
(** ** Order on the reals *)

Section RealOrder.
Open Scope R_scope.

Lemma Rltb_lt (a b : R) : Rltb a b = true <-> a < b.
Proof. unfold Rltb. destruct (Rlt_dec a b); split; (done || lra). Qed.

Lemma Rltb_true a b : a < b -> Rltb a b = true.
Proof. apply Rltb_lt. Qed.

Lemma Rltb_false a b : ~ a < b -> Rltb a b = false.
Proof. intros Hn. destruct (Rltb a b) eqn:E; [|done]. by apply Rltb_lt in E. Qed.

Lemma Rltb_ge a b : Rltb a b = false <-> b <= a.
Proof.
  split.
  - intros E. destruct (Rlt_dec a b) as [Hlt|Hge]; [|lra].
    apply Rltb_true in Hlt. congruence.
  - intros Hle. apply Rltb_false. lra.
Qed.

Lemma Reqb_eq a b : Reqb a b = true <-> a = b.
Proof. unfold Reqb. destruct (Req_dec_T a b); split; (done || lra). Qed.

Lemma Reqb_true a b : a = b -> Reqb a b = true.
Proof. apply Reqb_eq. Qed.

Lemma Reqb_false a b : a <> b -> Reqb a b = false.
Proof. intros Hn. destruct (Reqb a b) eqn:E; [|done]. by apply Reqb_eq in E. Qed.

Lemma isnan_R (a : R) : f_isnan a = false.
Proof. unfold f_isnan. simpl. by rewrite Reqb_true. Qed.

Lemma np_lt_R (a b : R) : np_lt a b = Rltb a b.
Proof. unfold np_lt. rewrite !isnan_R. simpl. by rewrite orb_false_r. Qed.

Lemma insert_sorted_sorted (p : R * nat) (l : list (R * nat)) :
  StronglySorted key_le l -> StronglySorted key_le (insert_sorted p l).
Proof.
  induction 1 as [|q l Hs IH Hq]; simpl.
  - repeat constructor.
  - rewrite np_lt_R. destruct (Rltb p.1 q.1) eqn:E.
    + apply Rltb_lt in E. constructor; [by constructor|].
      constructor; [unfold key_le; lra|].
      eapply Forall_impl; [exact Hq|]. unfold key_le. intros r. simpl. lra.
    + apply Rltb_ge in E. constructor; [done|].
      rewrite (insert_sorted_perm p l). by constructor.
Qed.

Lemma sort_pairs_sorted (l : list (R * nat)) : StronglySorted key_le (sort_pairs l).
Proof.
  unfold sort_pairs.
  assert (G : forall acc, StronglySorted key_le acc ->
            StronglySorted key_le (fold_left (fun acc q => insert_sorted q acc) l acc)).
  { induction l as [|x l IH]; intros acc Hacc; simpl; [done|].
    apply IH. by apply insert_sorted_sorted. }
  apply G. constructor.
Qed.

Lemma StronglySorted_snoc {T} (Rel : relation T) l x :
  StronglySorted Rel l -> Forall (fun y => Rel y x) l -> StronglySorted Rel (l ++ [x]).
Proof.
  induction 1 as [|y l Hs IH Hy]; intros Hall; simpl.
  - repeat constructor.
  - inversion Hall; subst. constructor; [by apply IH|].
    apply Forall_app. split; [done|]. by constructor.
Qed.

Lemma StronglySorted_reverse {T} (Rel : relation T) l :
  StronglySorted Rel l -> StronglySorted (flip Rel) (reverse l).
Proof.
  induction 1 as [|y l Hs IH Hy]; [constructor|].
  rewrite reverse_cons. apply StronglySorted_snoc; [done|].
  by apply Forall_reverse.
Qed.

Lemma StronglySorted_map_fst (l : list (R * nat)) :
  StronglySorted key_le l -> StronglySorted Rle (map fst l).
Proof.
  induction 1 as [|y l Hs IH Hy]; simpl; constructor; [done|].
  apply Forall_map. exact Hy.
Qed.

Lemma StronglySorted_filter {T} (Rel : relation T) (p : T -> bool) l :
  StronglySorted Rel l -> StronglySorted Rel (List.filter p l).
Proof.
  induction 1 as [|y l Hs IH Hy]; simpl; [constructor|].
  destruct (p y); [|done]. constructor; [done|].
  apply Forall_forall. intros z Hz. apply list_elem_of_In, filter_In in Hz as [Hz _].
  rewrite Forall_forall in Hy. apply Hy. by apply list_elem_of_In.
Qed.

(** Descending order, ties allowed. *)
Lemma eigenvalues_desc_sorted (w : list R) : StronglySorted (flip Rle) (eigenvalues_desc w).
Proof.
  unfold eigenvalues_desc. apply StronglySorted_reverse, StronglySorted_map_fst.
  apply sort_pairs_sorted.
Qed.

Lemma pos_eigenvalues_sorted (w : list R) limit :
  StronglySorted (flip Rle) (pos_eigenvalues (eigenvalues_desc w) limit).
Proof.
  unfold pos_eigenvalues. do 2 apply StronglySorted_filter.
  apply eigenvalues_desc_sorted.
Qed.

Lemma pos_eigenvalues_spec (ws : list R) limit x :
  In x (pos_eigenvalues ws limit) <-> In x ws /\ 0 < x /\ limit < x.
Proof.
  unfold pos_eigenvalues. rewrite !filter_In. unfold f_gtb. simpl.
  rewrite !Rltb_lt. tauto.
Qed.

Lemma np_maximum_R (a b : R) : np_maximum a b = Rmax a b.
Proof.
  unfold np_maximum. rewrite !isnan_R. simpl.
  unfold Rmax. destruct (Rle_dec a b) as [Hle|Hgt].
  - destruct (Rltb a b) eqn:E; [done|]. apply Rltb_ge in E. lra.
  - rewrite Rltb_false by lra. done.
Qed.

Lemma fold_np_maximum (l : list R) a :
  Forall (fun y => y <= fold_left np_maximum l a) (a :: l) /\
  In (fold_left np_maximum l a) (a :: l).
Proof.
  revert a. induction l as [|b l IH]; intros a; simpl.
  - split; [repeat constructor; lra|auto].
  - destruct (IH (np_maximum a b)) as [Hall Hin].
    set (m := fold_left np_maximum l (np_maximum a b)) in *.
    apply Forall_cons in Hall as [Hm Hl].
    rewrite np_maximum_R in Hm.
    pose proof (Rmax_l a b). pose proof (Rmax_r a b).
    split.
    + repeat (apply Forall_cons; split); [lra|lra|done].
    + destruct Hin as [E|Hin]; [|auto].
      rewrite np_maximum_R in E.
      unfold Rmax in E. destruct (Rle_dec a b); rewrite <- E; auto.
Qed.

Lemma np_max_abs (w : list R) mx : np_max (map f_abs w) = Ok mx -> max_abs w mx.
Proof.
  destruct w as [|a w]; [discriminate|]. simpl. intros [= <-].
  destruct (fold_np_maximum (map Rabs w) (Rabs a)) as [Hall Hin].
  change (Rabs a :: map Rabs w) with (map Rabs (a :: w)) in *.
  split.
  - apply Forall_map in Hall. exact Hall.
  - apply in_map_iff in Hin as (y & Ey & Hy).
    apply Exists_exists. exists y. split; [by apply list_elem_of_In|done].
Qed.

Lemma max_abs_perm w w' mx : Permutation w w' -> max_abs w mx -> max_abs w' mx.
Proof. intros Hp [Ha He]. split; by rewrite <- Hp. Qed.

Lemma max_abs_unique w mx mx' : max_abs w mx -> max_abs w mx' -> mx = mx'.
Proof.
  intros [Ha He] [Ha' He'].
  apply Exists_exists in He as (y & Hy & ->).
  apply Exists_exists in He' as (y' & Hy' & ->).
  rewrite Forall_forall in Ha, Ha'.
  specialize (Ha _ Hy'). specialize (Ha' _ Hy). lra.
Qed.

End RealOrder.

(* ================================================================== *)
(** ** Properties in exact arithmetic *)

Ltac R_compute :=
  cbv -[Rplus Rminus Rmult Rdiv Rinv Ropp IZR Rabs R_sqrt.sqrt
        Rlt_dec Req_dec_T Rltb Reqb].

Section RealClaims.
Open Scope R_scope.

Lemma pos_eigenvalues_positive (ws : list R) limit :
  Forall (fun x => 0 < x) (pos_eigenvalues ws limit).
Proof.
  apply Forall_forall. intros x Hx. apply list_elem_of_In in Hx.
  apply pos_eigenvalues_spec in Hx. tauto.
Qed.

(** C2 (as amended). The eigenvalues [eigenvalue_decomposition] returns
    are in descending order (equal eigenvalues are all kept: the order is
    not strict), strictly positive, and each exceeds [limit], the largest
    magnitude among the eigenvalues of [C] times [eps]. *)
Theorem eigenvalue_decomposition_descending_positive
    (eigh : ndarray R -> option (list R * ndarray R))
    (C : ndarray R) (eps : R) (V : ndarray R) (l : list R) :
  eigenvalue_decomposition eigh C eps = Ok (V, l) ->
  StronglySorted (flip Rle) l /\
  Forall (fun x => 0 < x) l /\
  exists w V0 mx,
    eigh C = Some (w, V0) /\ max_abs w mx /\
    Forall (fun x => In x w /\ mx * eps < x) l.
Proof.
  intros HE.
  apply eigenvalue_decomposition_inv in HE as (w & V0 & mx & Hw & Hmx & -> & _).
  split; [apply pos_eigenvalues_sorted|]. split.
  - apply pos_eigenvalues_positive.
  - exists w, V0, mx. split; [done|]. split.
    + apply np_max_abs in Hmx. eapply max_abs_perm; [|exact Hmx].
      apply eigenvalues_desc_perm.
    + apply Forall_forall. intros x Hx. apply list_elem_of_In in Hx.
      apply pos_eigenvalues_spec in Hx as (Hin & _ & Hlim). split; [|exact Hlim].
      apply list_elem_of_In. rewrite <- (eigenvalues_desc_perm w).
      by apply list_elem_of_In.
Qed.

Lemma eigenvalues_desc_pair : eigenvalues_desc w_pair = [2; 0].
Proof.
  unfold eigenvalues_desc, w_pair, sort_pairs. simpl.
  rewrite np_lt_R, Rltb_false by lra. reflexivity.
Qed.

Lemma eigh_pair_shapes : eigh_shapes eigh_pair.
Proof.
  intros C w V. unfold eigh_pair. destruct (decide _) as [->|]; [|discriminate].
  intros [= <- <-]. repeat split. repeat constructor.
Qed.

Lemma pos_eigenvalues_pair mx eps :
  np_max (map f_abs (eigenvalues_desc w_pair)) = Ok mx ->
  pos_eigenvalues (eigenvalues_desc w_pair) (f_mul mx eps)
  = if Rlt_dec eps 1 then [2] else [].
Proof.
  rewrite eigenvalues_desc_pair. intros Hmx.
  assert (mx = 2) as ->.
  { simpl in Hmx. injection Hmx as <-. rewrite np_maximum_R.
    rewrite Rabs_R0, Rabs_pos_eq by lra. apply Rmax_left. lra. }
  unfold pos_eigenvalues, f_gtb. simpl.
  rewrite (Rltb_true 0 2), (Rltb_false 0 0) by lra. simpl.
  destruct (Rlt_dec eps 1).
  - rewrite Rltb_true by lra. done.
  - rewrite Rltb_false by lra. done.
Qed.

Lemma eigh_pair_C_pair : eigh_pair C_pair = Some (w_pair, V_pair).
Proof. unfold eigh_pair. by rewrite decide_True. Qed.

Lemma eigh_pair_decomposition eps :
  exists V,
    eigenvalue_decomposition eigh_pair C_pair eps
      = Ok (V, if Rlt_dec eps 1 then [2] else []) /\
    nrows V = 2%nat.
Proof.
  destruct (eigenvalue_decomposition_ok eigh_pair C_pair eps w_pair V_pair)
    as (V & mx & Hmx & HE & HnV & _).
  - apply eigh_pair_C_pair.
  - apply eigh_pair_shapes, eigh_pair_C_pair.
  - done.
  - exists V. split; [|exact HnV]. rewrite HE. do 2 f_equal.
    by apply pos_eigenvalues_pair.
Qed.

Lemma covariance_pair :
  covariance true (sub_row X_pair (np_mean0 X_pair)) = Ok C_pair.
Proof. R_compute. repeat (f_equal; try lra). Qed.

Lemma pca_pair σ x inplace eps :
  σ !! x = Some (A2 X_pair) ->
  exists rU rl rm σ' U,
    pca eigh_pair (Whole x) true inplace eps σ = (Ok (rU, rl, rm), σ') /\
    deref1 σ' rl = Ok (if Rlt_dec eps 1 then [2] else []) /\
    deref2 σ' rU = Ok U.
Proof.
  intros Hx.
  destruct (pca_values_ok eigh_pair X_pair true eps eigh_pair_shapes)
    as (C & HC & Hm); [done..|].
  change (covariance true (sub_row X_pair (np_mean0 X_pair)) = Ok C) in HC.
  rewrite covariance_pair in HC. injection HC as <-.
  rewrite eigh_pair_C_pair in Hm. destruct Hm as (U & mx & Hmx & Hv).
  rewrite (pos_eigenvalues_pair mx eps Hmx) in Hv.
  destruct (pca_run eigh_pair σ x X_pair true inplace eps Hx) as (r & σ' & Hr & Hv').
  rewrite Hv in Hv'. destruct Hv' as [(rU & rl & rm & -> & HU & Hl & _) _].
  eauto 10.
Qed.

Lemma eigenvalue_decomposition_descending_positive_witness :
  StronglySorted (flip Rle) [2] /\
  Forall (fun x => 0 < x) [2] /\
  exists w V0 mx,
    eigh_pair C_pair = Some (w, V0) /\ max_abs w mx /\
    Forall (fun x => In x w /\ mx * (/ 2) < x) [2].
Proof.
  destruct (eigh_pair_decomposition (/ 2)) as (V & HE & _).
  destruct (Rlt_dec (/ 2) 1) as [_|Hn]; [|exfalso; lra].
  exact (eigenvalue_decomposition_descending_positive eigh_pair C_pair (/ 2) V [2] HE).
Defined.

(** C7. In the dual regime with at least two samples, every eigenvalue
    [x] that reaches [np.sqrt(1.0 / ((n - 1) * l))] is strictly positive, so
    [(n - 1) * x] is not zero and the argument of the square root is
    positive. *)
Theorem dual_scaling_is_defined
    (eigh : ndarray R -> option (list R * ndarray R))
    (σ : heap R) (x : nat) (X : ndarray R) (centre inplace : bool) (eps : R)
    (rU rl rm : ref) (σ' : heap R) (l : list R) :
  σ !! x = Some (A2 X) ->
  (2 <= nrows X)%nat -> (nrows X <= ncols X)%nat ->
  pca eigh (Whole x) centre inplace eps σ = (Ok (rU, rl, rm), σ') ->
  deref1 σ' rl = Ok l ->
  Forall (fun x => 0 < x /\
                   IZR (Z.of_nat (nrows X) - 1) * x <> 0 /\
                   0 < 1 / (IZR (Z.of_nat (nrows X) - 1) * x)) l /\
  exists P U,
    scale_rows P (dual_scaling (nrows X) l) = Ok U /\ deref2 σ' rU = Ok U.
Proof.
  intros Hx Hn Hd Hrun Hl.
  destruct (pca_returns eigh σ x X centre inplace eps _ _ _ _ Hx Hrun)
    as (U & l' & m & Hv & HU & Hl' & _).
  rewrite Hl in Hl'. injection Hl' as <-.
  assert (Hpos : 0 < IZR (Z.of_nat (nrows X) - 1)).
  { apply IZR_lt. lia. }
  unfold pca_values in Hv.
  replace (ncols X <? nrows X)%nat with false in Hv
    by (symmetry; apply Nat.ltb_ge; lia).
  destruct (covariance true _) as [C|]; [|discriminate]. simpl in Hv.
  destruct (eigenvalue_decomposition eigh C eps) as [[V l']|] eqn:HE; [|discriminate].
  simpl in Hv.
  destruct (np_dot _ _) as [P|]; [|discriminate]. simpl in Hv.
  destruct (scale_rows P _) as [Y|] eqn:HY; [|discriminate]. simpl in Hv.
  injection Hv as <- <- <-.
  split; [|eauto].
  apply eigenvalue_decomposition_inv in HE as (w & V0 & mx & _ & _ & -> & _).
  eapply Forall_impl; [apply pos_eigenvalues_positive|].
  intros y Hy. simpl in Hy. split; [done|].
  assert (0 < IZR (Z.of_nat (nrows X) - 1) * y) by (by apply Rmult_lt_0_compat).
  split; [lra|]. apply Rdiv_lt_0_compat; lra.
Qed.

Lemma dual_scaling_is_defined_witness :
  Forall (fun x => 0 < x /\
                   IZR (Z.of_nat (nrows X_pair) - 1) * x <> 0 /\
                   0 < 1 / (IZR (Z.of_nat (nrows X_pair) - 1) * x)) [2].
Proof.
  destruct (pca_pair [A2 X_pair] 0 false (/ 2) eq_refl)
    as (rU & rl & rm & σ' & U & Hrun & Hl & _).
  destruct (Rlt_dec (/ 2) 1) as [_|Hn]; [|exfalso; lra].
  apply (dual_scaling_is_defined eigh_pair [A2 X_pair] 0 X_pair true false (/ 2)
           rU rl rm σ' [2] eq_refl);
    [unfold nrows; simpl; lia|unfold nrows; simpl; lia|exact Hrun|exact Hl].
Defined.



End RealClaims.

(* ================================================================== *)
(** ** Sums and entries *)

Section RealAlgebra.
Open Scope R_scope.

Lemma Rsum_app u v : Rsum (u ++ v) = Rsum u + Rsum v.
Proof. induction u as [|a u IH]; simpl; [lra|]. rewrite IH. lra. Qed.

Lemma Rsum_map_plus {T} (f g : T -> R) l :
  Rsum (map (fun x => f x + g x) l) = Rsum (map f l) + Rsum (map g l).
Proof. induction l as [|a l IH]; simpl; [lra|]. rewrite IH. lra. Qed.

Lemma Rsum_map_scale {T} (c : R) (f : T -> R) l :
  Rsum (map (fun x => c * f x) l) = c * Rsum (map f l).
Proof. induction l as [|a l IH]; simpl; [lra|]. rewrite IH. lra. Qed.

Lemma Rsum_map_const {T} (c : R) (l : list T) :
  Rsum (map (fun _ => c) l) = INR (length l) * c.
Proof.
  induction l as [|a l IH]; [simpl; lra|].
  cbn [map Rsum fold_right length]. fold (Rsum (map (fun _ => c) l)).
  rewrite IH, S_INR. lra.
Qed.

Lemma Rsum_map_ext {T} (f g : T -> R) l :
  (forall x, In x l -> f x = g x) -> Rsum (map f l) = Rsum (map g l).
Proof.
  intros E. induction l as [|a l IH]; simpl; [done|].
  rewrite E by (by left). rewrite IH; [done|]. intros x Hx. apply E. by right.
Qed.

Lemma Rsum_map_zero {T} (f : T -> R) l :
  (forall x, In x l -> f x = 0) -> Rsum (map f l) = 0.
Proof.
  intros E. rewrite (Rsum_map_ext f (fun _ => 0) l E), Rsum_map_const. lra.
Qed.

(** Entries of the vector operations. *)

Lemma entry_nil j : entry j [] = 0.
Proof. unfold entry. by destruct j. Qed.

Lemma entry_ge j v : (length v <= j)%nat -> entry j v = 0.
Proof. intros Hj. unfold entry. by apply nth_overflow. Qed.

Lemma entry_zeros j d : entry j (np_zeros d) = 0.
Proof.
  unfold entry, np_zeros. revert j. induction d as [|d IH]; intros [|j]; simpl; auto.
Qed.

Lemma entry_vadd j u v :
  length u = length v -> entry j (vadd u v) = entry j u + entry j v.
Proof.
  unfold entry, vadd. revert j v.
  induction u as [|a u IH]; intros j [|b v] Hlen; simpl in *; try discriminate.
  - destruct j; lra.
  - destruct j; [done|]. apply IH. lia.
Qed.

Lemma entry_vsub j u v :
  length u = length v -> entry j (vsub u v) = entry j u - entry j v.
Proof.
  unfold entry, vsub. revert j v.
  induction u as [|a u IH]; intros j [|b v] Hlen; simpl in *; try discriminate.
  - destruct j; lra.
  - destruct j; [done|]. apply IH. lia.
Qed.

Lemma entry_vmul j u v :
  length u = length v -> entry j (vmul u v) = entry j u * entry j v.
Proof.
  unfold entry, vmul. revert j v.
  induction u as [|a u IH]; intros j [|b v] Hlen; simpl in *; try discriminate.
  - destruct j; lra.
  - destruct j; [done|]. apply IH. lia.
Qed.

Lemma entry_vscale j a v : entry j (vscale a v) = a * entry j v.
Proof.
  unfold entry, vscale. revert j.
  induction v as [|b v IH]; intros [|j]; simpl; try lra. apply IH.
Qed.

Lemma entry_vdivs j v a : entry j (vdivs v a) = entry j v / a.
Proof.
  unfold entry, vdivs. revert j.
  induction v as [|b v IH]; intros [|j]; simpl; try lra. apply IH.
Qed.

(** Two vectors of the same length with the same entries are equal. *)
Lemma entry_ext u v :
  length u = length v ->
  (forall j, (j < length u)%nat -> entry j u = entry j v) -> u = v.
Proof.
  intros Hlen He. apply (nth_ext u v 0 0 Hlen). exact He.
Qed.

Lemma col_entries (X : ndarray R) j : col X j = map (entry j) (rows X).
Proof. done. Qed.

Lemma fold_vadd_shape d (rs : list (list R)) acc :
  Forall (fun r => length r = d) rs -> length acc = d ->
  length (fold_left vadd rs acc) = d /\
  forall j, entry j (fold_left vadd rs acc) = entry j acc + Rsum (map (entry j) rs).
Proof.
  intros Hwf. revert acc. induction Hwf as [|r rs Hr Hwf IH]; intros acc Hacc; simpl.
  - split; [done|]. intros j. lra.
  - destruct (IH (vadd acc r)) as [Hlen He].
    { rewrite length_vadd. lia. }
    split; [done|]. intros j. rewrite He, entry_vadd by congruence. lra.
Qed.

Lemma entry_np_sum0 (X : ndarray R) j :
  wf X -> entry j (np_sum0 X) = Rsum (col X j).
Proof.
  intros Hwf. unfold np_sum0.
  destruct (fold_vadd_shape (ncols X) (rows X) (np_zeros (ncols X)) Hwf
              (length_np_zeros _)) as [_ He].
  rewrite He, entry_zeros, col_entries. lra.
Qed.

Lemma fold_left_map_acc {T U} (f : U -> T -> U) (g : T -> T) l acc :
  fold_left (fun a x => f a (g x)) l acc = fold_left f (map g l) acc.
Proof. revert acc. induction l as [|x l IH]; intros acc; simpl; [done|]. apply IH. Qed.

Lemma lincomb_shape d (a : list R) (Bs : list (list R)) :
  Forall (fun b => length b = d) Bs ->
  length (lincomb d a Bs) = d /\
  forall j, entry j (lincomb d a Bs) = dotp a (map (entry j) Bs).
Proof.
  intros Hwf. unfold lincomb.
  assert (E : fold_left (fun acc p => vadd acc (vscale p.1 p.2)) (combine a Bs)
                (np_zeros d)
              = fold_left vadd (map (fun p => vscale p.1 p.2) (combine a Bs))
                  (np_zeros d)).
  { generalize (np_zeros (F:=R) d). generalize (combine a Bs).
    induction l as [|x l IH]; intros acc; simpl; [done|]. apply IH. }
  rewrite E.
  destruct (fold_vadd_shape d (map (fun p => vscale p.1 p.2) (combine a Bs))
              (np_zeros d)) as [Hlen He].
  { apply Forall_map, Forall_forall. intros [x b] Hin. simpl.
    rewrite length_vscale. rewrite combine_zip in Hin.
    apply elem_of_zip_r in Hin. rewrite Forall_forall in Hwf. by apply Hwf. }
  { apply length_np_zeros. }
  split; [done|]. intros j. rewrite He, entry_zeros.
  rewrite map_map. unfold dotp.
  clear. revert Bs. induction a as [|x a IH]; intros [|b Bs]; simpl; try lra.
  specialize (IH Bs). rewrite entry_vscale. lra.
Qed.

Lemma dotp_nil_r a : dotp a [] = 0.
Proof. unfold dotp. by destruct a. Qed.

Lemma dotp_comm a b : dotp a b = dotp b a.
Proof.
  unfold dotp. revert b. induction a as [|x a IH]; intros [|y b]; simpl; try lra.
  rewrite IH. lra.
Qed.

Lemma dotp_zeros d g : dotp (np_zeros d) g = 0.
Proof.
  unfold dotp, np_zeros. revert g. induction d as [|d IH]; intros [|y g]; simpl; try lra.
  rewrite IH. lra.
Qed.

Lemma dotp_map_plus {T} (u v : T -> R) (s : list T) g :
  dotp (map (fun k => u k + v k) s) g = dotp (map u s) g + dotp (map v s) g.
Proof.
  unfold dotp. revert g. induction s as [|k s IH]; intros [|y g]; simpl; try lra.
  rewrite IH. lra.
Qed.

Lemma dotp_map_zero {T} (s : list T) g : dotp (map (fun _ => 0) s) g = 0.
Proof.
  unfold dotp. revert g. induction s as [|k s IH]; intros [|y g]; simpl; try lra.
  rewrite IH. lra.
Qed.

Lemma list_as_entries (a : list R) :
  a = map (fun k => entry k a) (seq 0 (length a)).
Proof.
  apply entry_ext.
  - by rewrite length_map, length_seq.
  - intros j Hj. unfold entry at 2.
    rewrite (nth_indep _ 0 (entry 0 a)) by (by rewrite length_map, length_seq).
    rewrite (map_nth (fun k => entry k a)), seq_nth by done. done.
Qed.

(** Summing dot products over the rows of a matrix: the sums move to the
    columns. *)
Lemma Rsum_dotp_rows (As : list (list R)) (g : list R) :
  Forall (fun a => length a = length g) As ->
  Rsum (map (fun a => dotp a g) As)
  = dotp (map (fun k => Rsum (map (entry k) As)) (seq 0 (length g))) g.
Proof.
  induction 1 as [|a As Ha Hwf IH]; simpl.
  - by rewrite dotp_map_zero.
  - rewrite IH, dotp_map_plus. f_equal.
    rewrite <- Ha. by rewrite <- list_as_entries.
Qed.

End RealAlgebra.

(* ================================================================== *)
(** ** Column sums of products *)

Section RealMatrices.
Open Scope R_scope.

Lemma Rsum_as_entries (v : list R) :
  Rsum v = Rsum (map (fun c => entry c v) (seq 0 (length v))).
Proof. by rewrite <- list_as_entries. Qed.

Lemma Rsum_vadd (u v : list R) :
  length u = length v -> Rsum (vadd u v) = Rsum u + Rsum v.
Proof.
  unfold vadd. revert v. induction u as [|a u IH]; intros [|b v] Hlen;
    simpl in *; try discriminate; [lra|].
  rewrite IH by lia. lra.
Qed.

Lemma Rsum_vscale a (v : list R) : Rsum (vscale a v) = a * Rsum v.
Proof. unfold vscale. induction v as [|b v IH]; simpl in *; [lra|]. rewrite IH. lra. Qed.

Lemma Rsum_vdivs (v : list R) a : Rsum (vdivs v a) = Rsum v / a.
Proof. unfold vdivs. induction v as [|b v IH]; simpl in *; [lra|]. rewrite IH. lra. Qed.

Lemma Rsum_zeros d : Rsum (np_zeros d) = 0.
Proof. unfold np_zeros. induction d as [|d IH]; simpl in *; [done|]. rewrite IH. lra. Qed.

Lemma Rsum_fold_vadd d (rs : list (list R)) acc :
  Forall (fun r => length r = d) rs -> length acc = d ->
  Rsum (fold_left vadd rs acc) = Rsum acc + Rsum (map Rsum rs).
Proof.
  intros Hwf. revert acc. induction Hwf as [|r rs Hr Hwf IH]; intros acc Hacc; simpl.
  - lra.
  - rewrite IH by (rewrite length_vadd; lia). rewrite Rsum_vadd by congruence. lra.
Qed.

(** The sum of the entries of a linear combination of rows. *)
Lemma Rsum_lincomb d (a : list R) (Bs : list (list R)) :
  Forall (fun b => length b = d) Bs ->
  Rsum (lincomb d a Bs) = dotp a (map Rsum Bs).
Proof.
  intros Hwf. unfold lincomb.
  assert (E : fold_left (fun acc p => vadd acc (vscale p.1 p.2)) (combine a Bs)
                (np_zeros d)
              = fold_left vadd (map (fun p => vscale p.1 p.2) (combine a Bs))
                  (np_zeros d)).
  { generalize (np_zeros (F:=R) d). generalize (combine a Bs).
    induction l as [|x l IH]; intros acc; simpl; [done|]. apply IH. }
  rewrite E, (Rsum_fold_vadd d).
  - rewrite Rsum_zeros, map_map. unfold dotp.
    clear. revert Bs. induction a as [|x a IH]; intros [|b Bs]; simpl; try lra.
    specialize (IH Bs). rewrite Rsum_vscale. lra.
  - apply Forall_map, Forall_forall. intros [x b] Hin. simpl.
    rewrite length_vscale. rewrite combine_zip in Hin.
    apply elem_of_zip_r in Hin. unfold wf in Hwf; rewrite Forall_forall in Hwf. by apply Hwf.
  - apply length_np_zeros.
Qed.

Lemma entry_col (X : ndarray R) k c :
  entry k (col X c) = entry c (nth k (rows X) []).
Proof.
  unfold col, entry.
  transitivity (nth k (map (fun r => nth c r 0) (rows X)) (nth c [] 0)).
  - f_equal. by destruct c.
  - apply (map_nth (fun r => nth c r 0)).
Qed.

(** The columns of a centred data matrix sum to zero. *)
Lemma col_sum_centred (X : ndarray R) k :
  wf X -> nrows X <> 0%nat ->
  Rsum (col (sub_row X (np_mean0 X)) k) = 0.
Proof.
  intros Hwf Hn.
  assert (Hm : length (np_mean0 X) = ncols X) by (by apply length_np_mean0).
  unfold col, sub_row. simpl. rewrite map_map.
  rewrite (Rsum_map_ext _ (fun r => entry k r + (-1) * entry k (np_mean0 X))).
  2:{ intros r Hr. change (nth k (vsub r (np_mean0 X)) 0)
        with (entry k (vsub r (np_mean0 X))).
      rewrite entry_vsub; [lra|].
      unfold wf in Hwf; rewrite Forall_forall in Hwf. rewrite (Hwf r) by (by apply list_elem_of_In).
      done. }
  rewrite Rsum_map_plus, Rsum_map_const.
  unfold np_mean0. rewrite entry_vdivs, entry_np_sum0 by done.
  rewrite col_entries. simpl. unfold nrows in *.
  rewrite <- INR_IZR_INZ.
  assert (INR (length (rows X)) <> 0) by (by apply not_0_INR).
  field. done.
Qed.

Lemma wf_sub_row (X : ndarray R) m :
  wf X -> length m = ncols X -> wf (sub_row X m).
Proof.
  intros Hwf Hm. unfold wf, sub_row. simpl. apply Forall_map.
  eapply Forall_impl; [exact Hwf|]. intros r Hr. simpl.
  simpl in Hr. rewrite length_vsub. lia.
Qed.

Lemma Rsum_col_zip_vadd (l1 l2 : list (list R)) k :
  Forall2 (fun a b => length a = length b) l1 l2 ->
  Rsum (map (entry k) (zip_with vadd l1 l2))
  = Rsum (map (entry k) l1) + Rsum (map (entry k) l2).
Proof.
  induction 1 as [|a b l1 l2 Hab _ IH]; simpl; [lra|].
  rewrite IH, entry_vadd by done. lra.
Qed.

(** The rows of [np.dot(A, B)]. *)
Lemma rows_np_dot (A B P : ndarray R) :
  np_dot A B = Ok P ->
  rows P = map (fun a => lincomb (ncols B) a (rows B)) (rows A) /\
  ncols P = ncols B.
Proof.
  unfold np_dot. destruct (decide _); [|discriminate]. by intros [= <-].
Qed.

Lemma wf_np_dot (A B P : ndarray R) : wf B -> np_dot A B = Ok P -> wf P.
Proof.
  intros HB HP. apply rows_np_dot in HP as [Hr Hc]. unfold wf. rewrite Hr, Hc.
  apply Forall_map, Forall_forall. intros a _.
  by apply (lincomb_shape (ncols B) a (rows B)).
Qed.

(** Column sums of a product: the column sums of the left factor times
    the right factor. *)
Lemma col_sum_np_dot (A B P : ndarray R) k :
  np_dot A B = Ok P -> wf A -> wf B ->
  Rsum (col P k)
  = dotp (map (fun j => Rsum (col A j)) (seq 0 (ncols A))) (col B k).
Proof.
  intros HP HA HB.
  assert (Hshape : ncols A = nrows B).
  { unfold np_dot in HP. by destruct (decide _). }
  apply rows_np_dot in HP as [Hr _].
  rewrite col_entries, Hr, map_map.
  rewrite (Rsum_map_ext _ (fun a => dotp a (col B k))).
  2:{ intros a _. by apply (lincomb_shape (ncols B) a (rows B)). }
  rewrite Rsum_dotp_rows.
  - replace (length (col B k)) with (ncols A); [done|].
    unfold col. rewrite length_map. exact Hshape.
  - eapply Forall_impl; [exact HA|]. intros a Ha. simpl.
    unfold col. rewrite length_map. fold (nrows B). congruence.
Qed.

(** Row sums of a product. *)
Lemma row_sum_np_dot (A B P : ndarray R) :
  np_dot A B = Ok P -> wf B ->
  map Rsum (rows P) = map (fun a => dotp a (map Rsum (rows B))) (rows A).
Proof.
  intros HP HB. apply rows_np_dot in HP as [Hr _].
  rewrite Hr, map_map. apply map_ext. intros a.
  by apply Rsum_lincomb.
Qed.

(** Row sums of a transpose are column sums. *)
Lemma row_sums_np_T (X : ndarray R) :
  map Rsum (rows (np_T X)) = map (fun j => Rsum (col X j)) (seq 0 (ncols X)).
Proof. unfold np_T. simpl. by rewrite map_map. Qed.

(** Column sums of a transpose are row sums. *)
Lemma col_sum_np_T (X : ndarray R) k :
  wf X -> Rsum (col (np_T X) k) = Rsum (nth k (rows X) []).
Proof.
  intros Hwf. rewrite col_entries. unfold np_T. simpl. rewrite map_map.
  rewrite (Rsum_map_ext _ (fun c => entry c (nth k (rows X) []))).
  2:{ intros c _. apply entry_col. }
  destruct (lt_dec k (length (rows X))) as [Hk|Hk].
  - assert (Hlen : length (nth k (rows X) []) = ncols X).
    { unfold wf in Hwf; rewrite Forall_forall in Hwf. apply Hwf, list_elem_of_In. by apply nth_In. }
    rewrite <- Hlen. by rewrite <- Rsum_as_entries.
  - rewrite nth_overflow by lia. simpl.
    apply Rsum_map_zero. intros c _. apply entry_nil.
Qed.

End RealMatrices.

(* ================================================================== *)
(** ** A centred covariance matrix is singular *)

Section Singular.
Open Scope R_scope.

Lemma dotp_zero_l (a g : list R) : Forall (fun x => x = 0) a -> dotp a g = 0.
Proof.
  unfold dotp. intros Ha. revert g.
  induction Ha as [|x a -> _ IH]; intros [|y g]; simpl; try lra.
  rewrite IH. lra.
Qed.

Lemma dotp_zero_r (a g : list R) : Forall (fun x => x = 0) g -> dotp a g = 0.
Proof. intros Hg. rewrite dotp_comm. by apply dotp_zero_l. Qed.

Lemma np_dot_zero_col_sums (A B P : ndarray R) :
  np_dot A B = Ok P -> wf A -> wf B ->
  (forall j, Rsum (col A j) = 0) -> forall k, Rsum (col P k) = 0.
Proof.
  intros HP HA HB Hz k. rewrite (col_sum_np_dot A B P k HP HA HB).
  apply dotp_zero_l, Forall_map, Forall_forall. intros j _. apply Hz.
Qed.

Lemma np_dot_zero_row_sums (A B P : ndarray R) :
  np_dot A B = Ok P -> wf B ->
  Forall (fun b => Rsum b = 0) (rows B) -> Forall (fun r => Rsum r = 0) (rows P).
Proof.
  intros HP HB Hz.
  assert (E := row_sum_np_dot A B P HP HB).
  apply (proj1 (Forall_map Rsum (fun x => x = 0) (rows P))).
  rewrite E. apply Forall_map, Forall_forall. intros a _. simpl.
  apply dotp_zero_r, Forall_map. exact Hz.
Qed.

Lemma rows_np_T_sums (X : ndarray R) :
  (forall j, Rsum (col X j) = 0) -> Forall (fun b => Rsum b = 0) (rows (np_T X)).
Proof.
  intros Hz. unfold np_T. simpl. apply Forall_map, Forall_forall. intros j _. apply Hz.
Qed.

Lemma col_sum_mdivs (X : ndarray R) a k :
  Rsum (col (mdivs X a) k) = Rsum (col X k) / a.
Proof.
  unfold col, mdivs. simpl. rewrite map_map.
  rewrite (Rsum_map_ext _ (fun r => / a * entry k r)).
  - rewrite Rsum_map_scale. unfold entry. lra.
  - intros r _. change (entry k (vdivs r a) = / a * entry k r).
    rewrite entry_vdivs. lra.
Qed.

Lemma row_sums_mdivs (X : ndarray R) a :
  Forall (fun r => Rsum r = 0) (rows X) ->
  Forall (fun r => Rsum r = 0) (rows (mdivs X a)).
Proof.
  intros Hz. unfold mdivs. simpl. apply Forall_map.
  eapply Forall_impl; [exact Hz|]. intros r Hr. simpl in *.
  rewrite Rsum_vdivs, Hr. lra.
Qed.

Lemma wf_mdivs (X : ndarray R) a : wf X -> wf (mdivs X a).
Proof.
  intros Hwf. unfold wf, mdivs. simpl. apply Forall_map.
  eapply Forall_impl; [exact Hwf|]. intros r Hr. simpl in *.
  unfold vdivs. by rewrite length_map.
Qed.

Lemma col_sum_madd (X Y : ndarray R) k :
  Forall2 (fun a b => length a = length b) (rows X) (rows Y) ->
  Rsum (col (madd X Y) k) = Rsum (col X k) + Rsum (col Y k).
Proof. intros H2. unfold col, madd. simpl. by apply Rsum_col_zip_vadd. Qed.

Lemma col_sums_np_T_zero (X : ndarray R) :
  wf X -> Forall (fun r => Rsum r = 0) (rows X) ->
  forall k, Rsum (col (np_T X) k) = 0.
Proof.
  intros Hwf Hz k. rewrite col_sum_np_T by done.
  destruct (lt_dec k (length (rows X))) as [Hk|Hk].
  - rewrite Forall_forall in Hz. apply Hz, list_elem_of_In. by apply nth_In.
  - by rewrite nth_overflow by lia.
Qed.

Lemma Forall2_same_length {T} (P : T -> T -> Prop) (l1 l2 : list T) d1 d2 :
  length l1 = length l2 ->
  (forall i, (i < length l1)%nat -> P (nth i l1 d1) (nth i l2 d2)) ->
  Forall2 P l1 l2.
Proof.
  revert l2. induction l1 as [|a l1 IH]; intros [|b l2] Hlen Hp; simpl in *;
    try discriminate; constructor.
  - apply (Hp 0%nat). lia.
  - apply IH; [lia|]. intros i Hi. apply (Hp (S i)). lia.
Qed.

Lemma wf_zip_vadd d (l1 l2 : list (list R)) :
  Forall (fun r => length r = d) l1 -> Forall (fun r => length r = d) l2 ->
  Forall (fun r => length r = d) (zip_with vadd l1 l2).
Proof.
  intros H1. revert l2. induction H1 as [|u l1 Hu _ IH]; intros l2 H2; simpl;
    [constructor|].
  destruct H2 as [|v l2 Hv H2]; constructor.
  - rewrite length_vadd. lia.
  - by apply IH.
Qed.

(** The Gram matrix of centred data annihilates the vector of ones: its
    columns sum to zero. *)
Lemma covariance_col_sums (Xc C : ndarray R) :
  wf Xc -> (forall j, Rsum (col Xc j) = 0) ->
  covariance true Xc = Ok C ->
  wf C /\ nrows C = nrows Xc /\ ncols C = nrows Xc /\
  forall k, Rsum (col C k) = 0.
Proof.
  intros Hwf Hz HC. unfold covariance in HC.
  destruct (np_dot Xc (np_T Xc)) as [P|] eqn:HP; [|discriminate].
  simpl in HC. injection HC as <-.
  pose proof (np_dot_shape _ _ _ HP) as [HnP HdP]. rewrite ncols_np_T in HdP.
  assert (HwfP : wf P) by (eapply wf_np_dot; [apply wf_np_T|exact HP]).
  set (a := IZR (Z.of_nat (nrows Xc) - 1)) in *.
  set (G := mdivs P a).
  assert (HwfG : wf G) by (by apply wf_mdivs).
  assert (HnG : nrows G = nrows Xc) by (unfold G; by rewrite nrows_mdivs).
  assert (HdG : ncols G = nrows Xc) by done.
  assert (H2 : Forall2 (fun u v => length u = length v) (rows G) (rows (np_T G))).
  { apply (Forall2_same_length _ _ _ [] []).
    - change (nrows G = nrows (np_T G)). rewrite nrows_np_T. congruence.
    - intros i Hi. change (i < nrows G)%nat in Hi.
      assert (Hl1 : length (nth i (rows G) []) = ncols G).
      { unfold wf in HwfG. rewrite Forall_forall in HwfG.
        apply HwfG, list_elem_of_In, nth_In. exact Hi. }
      assert (Hl2 : length (nth i (rows (np_T G)) []) = ncols (np_T G)).
      { pose proof (wf_np_T G) as HwfT. unfold wf in HwfT.
        rewrite Forall_forall in HwfT.
        apply HwfT, list_elem_of_In, nth_In.
        change (i < nrows (np_T G))%nat. rewrite nrows_np_T. congruence. }
      rewrite Hl1, Hl2, ncols_np_T. congruence. }
  split; [|split; [|split]].
  - apply wf_mdivs. unfold wf, madd. simpl. apply wf_zip_vadd.
    + exact HwfG.
    + pose proof (wf_np_T G) as HwfT. unfold wf in HwfT.
      rewrite ncols_np_T, HnG in HwfT. rewrite <- HdP in HwfT. exact HwfT.
  - rewrite nrows_mdivs, nrows_madd, nrows_np_T. lia.
  - done.
  - intros k. rewrite col_sum_mdivs, col_sum_madd by done.
    unfold G at 1. rewrite col_sum_mdivs.
    rewrite (np_dot_zero_col_sums _ _ _ HP Hwf (wf_np_T Xc) Hz).
    rewrite (col_sums_np_T_zero G HwfG).
    + lra.
    + apply row_sums_mdivs.
      apply (np_dot_zero_row_sums _ _ _ HP (wf_np_T Xc)).
      by apply rows_np_T_sums.
Qed.

Lemma Rsum_col_imap_zero (g : nat -> R -> list R) (l : list R) :
  (forall i x, entry 0 (g i x) = 0) -> Rsum (map (entry 0) (imap g l)) = 0.
Proof.
  revert g. induction l as [|x l IH]; intros g Hg; simpl; [done|].
  rewrite Hg, IH; [lra|]. intros i y. apply Hg.
Qed.

(** The first column of the identity sums to one. *)
Lemma col_sum_eye n : n <> 0%nat -> Rsum (col (np_eye n) 0) = 1.
Proof.
  destruct n as [|n]; [done|]. intros _.
  unfold np_eye, np_diag, col. simpl.
  rewrite Rsum_col_imap_zero; [lra|].
  intros i x. unfold entry. simpl. done.
Qed.

Lemma col_sum_mul_cols (V : ndarray R) (w : list R) k :
  wf V -> length w = ncols V ->
  Rsum (col (mul_cols V w) k) = entry k w * Rsum (col V k).
Proof.
  intros Hwf Hw. unfold col, mul_cols. simpl. rewrite map_map.
  rewrite (Rsum_map_ext _ (fun r => entry k w * entry k r)).
  - by rewrite Rsum_map_scale.
  - intros r Hr. change (entry k (vmul r w) = entry k w * entry k r).
    rewrite entry_vmul; [lra|].
    unfold wf in Hwf. rewrite Forall_forall in Hwf.
    rewrite (Hwf r) by (by apply list_elem_of_In). done.
Qed.

(** A matrix whose columns sum to zero has [0] among its eigenvalues. *)
Lemma singular_has_zero_eigenvalue (C : ndarray R) (w : list R) (V : ndarray R) :
  wf C -> nrows C <> 0%nat -> ncols C = nrows C ->
  (forall k, Rsum (col C k) = 0) ->
  eigendecomposition C w V ->
  Exists (fun x => x = 0) w.
Proof.
  intros HwfC Hn Hsq Hz ((Hlen & HnV & HdV & HwfV) & Heig & Horth).
  destruct (decide (Exists (fun x => x = 0) w)) as [He|Hne]; [done|exfalso].
  assert (Hall : forall k, (k < nrows C)%nat -> Rsum (col V k) = 0).
  { intros k Hk.
    pose proof (col_sum_np_dot C V _ k Heig HwfC HwfV) as E.
    rewrite col_sum_mul_cols in E by (done || congruence).
    rewrite dotp_zero_l in E
      by (apply Forall_map, Forall_forall; intros j _; apply Hz).
    destruct (Req_dec_T (entry k w) 0) as [E0|E0].
    - exfalso. apply Hne, Exists_exists. exists (entry k w). split; [|done].
      apply list_elem_of_In, nth_In. lia.
    - nra. }
  pose proof (col_sum_np_dot V (np_T V) _ 0 Horth HwfV (wf_np_T V)) as E.
  rewrite col_sum_eye in E by done.
  rewrite dotp_zero_l in E; [lra|].
  apply Forall_map, Forall_forall. intros j Hj.
  apply list_elem_of_In, in_seq in Hj. apply Hall. lia.
Qed.

Lemma filter_length_lt {T} (p : T -> bool) (l : list T) :
  Exists (fun x => p x = false) l -> (length (List.filter p l) < length l)%nat.
Proof.
  induction 1 as [x l Hx|x l _ IH]; simpl.
  - rewrite Hx. pose proof (filter_length_le p l). lia.
  - destruct (p x); simpl; lia.
Qed.

Lemma pos_eigenvalues_length (ws : list R) limit :
  (length (pos_eigenvalues ws limit) <= length ws)%nat.
Proof.
  unfold pos_eigenvalues.
  etrans; [apply filter_length_le|apply filter_length_le].
Qed.

Lemma pos_eigenvalues_length_lt (ws : list R) limit :
  Exists (fun x => x = 0) ws ->
  (length (pos_eigenvalues ws limit) < length ws)%nat.
Proof.
  intros He. unfold pos_eigenvalues.
  eapply Nat.le_lt_trans; [apply filter_length_le|].
  apply filter_length_lt. eapply Exists_impl; [exact He|].
  intros x ->. unfold f_gtb. simpl. apply Rltb_false. lra.
Qed.

End Singular.

(* ================================================================== *)
(** ** The number of components *)

Section Components.
Open Scope R_scope.

Lemma eigh_pair_correct : eigh_correct eigh_pair.
Proof.
  intros C w V HE. split; [by apply eigh_pair_shapes|].
  unfold eigh_pair in HE. destruct (decide _) as [->|]; [|discriminate].
  injection HE as <- <-.
  assert (Hs : / R_sqrt.sqrt 2 * / R_sqrt.sqrt 2 = / 2).
  { rewrite <- Rinv_mult, sqrt_sqrt by lra. done. }
  split; R_compute; repeat (f_equal; try lra).
Qed.

(** C8 (as amended). [pca] returns as many rows in [U] as eigenvalues in
    [l], at most [min(n_samples, n_dims)] of them; with [centre=True], at
    least two samples, and [eigh] returning an orthogonal
    eigendecomposition, at most [min(n_samples - 1, n_dims)]. *)
Theorem pca_number_of_components
    (eigh : ndarray R -> option (list R * ndarray R))
    (σ : heap R) (x : nat) (X : ndarray R) (centre inplace : bool) (eps : R)
    (rU rl rm : ref) (σ' : heap R) (U : ndarray R) (l : list R) :
  eigh_shapes eigh -> wf X ->
  σ !! x = Some (A2 X) ->
  pca eigh (Whole x) centre inplace eps σ = (Ok (rU, rl, rm), σ') ->
  deref2 σ' rU = Ok U -> deref1 σ' rl = Ok l ->
  nrows U = length l /\
  (length l <= Nat.min (nrows X) (ncols X))%nat /\
  (centre = true -> (2 <= nrows X)%nat -> eigh_correct eigh ->
   (length l <= Nat.min (nrows X - 1) (ncols X))%nat).
Proof.
  intros Hsh Hwf Hx Hrun HU Hl.
  destruct (pca_returns eigh σ x X centre inplace eps _ _ _ _ Hx Hrun)
    as (U' & l' & m & Hv & HU' & Hl' & _).
  rewrite HU in HU'. injection HU' as <-.
  rewrite Hl in Hl'. injection Hl' as <-.
  apply pca_values_inv in Hv as (C & w & V0 & mx & HC & Hw & _ & -> & _ & HnU).
  destruct (covariance_ok (negb (ncols X <? nrows X)%nat)
              (sub_row X (pca_mean X centre))) as (C' & HC' & HnC & _).
  rewrite HC in HC'. injection HC' as <-.
  rewrite nrows_sub_row in HnC.
  destruct (Hsh _ _ _ Hw) as (Hlen & _).
  pose proof (pos_eigenvalues_length (eigenvalues_desc w) (f_mul mx eps)) as Hle.
  rewrite (Permutation_length (eigenvalues_desc_perm w)) in Hle.
  split; [done|].
  destruct (ncols X <? nrows X)%nat eqn:Hreg; simpl in *.
  - apply Nat.ltb_lt in Hreg. split; [lia|]. intros. lia.
  - apply Nat.ltb_ge in Hreg. split; [lia|].
    intros -> Hn Hcorrect. simpl in HC.
    assert (Hm : length (np_mean0 X) = ncols X) by (by apply length_np_mean0).
    destruct (covariance_col_sums (sub_row X (np_mean0 X)) C)
      as (HwfC & HnC' & HdC & Hz).
    { by apply wf_sub_row. }
    { intros j. apply col_sum_centred; [done|lia]. }
    { exact HC. }
    assert (He : Exists (fun x => x = 0) w).
    { apply (singular_has_zero_eigenvalue C w V0); try done.
      - lia.
      - congruence.
      - by apply Hcorrect. }
    rewrite <- (eigenvalues_desc_perm w) in He.
    pose proof (pos_eigenvalues_length_lt _ (f_mul mx eps) He) as Hlt.
    rewrite (Permutation_length (eigenvalues_desc_perm w)) in Hlt.
    simpl in Hlt. lia.
Qed.

Lemma pca_number_of_components_witness :
  (length [2] <= Nat.min (nrows X_pair - 1) (ncols X_pair))%nat.
Proof.
  destruct (pca_pair [A2 X_pair] 0 false (/ 2) eq_refl)
    as (rU & rl & rm & σ' & U & Hrun & Hl & HU).
  destruct (Rlt_dec (/ 2) 1) as [_|Hn]; [|exfalso; lra].
  destruct (pca_number_of_components eigh_pair [A2 X_pair] 0 X_pair true false
              (/ 2) rU rl rm σ' U [2] eigh_pair_shapes) as (_ & _ & Hc);
    [repeat constructor|reflexivity|exact Hrun|exact HU|exact Hl|].
  apply Hc; [reflexivity|unfold nrows; simpl; lia|apply eigh_pair_correct].
Defined.

End Components.

(* ================================================================== *)
(** ** The mean of an incremental update *)

Section BatchMean.
Open Scope R_scope.

(** The mean [ipca] returns, read off the value-level computation. *)
Lemma ipca_values_mean
    (qr : ndarray R -> option (ndarray R))
    (svd : ndarray R -> option (list R * ndarray R))
    (Bv Uv : ndarray R) (lv : list R) (n_a : Z) (m_av : list R) (f eps : R)
    (U : ndarray R) (l m : list R) :
  wf Bv -> length m_av = ncols Bv ->
  ipca_values qr svd Bv Uv lv n_a (Some m_av) f eps = Ok (U, l, m) ->
  m = if forallb (fun x => Reqb x 0) m_av then np_zeros (ncols Bv)
      else vadd (vscale (IZR n_a * f / (IZR n_a * f + IZR (Z.of_nat (nrows Bv)))) m_av)
                (vscale (IZR (Z.of_nat (nrows Bv))
                         / (IZR n_a * f + IZR (Z.of_nat (nrows Bv)))) (np_mean0 Bv)).
Proof.
  intros Hwf Hlen Hv.
  unfold ipca_values, ipca_centre, centred in Hv.
  change (@f_eqb R R_scalar) with Reqb in Hv. change (@f_zero R R_scalar) with 0 in Hv.
  destruct (forallb _ m_av).
  - simpl in Hv. destruct (ipca_update _ _ _ _ _ _ _ _) as [[U0 l0]|]; [|discriminate].
    simpl in Hv. by injection Hv as <- <- <-.
  - assert (Hmb : length (np_mean0 Bv) = ncols Bv) by (by apply length_np_mean0).
    rewrite (broadcast_same f_add) in Hv by (rewrite !length_vscale; congruence).
    rewrite (broadcast_same f_sub) in Hv by congruence.
    simpl in Hv. unfold np_vstack in Hv. simpl in Hv.
    rewrite decide_True in Hv.
    2:{ unfold vscale, vsub. rewrite length_map, length_zip_with. lia. }
    simpl in Hv.
    destruct (ipca_update _ _ _ _ _ _ _ _) as [[U0 l0]|]; [|discriminate].
    simpl in Hv. by injection Hv as <- <- <-.
Qed.

Lemma col_vstack (X Y Z : ndarray R) j :
  np_vstack X Y = Ok Z -> col Z j = col X j ++ col Y j.
Proof.
  unfold np_vstack. destruct (decide _); [|discriminate]. intros [= <-].
  unfold col. simpl. by rewrite map_app.
Qed.

Lemma wf_vstack (X Y Z : ndarray R) :
  wf X -> wf Y -> np_vstack X Y = Ok Z ->
  wf Z /\ ncols Z = ncols X /\ nrows Z = (nrows X + nrows Y)%nat.
Proof.
  unfold np_vstack. destruct (decide _) as [E|]; [|discriminate].
  intros HX HY [= <-]. unfold wf, nrows in *. simpl. split_and!; [|done|by rewrite length_app].
  apply Forall_app. split; [done|]. by rewrite E.
Qed.

Lemma entry_np_mean0 (X : ndarray R) j :
  wf X -> entry j (np_mean0 X) = Rsum (col X j) / IZR (Z.of_nat (nrows X)).
Proof. intros Hwf. unfold np_mean0. by rewrite entry_vdivs, entry_np_sum0. Qed.

(** With all samples weighted equally, the weighted mean of the means of
    the two parts is the mean of the whole. *)
Lemma combined_mean_is_batch_mean (X1 X2 X12 : ndarray R) :
  wf X1 -> wf X2 -> nrows X1 <> 0%nat -> nrows X2 <> 0%nat ->
  np_vstack X1 X2 = Ok X12 ->
  let n1 := Z.of_nat (nrows X1) in
  let n2 := Z.of_nat (nrows X2) in
  vadd (vscale (IZR n1 * 1 / (IZR n1 * 1 + IZR n2)) (np_mean0 X1))
       (vscale (IZR n2 / (IZR n1 * 1 + IZR n2)) (np_mean0 X2))
  = np_mean0 X12.
Proof.
  intros H1 H2 Hn1 Hn2 Hst n1 n2.
  destruct (wf_vstack _ _ _ H1 H2 Hst) as (H12 & Hd12 & Hn12).
  assert (Hd : ncols X1 = ncols X2).
  { unfold np_vstack in Hst. by destruct (decide _). }
  assert (L1 : length (np_mean0 X1) = ncols X1) by (by apply length_np_mean0).
  assert (L2 : length (np_mean0 X2) = ncols X2) by (by apply length_np_mean0).
  assert (L12 : length (np_mean0 X12) = ncols X12) by (by apply length_np_mean0).
  assert (P1 : 0 < IZR n1) by (apply IZR_lt; unfold n1; lia).
  assert (P2 : 0 < IZR n2) by (apply IZR_lt; unfold n2; lia).
  apply entry_ext.
  - unfold vadd. rewrite length_zip_with, !length_vscale. lia.
  - intros j _.
    rewrite entry_vadd by (rewrite !length_vscale; congruence).
    rewrite !entry_vscale, !entry_np_mean0 by done.
    rewrite (col_vstack _ _ _ j Hst), Rsum_app, Hn12, Nat2Z.inj_add, plus_IZR.
    fold n1 n2. field. lra.
Qed.

End BatchMean.

Ltac R_decide :=
  repeat (R_compute;
    match goal with
    | |- context [Rltb (R_sqrt.sqrt ?a) (R_sqrt.sqrt ?b)] =>
        rewrite (Rltb_false (R_sqrt.sqrt a) (R_sqrt.sqrt b))
          by (replace b with 0%R by ring; rewrite sqrt_0;
              pose proof (sqrt_pos a); lra)
    | |- context [Rabs ?a] =>
        first [rewrite (Rabs_pos_eq a) by lra | rewrite (Rabs_left1 a) by lra]
    | |- context [Rltb ?a ?b] =>
        first [rewrite (Rltb_true a b) by lra | rewrite (Rltb_false a b) by lra]
    | |- context [Reqb ?a ?b] =>
        first [rewrite (Reqb_true a b) by lra | rewrite (Reqb_false a b) by lra]
    end).

Section BatchMeanExample.
Open Scope R_scope.

Lemma ipca_values_Y_new :
  exists U l m,
    ipca_values qr_thin svd_orthogonal_columns Y_new (Mat 1 [[1]]) [2] 2
      (Some [2]) 1 (/ 2) = Ok (U, l, m).
Proof. do 3 eexists. R_decide. reflexivity. Qed.

End BatchMeanExample.

(* ================================================================== *)
(** ** Finite sums and matrix entries *)

Section Sums.
Open Scope R_scope.

Lemma sumn_0 f : sumn 0 f = 0.
Proof. done. Qed.

Lemma sumn_S n f : sumn (S n) f = sumn n f + f n.
Proof.
  unfold sumn. rewrite seq_S, map_app. simpl.
  assert (E : forall u v, Rsum (u ++ v) = Rsum u + Rsum v).
  { intros u v. unfold Rsum. induction u as [|a u IH]; simpl; [lra|]. rewrite IH. lra. }
  rewrite E. unfold Rsum. simpl. lra.
Qed.

Lemma sumn_S_l n f : sumn (S n) f = f 0%nat + sumn n (fun i => f (S i)).
Proof. unfold sumn. simpl. by rewrite <- seq_shift, map_map. Qed.

Lemma sumn_ext n f g :
  (forall i, (i < n)%nat -> f i = g i) -> sumn n f = sumn n g.
Proof.
  induction n as [|n IH]; intros E; [done|].
  rewrite !sumn_S, IH, E; auto.
Qed.

Lemma sumn_zero n f : (forall i, (i < n)%nat -> f i = 0) -> sumn n f = 0.
Proof.
  induction n as [|n IH]; intros E; [done|].
  rewrite sumn_S, IH, E; auto. lra.
Qed.

Lemma sumn_plus n f g :
  sumn n (fun i => f i + g i) = sumn n f + sumn n g.
Proof. induction n as [|n IH]; [rewrite !sumn_0; lra|]. rewrite !sumn_S, IH. lra. Qed.

Lemma sumn_minus n f g :
  sumn n (fun i => f i - g i) = sumn n f - sumn n g.
Proof. induction n as [|n IH]; [rewrite !sumn_0; lra|]. rewrite !sumn_S, IH. lra. Qed.

Lemma sumn_scale n c f : sumn n (fun i => c * f i) = c * sumn n f.
Proof. induction n as [|n IH]; [rewrite !sumn_0; lra|]. rewrite !sumn_S, IH. lra. Qed.

Lemma sumn_scale_r n c f : sumn n (fun i => f i * c) = sumn n f * c.
Proof. induction n as [|n IH]; [rewrite !sumn_0; lra|]. rewrite !sumn_S, IH. lra. Qed.

Lemma sumn_swap n m (f : nat -> nat -> R) :
  sumn n (fun i => sumn m (fun j => f i j))
  = sumn m (fun j => sumn n (fun i => f i j)).
Proof.
  induction n as [|n IH].
  - rewrite sumn_0. symmetry. by apply sumn_zero.
  - rewrite sumn_S, IH, <- sumn_plus. apply sumn_ext. intros j _. by rewrite sumn_S.
Qed.

Lemma sumn_split a b f :
  sumn (a + b) f = sumn a f + sumn b (fun i => f (a + i)%nat).
Proof.
  induction b as [|b IH].
  - rewrite Nat.add_0_r, sumn_0. lra.
  - rewrite Nat.add_succ_r, !sumn_S, IH. lra.
Qed.

Lemma sumn_delta n j g :
  (j < n)%nat -> sumn n (fun i => if (i =? j)%nat then g i else 0) = g j.
Proof.
  induction n as [|n IH]; intros Hj; [lia|].
  rewrite sumn_S. destruct (decide (j = n)) as [->|Hne].
  - rewrite Nat.eqb_refl, sumn_zero; [lra|].
    intros i Hi. destruct (Nat.eqb_spec i n); [lia|done].
  - rewrite IH by lia. destruct (Nat.eqb_spec n j); [lia|lra].
Qed.

Lemma sumn_le_ext n m f :
  (n <= m)%nat -> (forall i, (n <= i < m)%nat -> f i = 0) -> sumn m f = sumn n f.
Proof.
  intros Hle E. replace m with (n + (m - n))%nat by lia.
  rewrite sumn_split, (sumn_zero (m - n)); [lra|].
  intros i Hi. apply E. lia.
Qed.

Lemma Rsum_sumn v : Rsum v = sumn (length v) (fun i => entry i v).
Proof.
  induction v as [|a v IH]; [done|].
  cbn [length]. rewrite sumn_S_l. unfold entry at 1. simpl.
  rewrite IH. done.
Qed.

Lemma dotp_sumn a b :
  dotp a b = sumn (length a) (fun i => entry i a * entry i b).
Proof.
  unfold dotp. revert b. induction a as [|x a IH]; intros b; [done|].
  cbn [length]. rewrite sumn_S_l. destruct b as [|y b]; simpl.
  - unfold entry. simpl. rewrite sumn_zero; [lra|].
    intros i _. destruct i; simpl; lra.
  - unfold Rsum in *. simpl. rewrite IH. unfold entry. simpl. done.
Qed.

End Sums.

Section Entries.
Open Scope R_scope.

Lemma entry_lookup j (v : list R) : entry j v = default 0 (v !! j).
Proof. unfold entry. by rewrite nth_lookup. Qed.

Lemma cell_lookup (X : ndarray R) i j :
  cell X i j = default 0 (r ← rows X !! i; r !! j).
Proof.
  unfold cell. rewrite entry_lookup, nth_lookup.
  by destruct (rows X !! i).
Qed.

Lemma cell_row_ge (X : ndarray R) i j : (nrows X <= i)%nat -> cell X i j = 0.
Proof.
  intros Hi. rewrite cell_lookup, lookup_ge_None_2; [done|]. exact Hi.
Qed.

Lemma cell_col_ge (X : ndarray R) i j : wf X -> (ncols X <= j)%nat -> cell X i j = 0.
Proof.
  intros Hwf Hj. rewrite cell_lookup.
  destruct (rows X !! i) as [r|] eqn:E; [|done]. simpl.
  unfold wf in Hwf. rewrite Forall_forall in Hwf.
  rewrite lookup_ge_None_2; [done|].
  rewrite (Hwf r); [done|]. eapply list_elem_of_lookup_2, E.
Qed.

Lemma cell_map (g : list R -> list R) d (X : ndarray R) i j :
  (i < nrows X)%nat ->
  cell (Mat d (map g (rows X))) i j = entry j (g (nth i (rows X) [])).
Proof.
  intros Hi. unfold cell. simpl.
  rewrite (nth_indep _ [] (g [])) by (by rewrite length_map).
  by rewrite map_nth.
Qed.

Lemma entry_col_cell (X : ndarray R) i j : entry i (col X j) = cell X i j.
Proof.
  unfold cell, col, entry.
  destruct (decide (i < nrows X)%nat) as [Hi|Hi].
  - rewrite (nth_indep _ 0 ((fun r => nth j r 0) [])) by (by rewrite length_map).
    by rewrite (map_nth (fun r => nth j r 0)).
  - unfold nrows in Hi.
    rewrite (nth_overflow (rows X)) by lia.
    rewrite nth_overflow by (rewrite length_map; lia). by destruct j.
Qed.

Lemma gram_sumn (X : ndarray R) j k :
  gram X j k = sumn (nrows X) (fun i => cell X i j * cell X i k).
Proof.
  unfold gram. rewrite dotp_sumn. unfold col at 1. rewrite length_map.
  apply sumn_ext. intros i _. by rewrite !entry_col_cell.
Qed.

Lemma cell_np_T (X : ndarray R) i j : wf X -> cell (np_T X) i j = cell X j i.
Proof.
  intros Hwf. destruct (decide (i < ncols X)%nat) as [Hi|Hi].
  - unfold cell at 1, np_T. simpl.
    rewrite (nth_indep _ [] (col X 0)) by (by rewrite length_map, length_seq).
    rewrite (map_nth (col X)), seq_nth by done. simpl. apply entry_col_cell.
  - rewrite cell_row_ge by (rewrite nrows_np_T; lia).
    symmetry. apply cell_col_ge; [done|lia].
Qed.

Lemma cell_np_dot (A B P : ndarray R) i k :
  wf A -> wf B -> np_dot A B = Ok P ->
  cell P i k = sumn (ncols A) (fun j => cell A i j * cell B j k).
Proof.
  intros HA HB HP.
  assert (Hd : ncols A = nrows B).
  { unfold np_dot in HP. by destruct (decide _). }
  apply rows_np_dot in HP as [Hr Hc].
  destruct (decide (i < nrows A)%nat) as [Hi|Hi].
  - unfold cell at 1. rewrite Hr.
    rewrite (nth_indep _ [] ((fun a => lincomb (ncols B) a (rows B)) []))
      by (by rewrite length_map).
    rewrite (map_nth (fun a => lincomb (ncols B) a (rows B))).
    destruct (lincomb_shape (ncols B) (nth i (rows A) []) (rows B) HB) as [_ ->].
    rewrite dotp_sumn.
    assert (Hlen : length (nth i (rows A) []) = ncols A).
    { unfold wf in HA. rewrite Forall_forall in HA. apply HA, list_elem_of_In, nth_In. exact Hi. }
    rewrite Hlen. apply sumn_ext. intros j _. f_equal.
    change (entry j (map (entry k) (rows B))) with (entry j (col B k)).
    apply entry_col_cell.
  - rewrite cell_row_ge.
    2:{ unfold nrows in *. rewrite Hr, length_map. lia. }
    symmetry. apply sumn_zero. intros j _. rewrite (cell_row_ge A) by lia. lra.
Qed.

End Entries.

(* ================================================================== *)
(** ** The scatter of a concatenation *)

Section Scatter.
Open Scope R_scope.

Lemma sumn_const n c : sumn n (fun _ => c) = IZR (Z.of_nat n) * c.
Proof.
  induction n as [|n IH]; [rewrite sumn_0; change (Z.of_nat 0) with 0%Z; lra|].
  rewrite sumn_S, IH, Nat2Z.inj_succ, succ_IZR. lra.
Qed.

Lemma colsum_sumn (X : ndarray R) j :
  Rsum (col X j) = sumn (nrows X) (fun i => cell X i j).
Proof.
  rewrite Rsum_sumn. unfold col at 1. rewrite length_map.
  apply sumn_ext. intros i _. apply entry_col_cell.
Qed.

Lemma cell_sub_row (X : ndarray R) m i j :
  wf X -> length m = ncols X -> (i < nrows X)%nat ->
  cell (sub_row X m) i j = cell X i j - entry j m.
Proof.
  intros Hwf Hm Hi. unfold sub_row. rewrite cell_map by done.
  rewrite entry_vsub; [done|].
  unfold wf in Hwf. rewrite Forall_forall in Hwf.
  rewrite Hm. apply Hwf, list_elem_of_In, nth_In. exact Hi.
Qed.

(** The scatter of data centred on [m], from the raw sums. *)
Lemma gram_sub_row (X : ndarray R) m j k :
  wf X -> length m = ncols X ->
  gram (sub_row X m) j k
  = gram X j k - entry k m * Rsum (col X j) - entry j m * Rsum (col X k)
    + IZR (Z.of_nat (nrows X)) * (entry j m * entry k m).
Proof.
  intros Hwf Hm. rewrite !gram_sumn, !colsum_sumn, nrows_sub_row.
  rewrite <- sumn_const, <- !sumn_scale, <- !sumn_minus, <- sumn_plus.
  apply sumn_ext. intros i Hi. rewrite !cell_sub_row by done. lra.
Qed.

Lemma cell_vstack (X Y Z : ndarray R) i j :
  np_vstack X Y = Ok Z ->
  cell Z i j = if (i <? nrows X)%nat then cell X i j else cell Y (i - nrows X) j.
Proof.
  unfold np_vstack. destruct (decide _); [|discriminate]. intros [= <-].
  unfold cell, nrows. simpl. destruct (Nat.ltb_spec i (length (rows X))).
  - by rewrite app_nth1.
  - by rewrite app_nth2.
Qed.

Lemma gram_vstack (X Y Z : ndarray R) j k :
  np_vstack X Y = Ok Z -> gram Z j k = gram X j k + gram Y j k.
Proof.
  intros HZ. rewrite !gram_sumn.
  assert (Hn : nrows Z = (nrows X + nrows Y)%nat).
  { unfold np_vstack in HZ. destruct (decide _); [|discriminate].
    injection HZ as <-. unfold nrows. simpl. by rewrite length_app. }
  rewrite Hn, sumn_split. f_equal; apply sumn_ext; intros i Hi;
    rewrite !(cell_vstack X Y Z) by done.
  - by destruct (Nat.ltb_spec i (nrows X)); [|lia].
  - destruct (Nat.ltb_spec (nrows X + i) (nrows X)); [lia|].
    by replace (nrows X + i - nrows X)%nat with i by lia.
Qed.

(** The scatter of a matrix extended by one row. *)
Lemma gram_snoc d (X : ndarray R) (r : list R) j k :
  gram (Mat d (rows X ++ [r])) j k = gram X j k + entry j r * entry k r.
Proof.
  rewrite !gram_sumn. unfold nrows. simpl.
  rewrite length_app, Nat.add_1_r, sumn_S. f_equal.
  - apply sumn_ext. intros i Hi. unfold cell. simpl. by rewrite app_nth1.
  - unfold cell. simpl. by rewrite app_nth2, Nat.sub_diag by lia.
Qed.

Lemma colsum_vstack (X Y Z : ndarray R) j :
  np_vstack X Y = Ok Z -> Rsum (col Z j) = Rsum (col X j) + Rsum (col Y j).
Proof. intros HZ. by rewrite (col_vstack X Y Z j HZ), Rsum_app. Qed.

(** The identity behind the correction row of [ipca]: the scatter of the
    whole, centred on its mean, is the scatter of the old part centred on
    its mean plus the scatter of the new part centred on its mean plus
    [n1 n2 / (n1 + n2)] times the outer product of the difference of the
    two means. *)
Lemma scatter_of_concatenation (X1 X2 X12 : ndarray R) j k :
  wf X1 -> wf X2 -> nrows X1 <> 0%nat -> nrows X2 <> 0%nat ->
  np_vstack X1 X2 = Ok X12 ->
  let n1 := IZR (Z.of_nat (nrows X1)) in
  let n2 := IZR (Z.of_nat (nrows X2)) in
  let m1 := np_mean0 X1 in
  let m2 := np_mean0 X2 in
  gram (sub_row X12 (np_mean0 X12)) j k
  = gram (sub_row X1 m1) j k + gram (sub_row X2 m2) j k
    + n1 * n2 / (n1 + n2) * ((entry j m2 - entry j m1) * (entry k m2 - entry k m1)).
Proof.
  intros H1 H2 Hn1 Hn2 Hst n1 n2 m1 m2.
  destruct (wf_vstack _ _ _ H1 H2 Hst) as (H12 & Hd12 & Hn12).
  assert (P1 : 0 < n1) by (apply IZR_lt; lia).
  assert (P2 : 0 < n2) by (apply IZR_lt; lia).
  rewrite !gram_sub_row by (done || by apply length_np_mean0).
  unfold m1, m2. rewrite !entry_np_mean0 by done.
  rewrite (gram_vstack X1 X2 X12 j k Hst), !(colsum_vstack X1 X2 X12 _ Hst).
  rewrite Hn12, Nat2Z.inj_add, plus_IZR. fold n1 n2.
  field. lra.
Qed.

End Scatter.

(* ================================================================== *)
(** ** Entries of block matrices *)

Section Blocks.
Open Scope R_scope.

Lemma wf_row (X : ndarray R) i :
  wf X -> (i < nrows X)%nat -> length (nth i (rows X) []) = ncols X.
Proof.
  intros Hwf Hi. unfold wf in Hwf. rewrite Forall_forall in Hwf.
  apply Hwf, list_elem_of_In, nth_In. exact Hi.
Qed.

Lemma entry_app (u v : list R) j :
  entry j (u ++ v) = if (j <? length u)%nat then entry j u else entry (j - length u) v.
Proof.
  unfold entry. destruct (Nat.ltb_spec j (length u)).
  - by rewrite app_nth1.
  - by rewrite app_nth2.
Qed.

Lemma nth_zip_with {T} (g : T -> T -> T) (l1 l2 : list T) d i :
  length l1 = length l2 -> (i < length l1)%nat ->
  nth i (zip_with g l1 l2) d = g (nth i l1 d) (nth i l2 d).
Proof.
  revert l2 i. induction l1 as [|a l1 IH]; intros [|b l2] i Hlen Hi;
    simpl in *; try lia.
  destruct i; [done|]. apply IH; lia.
Qed.

Lemma cell_hstack (X Y Z : ndarray R) i j :
  wf X -> np_hstack X Y = Ok Z ->
  cell Z i j = if (j <? ncols X)%nat then cell X i j else cell Y i (j - ncols X).
Proof.
  intros HX. unfold np_hstack. destruct (decide _) as [Hn|]; [|discriminate].
  intros [= <-]. unfold cell. simpl. unfold nrows in Hn.
  destruct (decide (i < length (rows X))%nat) as [Hi|Hi].
  - rewrite (nth_zip_with app) by done.
    rewrite entry_app, (wf_row X i HX Hi). done.
  - rewrite !nth_overflow by (rewrite ?length_zip_with; lia).
    destruct (_ <? _)%nat; unfold entry; by rewrite !nth_overflow by (simpl; lia).
Qed.

Lemma cell_mscale a (X : ndarray R) i j : cell (mscale a X) i j = a * cell X i j.
Proof.
  destruct (decide (i < nrows X)%nat) as [Hi|Hi].
  - unfold mscale. rewrite cell_map by done. by rewrite entry_vscale.
  - rewrite !cell_row_ge; [lra|lia|unfold nrows, mscale in *; simpl; rewrite length_map; lia].
Qed.

Lemma cell_msub (X Y : ndarray R) i j :
  wf X -> wf Y -> nrows X = nrows Y -> ncols X = ncols Y ->
  cell (msub X Y) i j = cell X i j - cell Y i j.
Proof.
  intros HX HY Hn Hd. destruct (decide (i < nrows X)%nat) as [Hi|Hi].
  - unfold cell, msub. simpl. rewrite (nth_zip_with vsub) by done.
    apply entry_vsub. rewrite !wf_row; (done || lia).
  - rewrite !cell_row_ge; [lra|lia|lia|].
    unfold nrows, msub in *. simpl. rewrite length_zip_with. lia.
Qed.

Lemma cell_np_zeros2 n d i j : cell (np_zeros2 n d) i j = 0.
Proof.
  unfold cell, np_zeros2. simpl.
  destruct (decide (i < n)%nat) as [Hi|Hi].
  - rewrite nth_repeat_lt by done. apply entry_zeros.
  - rewrite nth_overflow by (rewrite repeat_length; lia). by destruct j.
Qed.

Lemma cell_np_diag (s : list R) i j :
  cell (np_diag s) i j = if (i =? j)%nat then entry i s else 0.
Proof.
  rewrite cell_lookup. unfold np_diag. simpl. rewrite list_lookup_imap.
  rewrite entry_lookup. destruct (s !! i) as [x|] eqn:E; simpl.
  - assert (Hi : (i < length s)%nat) by (by eapply lookup_lt_Some).
    destruct (Nat.eqb_spec i j) as [<-|Hne].
    + rewrite list_lookup_insert_eq; [done|]. by rewrite length_np_zeros.
    + rewrite list_lookup_insert_ne by done.
      rewrite <- entry_lookup. apply entry_zeros.
  - by destruct (i =? j)%nat.
Qed.

Lemma wf_mscale a (X : ndarray R) : wf X -> wf (mscale a X).
Proof.
  intros Hwf. unfold wf, mscale. simpl. apply Forall_map.
  eapply Forall_impl; [exact Hwf|]. intros r Hr. simpl in *.
  by rewrite length_vscale.
Qed.

Lemma wf_msub (X Y : ndarray R) :
  wf X -> wf Y -> ncols X = ncols Y -> wf (msub X Y).
Proof.
  intros HX HY Hd. unfold wf, msub in *. simpl.
  revert HY. generalize (rows Y). induction HX as [|u l1 Hu _ IH]; intros l2 H2;
    simpl; [constructor|].
  destruct H2 as [|v l2 Hv H2]; constructor.
  - unfold vsub. rewrite length_zip_with. lia.
  - by apply IH.
Qed.

Lemma wf_np_diag (s : list R) : wf (np_diag s).
Proof.
  unfold wf, np_diag. simpl. apply Forall_forall. intros r Hr.
  apply list_elem_of_lookup in Hr as [i Hi]. rewrite list_lookup_imap in Hi.
  destruct (s !! i); [|done]. injection Hi as <-.
  by rewrite length_insert, length_np_zeros.
Qed.

Lemma wf_np_zeros2 n d : wf (np_zeros2 (F:=R) n d).
Proof.
  unfold wf, np_zeros2. simpl. apply Forall_forall. intros r Hr.
  apply list_elem_of_In, repeat_spec in Hr as ->. apply length_np_zeros.
Qed.

Lemma wf_hstack (X Y Z : ndarray R) :
  wf X -> wf Y -> np_hstack X Y = Ok Z ->
  wf Z /\ nrows Z = nrows X /\ ncols Z = (ncols X + ncols Y)%nat.
Proof.
  intros HX HY. unfold np_hstack. destruct (decide _) as [Hn|]; [|discriminate].
  intros [= <-]. unfold nrows in *. simpl. split_and!; [|rewrite length_zip_with; lia|done].
  unfold wf in *. simpl. revert HY Hn. generalize (rows Y).
  induction HX as [|u l1 Hu _ IH]; intros l2 H2 Hn; simpl; [constructor|].
  destruct H2 as [|v l2 Hv H2]; [discriminate|]. constructor.
  - rewrite length_app. lia.
  - apply IH; [done|]. simpl in Hn. lia.
Qed.

End Blocks.

(* ================================================================== *)
(** ** The subspace update *)

Section Update.
Open Scope R_scope.

Lemma sumn_mul n m f g :
  sumn n f * sumn m g = sumn n (fun i => sumn m (fun j => f i * g j)).
Proof.
  rewrite <- sumn_scale_r. apply sumn_ext. intros i _. by rewrite sumn_scale.
Qed.

Lemma quad_transport K m (s : nat -> R) (V : nat -> nat -> R) (w1 w2 : nat -> R)
    (G : nat -> nat -> R) :
  (forall c c', (c < m)%nat -> (c' < m)%nat ->
     G c c' = sumn K (fun t => s t * (V t c * V t c'))) ->
  sumn K (fun t => s t * (sumn m (fun c => V t c * w1 c)
                          * sumn m (fun c => V t c * w2 c)))
  = sumn m (fun c => sumn m (fun c' => G c c' * (w1 c * w2 c'))).
Proof.
  intros HG.
  transitivity (sumn K (fun t => sumn m (fun c => sumn m (fun c' =>
                  s t * (V t c * V t c') * (w1 c * w2 c'))))).
  { apply sumn_ext. intros t _. rewrite sumn_mul, <- sumn_scale.
    apply sumn_ext. intros c _. rewrite <- sumn_scale.
    apply sumn_ext. intros c' _. lra. }
  rewrite sumn_swap. apply sumn_ext. intros c Hc.
  rewrite sumn_swap. apply sumn_ext. intros c' Hc'.
  rewrite HG by done. by rewrite sumn_scale_r.
Qed.

Lemma gram_quad n m (Mx : nat -> nat -> R) (w1 w2 : nat -> R) :
  sumn m (fun c => sumn m (fun c' =>
    sumn n (fun i => Mx i c * Mx i c') * (w1 c * w2 c')))
  = sumn n (fun i => sumn m (fun c => Mx i c * w1 c)
                     * sumn m (fun c => Mx i c * w2 c)).
Proof.
  transitivity (sumn n (fun i => sumn m (fun c => sumn m (fun c' =>
                  Mx i c * Mx i c' * (w1 c * w2 c'))))).
  { symmetry. rewrite sumn_swap. apply sumn_ext. intros c _.
    rewrite sumn_swap. apply sumn_ext. intros c' _. by rewrite sumn_scale_r. }
  apply sumn_ext. intros i _. rewrite sumn_mul.
  apply sumn_ext. intros c _. apply sumn_ext. intros c' _. lra.
Qed.

(** The rows of the merge matrix times the stacked basis: the prior
    singular values times the prior eigenvectors, then the data. *)
Lemma merge_times_basis (B U_a : ndarray R) (s_a : list R)
    (BUt PB Q M W : ndarray R) i j :
  wf B -> wf U_a -> length s_a = nrows U_a ->
  project_out B U_a = Ok (BUt, PB) ->
  qr_spans (np_T PB) Q ->
  form_R 1 s_a BUt PB (np_T Q) = Ok M ->
  np_vstack U_a (np_T Q) = Ok W ->
  (i < nrows U_a + nrows B)%nat ->
  sumn (nrows U_a + ncols Q) (fun c => cell M i c * cell W c j)
  = if (i <? nrows U_a)%nat then entry i s_a * cell U_a i j
    else cell B (i - nrows U_a) j.
Proof.
  intros HB HU Hs Hproj (HQ & HnQ & Hspan) HM HW Hi.
  unfold project_out in Hproj.
  destruct (np_dot B (np_T U_a)) as [BUt'|] eqn:E1; [|discriminate]. simpl in Hproj.
  destruct (np_dot BUt' U_a) as [P|] eqn:E2; [|discriminate]. simpl in Hproj.
  injection Hproj as -> <-.
  assert (HBUt : wf BUt) by (eapply wf_np_dot; [apply wf_np_T|exact E1]).
  assert (HP : wf P) by (eapply wf_np_dot; [exact HU|exact E2]).
  destruct (np_dot_shape _ _ _ E1) as [n1 d1].
  destruct (np_dot_shape _ _ _ E2) as [n2 d2].
  rewrite ncols_np_T in d1.
  assert (Hd : ncols B = ncols U_a).
  { unfold np_dot in E1. destruct (decide _) as [e|]; [|discriminate].
    by rewrite nrows_np_T in e. }
  assert (HPB : wf (msub B P)) by (apply wf_msub; [done..|congruence]).
  assert (HnPB : nrows (msub B P) = nrows B).
  { unfold nrows, msub in *. simpl. rewrite length_zip_with. lia. }
  rewrite nrows_np_T, ncols_np_T in Hspan. rewrite nrows_np_T in HnQ.
  change (ncols (msub B P)) with (ncols B) in *.
  unfold form_R in HM.
  destruct (np_vstack (mscale 1 (np_diag s_a)) BUt) as [left|] eqn:E3; [|discriminate].
  simpl in HM.
  destruct (np_dot (msub B P) (np_T (np_T Q))) as [PBBt|] eqn:E4; [|discriminate].
  simpl in HM.
  destruct (np_vstack (np_zeros2 _ _) PBBt) as [right|] eqn:E5; [|discriminate].
  simpl in HM.
  assert (HnS : nrows (np_diag s_a) = nrows U_a).
  { unfold nrows, np_diag in *. simpl. by rewrite length_imap. }
  assert (Hleft : wf left /\ ncols left = nrows U_a).
  { destruct (wf_vstack _ _ _ (wf_mscale 1 _ (wf_np_diag s_a)) HBUt E3) as (? & -> & _).
    split; [done|]. simpl. congruence. }
  destruct Hleft as [Hleft Hcl].
  rewrite sumn_split.
  assert (EM1 : forall c, (c < nrows U_a)%nat ->
    cell M i c = if (i <? nrows U_a)%nat
                then (if (i =? c)%nat then entry i s_a else 0)
                else cell BUt (i - nrows U_a) c).
  { intros c Hc. rewrite (cell_hstack left right M i c Hleft HM), Hcl.
    destruct (Nat.ltb_spec c (nrows U_a)); [|lia].
    rewrite (cell_vstack _ _ _ i c E3).
    change (nrows (mscale 1 (np_diag s_a))) with (length (map (vscale 1) (rows (np_diag s_a)))).
    rewrite length_map. fold (nrows (np_diag s_a)). rewrite HnS.
    destruct (i <? nrows U_a)%nat; [|done].
    rewrite cell_mscale, cell_np_diag. lra. }
  assert (EM2 : forall c,
    cell M i (nrows U_a + c) = if (i <? nrows U_a)%nat then 0
                              else cell PBBt (i - nrows U_a) c).
  { intros c. rewrite (cell_hstack left right M i _ Hleft HM), Hcl.
    destruct (Nat.ltb_spec (nrows U_a + c) (nrows U_a)); [lia|].
    replace (nrows U_a + c - nrows U_a)%nat with c by lia.
    rewrite (cell_vstack _ _ _ i c E5).
    replace (nrows (np_zeros2 (nrows (np_diag s_a)) (nrows (np_T Q))))
      with (nrows U_a)
      by (unfold nrows at 2, np_zeros2; simpl; by rewrite repeat_length).
    destruct (i <? nrows U_a)%nat; [|done]. apply cell_np_zeros2. }
  assert (EW1 : forall c, (c < nrows U_a)%nat -> cell W c j = cell U_a c j).
  { intros c Hc. rewrite (cell_vstack _ _ _ c j HW).
    by destruct (Nat.ltb_spec c (nrows U_a)); [|lia]. }
  assert (EW2 : forall c, cell W (nrows U_a + c) j = cell Q j c).
  { intros c. rewrite (cell_vstack _ _ _ _ j HW).
    destruct (Nat.ltb_spec (nrows U_a + c) (nrows U_a)); [lia|].
    replace (nrows U_a + c - nrows U_a)%nat with c by lia.
    by apply cell_np_T. }
  rewrite (sumn_ext (nrows U_a) _ (fun c =>
    (if (i <? nrows U_a)%nat then (if (i =? c)%nat then entry i s_a else 0)
     else cell BUt (i - nrows U_a) c) * cell U_a c j)).
  2:{ intros c Hc. by rewrite EM1, EW1. }
  rewrite (sumn_ext (ncols Q) _ (fun c =>
    (if (i <? nrows U_a)%nat then 0 else cell PBBt (i - nrows U_a) c) * cell Q j c)).
  2:{ intros c Hc. by rewrite EM2, EW2. }
  destruct (Nat.ltb_spec i (nrows U_a)) as [Hlt|Hge].
  - rewrite (sumn_zero (ncols Q)) by (intros; lra).
    rewrite (sumn_ext _ _ (fun c => if (c =? i)%nat
                                    then entry i s_a * cell U_a c j else 0)).
    2:{ intros c _. rewrite Nat.eqb_sym. destruct (c =? i)%nat; lra. }
    rewrite (sumn_delta _ i (fun c => entry i s_a * cell U_a c j)) by done. lra.
  - set (i' := (i - nrows U_a)%nat). assert (Hi' : (i' < nrows B)%nat) by lia.
    assert (EP : cell P i' j = sumn (nrows U_a) (fun c => cell BUt i' c * cell U_a c j)).
    { rewrite (cell_np_dot BUt U_a P i' j HBUt HU E2). by rewrite d1. }
    rewrite <- EP.
    assert (EPB : forall r, cell (msub B P) i' r = cell B i' r - cell P i' r).
    { intros r. apply cell_msub; (done || congruence). }
    assert (EPBBt : forall c, cell PBBt i' c
              = sumn (ncols B) (fun r => cell Q r c * cell (np_T (msub B P)) r i')).
    { intros c. rewrite (cell_np_dot _ _ PBBt i' c HPB (wf_np_T _) E4).
      apply sumn_ext. intros r _.
      rewrite (cell_np_T (np_T Q)) by apply wf_np_T.
      rewrite (cell_np_T Q) by done. rewrite (cell_np_T (msub B P)) by done. lra. }
    destruct (decide (j < ncols B)%nat) as [Hj|Hj].
    + assert (Hsp := Hspan j i' Hj ltac:(lia)).
      rewrite (cell_np_T (msub B P)) in Hsp by done.
      rewrite EPB in Hsp.
      rewrite (sumn_ext (ncols Q) _ (fun c => cell Q j c *
                 sumn (ncols B) (fun r => cell Q r c * cell (np_T (msub B P)) r i'))).
      2:{ intros c _. rewrite EPBBt. lra. }
      rewrite <- Hsp. lra.
    + rewrite (sumn_zero (ncols Q)).
      2:{ intros c _. rewrite (cell_row_ge Q j c) by lia. lra. }
      rewrite (cell_col_ge B) by (done || lia).
      rewrite (cell_col_ge P) by (done || lia). lra.
Qed.

(** The subspace update of [ipca], in exact arithmetic with exact QR and
    SVD answers: the squared singular values and the rows of
    [Vt_tilde.dot(vstack(U_a, B_tilde))], before any filtering, decompose
    the scatter [U_a.T diag(s_a^2) U_a + B.T B]. *)
Lemma update_scatter
    (qr : ndarray R -> option (ndarray R))
    (svd : ndarray R -> option (list R * ndarray R))
    (B U_a : ndarray R) (s_a : list R) (n eps : R)
    (BUt PB Q M : ndarray R) (s : list R) (Vt U' : ndarray R) (l' : list R) :
  wf B -> wf U_a -> length s_a = nrows U_a ->
  project_out B U_a = Ok (BUt, PB) ->
  qr (np_T PB) = Some Q -> qr_spans (np_T PB) Q ->
  form_R 1 s_a BUt PB (np_T Q) = Ok M ->
  svd M = Some (s, Vt) -> svd_gram M s Vt ->
  ipca_update qr svd B U_a s_a n 1 eps = Ok (U', l') ->
  exists W VtS,
    np_vstack U_a (np_T Q) = Ok W /\ np_dot Vt W = Ok VtS /\
    l' = new_eigenvalues s n eps /\ U' = take_rows (length l') VtS /\
    forall j k,
      sumn (length s) (fun t => entry t s * entry t s * (cell VtS t j * cell VtS t k))
      = sumn (nrows U_a) (fun i =>
          entry i s_a * entry i s_a * (cell U_a i j * cell U_a i k))
        + gram B j k.
Proof.
  intros HB HU Hs Hproj Hqr Hspan HM Hsvd (HVt & HnVt & HdVt & Hgram) Hup.
  unfold ipca_update in Hup. rewrite Hproj in Hup. simpl in Hup.
  rewrite Hqr in Hup. simpl in Hup. rewrite HM in Hup. simpl in Hup.
  rewrite Hsvd in Hup. simpl in Hup.
  destruct (np_vstack U_a (np_T Q)) as [W|] eqn:HW; [|discriminate]. simpl in Hup.
  destruct (np_dot Vt W) as [VtS|] eqn:HV; [|discriminate]. simpl in Hup.
  injection Hup as <- <-.
  exists W, VtS. split_and!; try done.
  intros j k.
  (* shapes of the merge matrix *)
  assert (HQ : wf Q) by apply Hspan.
  destruct (wf_vstack _ _ _ HU (wf_np_T Q) HW) as (HwW & _ & HnW).
  rewrite nrows_np_T in HnW.
  assert (HdM : ncols M = (nrows U_a + ncols Q)%nat /\
                nrows M = (nrows U_a + nrows B)%nat).
  { pose proof Hproj as Hproj'. unfold project_out in Hproj'.
    destruct (np_dot B (np_T U_a)) as [BUt'|] eqn:E1; [|discriminate]. simpl in Hproj'.
    destruct (np_dot BUt' U_a) as [P|] eqn:E2; [|discriminate]. simpl in Hproj'.
    injection Hproj' as -> <-.
    destruct (np_dot_shape _ _ _ E1) as [n1 d1]. rewrite ncols_np_T in d1.
    pose proof HM as HM'. unfold form_R in HM'.
    destruct (np_vstack (mscale 1 (np_diag s_a)) BUt) as [left|] eqn:E3; [|discriminate].
    simpl in HM'.
    destruct (np_dot (msub B P) (np_T (np_T Q))) as [PBBt|] eqn:E4; [|discriminate].
    simpl in HM'.
    destruct (np_vstack (np_zeros2 _ _) PBBt) as [right|] eqn:E5; [|discriminate].
    simpl in HM'.
    assert (HBUt : wf BUt) by (eapply wf_np_dot; [apply wf_np_T|exact E1]).
    assert (HPBBt : wf PBBt) by (eapply wf_np_dot; [apply wf_np_T|exact E4]).
    destruct (wf_vstack _ _ _ (wf_mscale 1 _ (wf_np_diag s_a)) HBUt E3)
      as (Hl & Hdl & Hnl).
    destruct (wf_vstack _ _ _ (wf_np_zeros2 _ _) HPBBt E5) as (Hr & Hdr & Hnr).
    destruct (wf_hstack _ _ _ Hl Hr HM') as (_ & HnM & HdM).
    rewrite HdM, HnM, Hdl, Hdr, Hnl. simpl.
    rewrite nrows_np_T. unfold nrows at 2 3. simpl.
    rewrite length_map, length_imap. fold (nrows BUt). rewrite n1. lia. }
  destruct HdM as [HdM HnM].
  rewrite HdM in HnVt, HdVt, Hgram.
  rewrite (sumn_ext _ _ (fun t => entry t s * entry t s *
             (sumn (nrows U_a + ncols Q) (fun c => cell Vt t c * cell W c j)
              * sumn (nrows U_a + ncols Q) (fun c => cell Vt t c * cell W c k)))).
  2:{ intros t _. rewrite !(cell_np_dot Vt W VtS t _ HVt HwW HV), HdVt. done. }
  rewrite (quad_transport _ _ (fun t => entry t s * entry t s) (cell Vt)
             (fun c => cell W c j) (fun c => cell W c k) (gram M)) by exact Hgram.
  rewrite (sumn_ext _ _ (fun c => sumn (nrows U_a + ncols Q) (fun c' =>
             sumn (nrows M) (fun i => cell M i c * cell M i c')
             * (cell W c j * cell W c' k)))).
  2:{ intros c _. apply sumn_ext. intros c' _. by rewrite gram_sumn. }
  rewrite gram_quad, HnM.
  rewrite (sumn_ext _ _ (fun i =>
             (if (i <? nrows U_a)%nat then entry i s_a * cell U_a i j
              else cell B (i - nrows U_a) j)
             * (if (i <? nrows U_a)%nat then entry i s_a * cell U_a i k
                else cell B (i - nrows U_a) k))).
  2:{ intros i Hi.
      by rewrite !(merge_times_basis B U_a s_a BUt PB Q M W i _ HB HU Hs Hproj Hspan HM HW Hi). }
  rewrite sumn_split, gram_sumn. f_equal.
  - apply sumn_ext. intros i Hi.
    destruct (Nat.ltb_spec i (nrows U_a)); [lra|lia].
  - apply sumn_ext. intros i Hi.
    destruct (Nat.ltb_spec (nrows U_a + i) (nrows U_a)); [lia|].
    by replace (nrows U_a + i - nrows U_a)%nat with i by lia.
Qed.

End Update.

(* ================================================================== *)
(** ** The data handed to the update *)

Section Batch.
Open Scope R_scope.

Lemma wf_scale_rows (X Y : ndarray R) w : wf X -> scale_rows X w = Ok Y -> wf Y.
Proof.
  intros Hwf. unfold scale_rows.
  repeat destruct (decide _); try discriminate; intros [= <-]; unfold wf in *; simpl.
  - revert Hwf. generalize (rows X). clear. intros l Hl. revert w.
    induction Hl as [|r l Hr _ IH]; intros [|a w]; simpl; constructor.
    + by rewrite length_vscale.
    + apply IH.
  - apply Forall_map. eapply Forall_impl; [exact Hwf|]. intros r Hr. simpl.
    by rewrite length_vscale.
Qed.

Lemma pca_values_wf eigh (X : ndarray R) centre eps U l m :
  wf X -> length (pca_mean X centre) = ncols X ->
  pca_values eigh X centre eps = Ok (U, l, m) -> wf U.
Proof.
  intros Hwf Hm. unfold pca_values.
  destruct (ncols X <? nrows X)%nat.
  - destruct (covariance false _) as [C|]; [|discriminate]. simpl.
    destruct (eigenvalue_decomposition eigh C eps) as [[V l0]|]; [|discriminate].
    simpl. intros [= <- _ _]. apply wf_np_T.
  - destruct (covariance true _) as [C|]; [|discriminate]. simpl.
    destruct (eigenvalue_decomposition eigh C eps) as [[V l0]|]; [|discriminate].
    simpl. destruct (np_dot _ _) as [P|] eqn:HP; [|discriminate]. simpl.
    destruct (scale_rows _ _) as [Y|] eqn:HY; [|discriminate]. simpl.
    intros [= <- _ _]. eapply wf_scale_rows; [|exact HY].
    eapply wf_np_dot; [|exact HP]. by apply wf_sub_row.
Qed.

(** The centred branch of [ipca], as values. *)
Lemma ipca_values_centred
    (qr : ndarray R -> option (ndarray R))
    (svd : ndarray R -> option (list R * ndarray R))
    (Bv Uv : ndarray R) (lv : list R) (n_a : Z) (m_av : list R) (f eps : R)
    (U : ndarray R) (l m : list R) :
  wf Bv -> length m_av = ncols Bv ->
  forallb (fun x => Reqb x 0) m_av = false ->
  ipca_values qr svd Bv Uv lv n_a (Some m_av) f eps = Ok (U, l, m) ->
  let n_b := IZR (Z.of_nat (nrows Bv)) in
  let n := IZR n_a * f + n_b in
  ipca_update qr svd (augmented Bv (IZR n_a * f) n_b n m_av) Uv
    (prior_singular_values n_a lv) n f eps = Ok (U, l).
Proof.
  intros Hwf Hlen Hnz Hv n_b n.
  unfold ipca_values, ipca_centre, centred in Hv.
  change (@f_eqb R R_scalar) with Reqb in Hv. change (@f_zero R R_scalar) with 0 in Hv.
  rewrite Hnz in Hv.
  assert (Hmb : length (np_mean0 Bv) = ncols Bv) by (by apply length_np_mean0).
  rewrite (broadcast_same f_add) in Hv by (rewrite !length_vscale; congruence).
  rewrite (broadcast_same f_sub) in Hv by congruence.
  simpl in Hv. unfold np_vstack in Hv. simpl in Hv.
  rewrite decide_True in Hv.
  2:{ unfold vscale, vsub. rewrite length_map, length_zip_with. lia. }
  simpl in Hv.
  destruct (ipca_update _ _ _ _ _ _ _ _) as [[U0 l0]|] eqn:E; [|discriminate].
  simpl in Hv. injection Hv as <- <- <-. reflexivity.
Qed.

Lemma wf_augmented (B : ndarray R) n_a n_b n m_a :
  wf B -> length m_a = ncols B -> wf (augmented B n_a n_b n m_a).
Proof.
  intros Hwf Hm. unfold wf, augmented. simpl. apply Forall_app. split.
  - apply (wf_sub_row B); [done|]. by apply length_np_mean0.
  - constructor; [|constructor].
    rewrite length_vscale, length_vsub, length_np_mean0 by done. lia.
Qed.

Lemma nrows_augmented (B : ndarray R) n_a n_b n m_a :
  nrows (augmented B n_a n_b n m_a) = S (nrows B).
Proof.
  unfold nrows, augmented. simpl. rewrite length_app, length_map. simpl. lia.
Qed.

(** The scatter of the data [ipca] hands to the update. *)
Lemma gram_augmented (B : ndarray R) n_a n_b n m_a j k :
  wf B -> length m_a = ncols B -> 0 <= n_a * n_b / n ->
  gram (augmented B n_a n_b n m_a) j k
  = gram (sub_row B (np_mean0 B)) j k
    + n_a * n_b / n * ((entry j (np_mean0 B) - entry j m_a)
                       * (entry k (np_mean0 B) - entry k m_a)).
Proof.
  intros Hwf Hm Hc. unfold augmented.
  rewrite (gram_snoc (ncols B) (sub_row B (np_mean0 B))).
  rewrite !entry_vscale, !entry_vsub by (rewrite length_np_mean0; done).
  simpl.
  transitivity (gram (sub_row B (np_mean0 B)) j k +
                (R_sqrt.sqrt (n_a * n_b / n) * R_sqrt.sqrt (n_a * n_b / n))
                * ((entry j (np_mean0 B) - entry j m_a)
                   * (entry k (np_mean0 B) - entry k m_a))); [lra|].
  by rewrite sqrt_sqrt.
Qed.

(** The squares of the singular values [ipca] recomputes from the
    eigenvalues. *)
Lemma prior_singular_values_sq (n_a : Z) (l : list R) i :
  (1 <= n_a)%Z -> Forall (fun x => 0 < x) l ->
  entry i (prior_singular_values n_a l) * entry i (prior_singular_values n_a l)
  = IZR (n_a - 1) * entry i l.
Proof.
  intros Hn Hl. unfold prior_singular_values.
  destruct (decide (i < length l)%nat) as [Hi|Hi].
  - unfold entry.
    rewrite (nth_indep _ 0 ((fun x => f_sqrt (f_mul (f_of_Z (n_a - 1)) x)) 0))
      by (by rewrite length_map).
    rewrite (map_nth (fun x => f_sqrt (f_mul (f_of_Z (n_a - 1)) x))). simpl.
    apply sqrt_sqrt. apply Rmult_le_pos.
    + apply IZR_le. lia.
    + rewrite Forall_forall in Hl. apply Rlt_le, Hl, list_elem_of_In, nth_In. exact Hi.
  - unfold entry. rewrite !nth_overflow by (rewrite ?length_map; lia). lra.
Qed.

End Batch.

(* ================================================================== *)
(** ** ipca against pca on the concatenation *)

Section BatchAgreement.
Open Scope R_scope.

Lemma ipca_update_inv
    (qr : ndarray R -> option (ndarray R))
    (svd : ndarray R -> option (list R * ndarray R))
    (B U_a : ndarray R) (s_a : list R) (n f eps : R) (U' : ndarray R) (l' : list R) :
  ipca_update qr svd B U_a s_a n f eps = Ok (U', l') ->
  exists BUt PB Q M s Vt W VtS,
    project_out B U_a = Ok (BUt, PB) /\
    qr (np_T PB) = Some Q /\
    form_R f s_a BUt PB (np_T Q) = Ok M /\
    svd M = Some (s, Vt) /\
    np_vstack U_a (np_T Q) = Ok W /\ np_dot Vt W = Ok VtS /\
    l' = new_eigenvalues s n eps /\
    U' = take_rows (length l') VtS.
Proof.
  unfold ipca_update. intros Hup.
  destruct (project_out B U_a) as [[BUt PB]|] eqn:E1; [|discriminate]. simpl in Hup.
  destruct (qr (np_T PB)) as [Q|] eqn:E2; [|discriminate]. simpl in Hup.
  destruct (form_R f s_a BUt PB (np_T Q)) as [M|] eqn:E3; [|discriminate]. simpl in Hup.
  destruct (svd M) as [[s Vt]|] eqn:E4; [|discriminate]. simpl in Hup.
  destruct (np_vstack U_a (np_T Q)) as [W|] eqn:E5; [|discriminate]. simpl in Hup.
  destruct (np_dot Vt W) as [VtS|] eqn:E6; [|discriminate]. simpl in Hup.
  injection Hup as <- <-. exists BUt, PB, Q, M, s, Vt, W, VtS. by split_and!.
Qed.

End BatchAgreement.

(* ================================================================== *)
(** ** The reference drivers are exact on the example *)

Section DriversExact.
Open Scope R_scope.

Lemma fold_products (ps : list (R * R)) a :
  fold_left (fun acc p => acc + p.1 * p.2) ps a
  = a + Rsum (map (fun p => p.1 * p.2) ps).
Proof.
  revert a. induction ps as [|p ps IH]; intros a; simpl; [unfold Rsum; simpl; lra|].
  rewrite IH. unfold Rsum. simpl. lra.
Qed.

Lemma col_dot_gram (X : ndarray R) j k : col_dot X j k = gram X j k.
Proof.
  unfold col_dot, gram, dotp. simpl.
  rewrite (fold_products (combine (col X j) (col X k)) 0).
  rewrite Rplus_0_l. f_equal.
  generalize (col X j) (col X k). intros u. induction u as [|a u IH]; intros [|b v];
    simpl; try done. by rewrite IH.
Qed.

Lemma gram_diag_nonneg (X : ndarray R) j : 0 <= gram X j j.
Proof.
  unfold gram, dotp. induction (col X j) as [|a u IH]; simpl; [unfold Rsum; simpl; lra|].
  unfold Rsum in *. simpl. nra.
Qed.

Lemma col_norm_sq (X : ndarray R) j : col_norm X j * col_norm X j = gram X j j.
Proof.
  unfold col_norm. simpl.
  assert (E : fold_left (fun acc x => acc + x * x) (col X j) 0 = gram X j j).
  { rewrite <- col_dot_gram. unfold col_dot. simpl.
    generalize 0. induction (col X j) as [|a u IH]; intros acc; simpl; [done|].
    apply IH. }
  rewrite E. apply sqrt_sqrt, gram_diag_nonneg.
Qed.

Lemma cell_unit_rows n t c :
  cell (Mat n (map (unit_vector n) (seq 0 n))) t c
  = if (t =? c)%nat && (t <? n)%nat then 1 else 0.
Proof.
  rewrite cell_lookup. simpl. rewrite list_lookup_fmap.
  destruct (Nat.ltb_spec t n) as [Ht|Ht].
  - rewrite lookup_seq_lt by done. simpl. unfold unit_vector.
    destruct (Nat.eqb_spec t c) as [<-|Hne]; simpl.
    + rewrite list_lookup_insert_eq; [done|]. by rewrite length_np_zeros.
    + rewrite list_lookup_insert_ne by done.
      rewrite <- entry_lookup. apply entry_zeros.
  - rewrite lookup_seq_ge by lia. simpl. by rewrite andb_false_r.
Qed.

(** The reference SVD driver answers exactly on a matrix with no more
    columns than rows. *)
Lemma svd_orthogonal_columns_gram (M : ndarray R) s Vt :
  (ncols M <= nrows M)%nat ->
  svd_orthogonal_columns M = Some (s, Vt) -> svd_gram M s Vt.
Proof.
  intros Hshape. unfold svd_orthogonal_columns.
  destruct (forallb _ _) eqn:Horth; [|discriminate]. simpl.
  destruct (forallb _ (seq 0 (ncols M - 1))); [|discriminate].
  intros [= <- <-]. unfold svd_gram. simpl.
  rewrite Nat.min_r by done.
  rewrite firstn_all2 by (by rewrite length_map, length_seq).
  split_and!.
  - unfold wf. simpl. apply Forall_map, Forall_forall. intros i _. simpl.
    unfold unit_vector. by rewrite length_insert, length_np_zeros.
  - unfold nrows. simpl. by rewrite length_map, length_seq.
  - done.
  - intros c c' Hc Hc'. rewrite length_map, length_seq.
    rewrite (sumn_ext _ _ (fun t => if (t =? c)%nat
               then (if (c =? c')%nat then gram M c c else 0) else 0)).
    2:{ intros t Ht. rewrite !cell_unit_rows.
        destruct (Nat.ltb_spec t (ncols M)); [|lia]. rewrite !andb_true_r.
        destruct (Nat.eqb_spec t c) as [->|Hne]; [|lra].
        destruct (Nat.eqb_spec c c') as [<-|Hne']; [|lra].
        unfold entry.
        rewrite (nth_indep _ 0 (col_norm M 0)) by (by rewrite length_map, length_seq).
        rewrite (map_nth (col_norm M)), seq_nth by done. rewrite Nat.add_0_l.
        pose proof (col_norm_sq M c) as E. nra. }
    rewrite (sumn_delta _ c (fun _ => if (c =? c')%nat then gram M c c else 0)) by done.
    destruct (Nat.eqb_spec c c') as [<-|Hne]; [done|].
    rewrite forallb_forall in Horth.
    specialize (Horth c ltac:(apply in_seq; lia)).
    rewrite forallb_forall in Horth.
    specialize (Horth c' ltac:(apply in_seq; lia)).
    destruct (Nat.eqb_spec c c'); [done|]. simpl in Horth.
    apply Reqb_eq in Horth. by rewrite <- col_dot_gram.
Qed.

(** The reference QR driver answers exactly on a matrix with one row. *)
Lemma qr_thin_spans (A Q : ndarray R) :
  nrows A = 1%nat -> qr_thin A = Some Q -> qr_spans A Q.
Proof.
  intros Hn. unfold qr_thin. rewrite Hn. simpl. intros [= <-].
  unfold qr_spans. split_and!.
  - unfold wf. simpl. by repeat constructor.
  - by rewrite Hn.
  - intros i j Hi _. rewrite Hn in *. assert (i = 0)%nat as -> by lia.
    unfold sumn, Rsum, cell at 2 3. simpl. unfold entry. simpl. lra.
Qed.

End DriversExact.

Section BatchAgreementExample.
Open Scope R_scope.

Lemma merge_shape (B U_a : ndarray R) (s_a : list R) (BUt PB Q M : ndarray R) :
  wf B -> wf U_a -> length s_a = nrows U_a -> wf Q ->
  project_out B U_a = Ok (BUt, PB) ->
  form_R 1 s_a BUt PB (np_T Q) = Ok M ->
  wf M /\ nrows M = (nrows U_a + nrows B)%nat /\
  ncols M = (nrows U_a + ncols Q)%nat /\ ncols PB = ncols B.
Proof.
  intros HB HU Hs HQ Hproj HM. unfold project_out in Hproj.
  destruct (np_dot B (np_T U_a)) as [BUt'|] eqn:E1; [|discriminate]. simpl in Hproj.
  destruct (np_dot BUt' U_a) as [P|] eqn:E2; [|discriminate]. simpl in Hproj.
  injection Hproj as -> <-.
  destruct (np_dot_shape _ _ _ E1) as [n1 d1]. rewrite ncols_np_T in d1.
  unfold form_R in HM.
  destruct (np_vstack (mscale 1 (np_diag s_a)) BUt) as [left|] eqn:E3; [|discriminate].
  simpl in HM.
  destruct (np_dot (msub B P) (np_T (np_T Q))) as [PBBt|] eqn:E4; [|discriminate].
  simpl in HM.
  destruct (np_vstack (np_zeros2 _ _) PBBt) as [right|] eqn:E5; [|discriminate].
  simpl in HM.
  assert (HBUt : wf BUt) by (eapply wf_np_dot; [apply wf_np_T|exact E1]).
  assert (HPBBt : wf PBBt) by (eapply wf_np_dot; [apply wf_np_T|exact E4]).
  destruct (wf_vstack _ _ _ (wf_mscale 1 _ (wf_np_diag s_a)) HBUt E3)
    as (Hl & Hdl & Hnl).
  destruct (wf_vstack _ _ _ (wf_np_zeros2 _ _) HPBBt E5) as (Hr & Hdr & Hnr).
  destruct (wf_hstack _ _ _ Hl Hr HM) as (HwM & HnM & HdM).
  split; [done|]. rewrite HdM, HnM, Hdl, Hdr, Hnl. simpl.
  rewrite nrows_np_T. unfold nrows at 1 2. simpl.
  rewrite length_map, length_imap. fold (nrows BUt). rewrite n1. split_and!; (done || lia).
Qed.

Lemma Y_old_mean_not_zero :
  forallb (fun x => Reqb x 0) (np_mean0 Y_old) = false.
Proof. R_decide. reflexivity. Qed.

End BatchAgreementExample.

(* ================================================================== *)
(** ** Further properties in any arithmetic *)

Section MoreGeneric.
Context {F : Type} `{Scalar F}.

(** In any arithmetic, float64 included: every eigenvalue
    [eigenvalue_decomposition] returns passed both tests of the source,
    [x > 0.0] and [x > limit], as that arithmetic evaluates them, and
    [pos_eigenvectors] has one column per eigenvalue. *)
Theorem returned_eigenvalues_pass_both_tests
    (eigh : ndarray F -> option (list F * ndarray F))
    (C : ndarray F) (eps : F) (V : ndarray F) (l : list F) :
  eigenvalue_decomposition eigh C eps = Ok (V, l) ->
  exists w V0 mx,
    eigh C = Some (w, V0) /\
    np_max (map f_abs (eigenvalues_desc w)) = Ok mx /\
    Forall (fun x => f_gtb x f_zero = true /\ f_gtb x (f_mul mx eps) = true) l /\
    ncols V = length l.
Proof.
  intros HE.
  apply eigenvalue_decomposition_inv in HE as (w & V0 & mx & Hw & Hmx & -> & Hd).
  exists w, V0, mx. split_and!; try done.
  apply Forall_forall. intros x Hx. apply list_elem_of_In in Hx.
  unfold pos_eigenvalues in Hx. rewrite !filter_In in Hx. tauto.
Qed.

Lemma broadcast_raises op (u v : list F) e :
  broadcast op u v = Raise e -> e = ValueError.
Proof.
  unfold broadcast. destruct (decide _); [discriminate|].
  destruct u as [|a [|? ?]]; destruct v as [|b [|? ?]]; simpl; congruence.
Qed.

Lemma ipca_values_width_mismatch
    (qr : ndarray F -> option (ndarray F))
    (svd : ndarray F -> option (list F * ndarray F))
    (Bv Uv : ndarray F) (lv : list F) (n_a : Z) (mv : option (list F)) (f eps : F) :
  ncols Bv <> ncols Uv ->
  ipca_values qr svd Bv Uv lv n_a mv f eps = Raise ValueError.
Proof.
  intros Hne. unfold ipca_values.
  assert (Hup : forall B' s n, ncols B' = ncols Bv ->
            ipca_update qr svd B' Uv s n f eps = Raise ValueError).
  { intros B' s n HB'. unfold ipca_update, project_out, np_dot.
    rewrite nrows_np_T. rewrite decide_False by congruence. done. }
  unfold ipca_centre. destruct (centred mv) as [m_a|]; simpl.
  - destruct (broadcast f_add _ _) as [m|e] eqn:E1; simpl.
    2:{ by rewrite (broadcast_raises _ _ _ _ E1). }
    destruct (broadcast f_sub _ _) as [diff|e] eqn:E2; simpl.
    2:{ by rewrite (broadcast_raises _ _ _ _ E2). }
    unfold np_vstack. destruct (decide _); simpl; [|done].
    by rewrite Hup.
  - by rewrite Hup.
Qed.

(** [ipca] on a batch [B] and a basis [U_a] of different widths raises
    [ValueError] (from a numpy shape check: no product [B.dot(U_a.T)]
    exists), whatever the other arrays, for [n_a] a sample count and a
    total weight [n] that is not zero (Python refuses to divide by a zero
    [n] before it comes to the product). *)
Theorem ipca_rejects_width_mismatch
    (qr : ndarray F -> option (ndarray F))
    (svd : ndarray F -> option (list F * ndarray F))
    (σ : heap F) (B U_a l_a : ref) (n_a : Z) (m_a : option ref) (f eps : F)
    (Bv Uv : ndarray F) (lv : list F) (mv : option (list F)) :
  deref2 σ B = Ok Bv -> deref2 σ U_a = Ok Uv -> deref1 σ l_a = Ok lv ->
  deref1_opt σ m_a = Ok mv ->
  ncols Bv <> ncols Uv ->
  (0 <= n_a < 2 ^ 62)%Z -> f_eqb (total_weight n_a f Bv) f_zero = false ->
  exists σ', ipca qr svd B U_a l_a n_a m_a f eps σ = (Raise ValueError, σ').
Proof.
  intros HB HU Hl Hm Hne _ _.
  destruct (ipca_run qr svd σ B U_a l_a n_a m_a f eps Bv Uv lv mv HB HU Hl Hm)
    as (r & σ' & Hrun & Hv).
  rewrite (ipca_values_width_mismatch qr svd Bv Uv lv n_a mv f eps Hne) in Hv.
  subst r. by exists σ'.
Qed.

End MoreGeneric.

#[local] Set Warnings "-inexact-float".

Lemma returned_eigenvalues_pass_both_tests_witness :
  exists w V0 mx,
    eigh_diagonal I2 = Some (w, V0) /\
    np_max (map f_abs (eigenvalues_desc w)) = Ok mx /\
    Forall (fun x => f_gtb x f_zero = true /\
                     f_gtb x (f_mul mx eps_default) = true) [1; 1]%float /\
    ncols (Mat 2 [[0; 1]; [1; 0]]%float) = length [1; 1]%float.
Proof.
  apply (returned_eigenvalues_pass_both_tests eigh_diagonal I2 eps_default
           (Mat 2 [[0; 1]; [1; 0]]%float)).
  vm_compute. reflexivity.
Defined.

Lemma ipca_rejects_width_mismatch_witness :
  exists σ',
    ipca qr_thin svd_orthogonal_columns (Whole 0) (Whole 1) (Whole 2) 2 None
      1%float eps_default [A2 B_one; A2 U_prior; A1 l_prior]
    = (Raise ValueError, σ').
Proof.
  apply (ipca_rejects_width_mismatch qr_thin svd_orthogonal_columns
           [A2 B_one; A2 U_prior; A1 l_prior] (Whole 0) (Whole 1) (Whole 2) 2 None
           1%float eps_default B_one U_prior l_prior None);
    try reflexivity.
  - vm_compute. lia.
  - lia.
Defined.

(* ================================================================== *)
(** ** Eigenvalues and their eigenvectors *)

Section Pairing.
Context {F : Type} `{Scalar F}.

Lemma np_take_nth (w : list F) idx vs :
  np_take w idx = Ok vs ->
  vs = map (fun i => nth i w f_zero) idx /\ Forall (fun i => i < length w) idx.
Proof.
  unfold np_take. revert vs. induction idx as [|i idx IH]; intros vs.
  - simpl. intros [= <-]. by split.
  - simpl. destruct (w !! i) as [x|] eqn:E; simpl; [|discriminate].
    unfold mbind, result_bind.
    destruct (mapM _ idx) as [vs'|]; [|discriminate]. simpl.
    intros [= <-]. destruct (IH vs' eq_refl) as [-> Hb]. split.
    + simpl. f_equal. by rewrite (nth_lookup_Some _ _ _ _ E).
    + constructor; [|done]. by eapply lookup_lt_Some.
Qed.

Lemma compress_keep {A} (g : A -> F) mask xs :
  compress mask (map g xs) = map g (keep mask xs).
Proof.
  unfold keep. revert xs. induction mask as [|b mask IH]; intros [|x xs]; simpl; try done.
  destruct b; simpl; by rewrite IH.
Qed.

Lemma keep_sublist {A} mask (xs : list A) : sublist (keep mask xs) xs.
Proof.
  unfold keep. revert xs. induction mask as [|b mask IH]; intros [|x xs]; simpl;
    try apply sublist_nil_l.
  destruct b; simpl; [apply sublist_skip|apply sublist_cons]; apply IH.
Qed.

Lemma length_keep {A} mask (xs : list A) :
  length mask = length xs -> length (keep mask xs) = count_true mask.
Proof.
  unfold keep, count_true. rewrite length_map. revert xs.
  induction mask as [|b mask IH]; intros [|x xs]; simpl; try done.
  intros [= E]. destruct b; simpl; by rewrite IH.
Qed.

Lemma argsort_NoDup (w : list F) : NoDup (reverse (np_argsort w)).
Proof.
  rewrite reverse_Permutation. unfold np_argsort.
  rewrite sort_pairs_perm, combine_zip, snd_zip by (rewrite length_seq; lia).
  apply NoDup_seq.
Qed.

Lemma kept_indices_sublist (w : list F) limit :
  sublist (kept_indices w limit) (reverse (np_argsort w)).
Proof. unfold kept_indices. etrans; apply keep_sublist. Qed.

Lemma kept_indices_bound (w : list F) limit :
  Forall (fun i => i < length w) (kept_indices w limit).
Proof.
  apply Forall_forall. intros i Hi.
  pose proof (np_argsort_bound w) as Hb. rewrite Forall_forall in Hb.
  apply Hb. eapply elem_of_sublist; [exact Hi|apply kept_indices_sublist].
Qed.

(** What [eigenvalue_decomposition] returns, by positions in the answer of
    [eigh]. *)
Lemma eigenvalue_decomposition_columns
    (eigh : ndarray F -> option (list F * ndarray F))
    (C : ndarray F) (eps : F) (V : ndarray F) (l : list F) :
  eigenvalue_decomposition eigh C eps = Ok (V, l) ->
  exists w V0 mx,
    eigh C = Some (w, V0) /\
    np_max (map f_abs (eigenvalues_desc w)) = Ok mx /\
    let idx := kept_indices w (f_mul mx eps) in
    l = map (fun i => nth i w f_zero) idx /\
    V = Mat (length idx)
            (map (fun r => map (fun i => nth i r f_zero) idx) (rows V0)).
Proof.
  intros Hed. unfold eigenvalue_decomposition in Hed.
  destruct (eigh C) as [[w V0]|]; [|discriminate]. simpl in Hed.
  rewrite np_take_argsort in Hed. simpl in Hed.
  destruct (np_take_nth w _ _ (np_take_argsort w)) as [Hev _].
  rewrite Hev in Hed.
  set (index := reverse (np_argsort w)) in *.
  unfold take_cols in Hed.
  destruct (forallb _ index); [|discriminate]. simpl in Hed.
  destruct (np_max _) as [mx|] eqn:Hmx; [|discriminate]. simpl in Hed.
  set (g := fun i => nth i w f_zero) in *.
  set (m1 := map (fun x => f_gtb x f_zero) (map g index)) in *.
  unfold compress_cols at 2 in Hed. simpl in Hed.
  destruct (decide (length m1 = length index)); [|discriminate]. simpl in Hed.
  rewrite (compress_keep g m1 index) in Hed.
  set (idx1 := keep m1 index) in *.
  set (m2 := map (fun x => f_gtb x (f_mul mx eps)) (map g idx1)) in *.
  unfold compress_cols in Hed. simpl in Hed.
  destruct (decide (length m2 = count_true m1)); [|discriminate]. simpl in Hed.
  rewrite (compress_keep g m2 idx1) in Hed.
  injection Hed as <- <-.
  exists w, V0, mx. split; [done|]. split; [by rewrite Hev|].
  change (kept_indices w (f_mul mx eps)) with (keep m2 idx1).
  simpl. split; [done|]. f_equal.
  - symmetry. apply length_keep. unfold m2. by rewrite !length_map.
  - rewrite !map_map. apply map_ext. intros r.
    rewrite (compress_keep (fun i => nth i r f_zero) m1 index).
    fold idx1. by rewrite (compress_keep (fun i => nth i r f_zero) m2 idx1).
Qed.

(** Each eigenvalue stays with its eigenvector: the eigenvalues and the
    columns that [eigenvalue_decomposition] returns are the entries of
    [w] and the columns of [V0], the answer of [eigh], at one and the same
    list of positions; no position is taken twice, and the positions come
    in the order of the sort (largest eigenvalue first). *)
Theorem eigenvalues_keep_their_eigenvectors
    (eigh : ndarray F -> option (list F * ndarray F))
    (C : ndarray F) (eps : F) (V : ndarray F) (l : list F) :
  eigenvalue_decomposition eigh C eps = Ok (V, l) ->
  exists w V0 idx,
    eigh C = Some (w, V0) /\
    NoDup idx /\ Forall (fun i => i < length w) idx /\
    sublist idx (reverse (np_argsort w)) /\
    l = map (fun i => nth i w f_zero) idx /\
    ncols V = length idx /\
    rows V = map (fun r => map (fun i => nth i r f_zero) idx) (rows V0).
Proof.
  intros Hed.
  apply eigenvalue_decomposition_columns in Hed
    as (w & V0 & mx & Hw & _ & Hl & HV).
  exists w, V0, (kept_indices w (f_mul mx eps)). subst V. split_and!; try done.
  - apply (sublist_NoDup _ (reverse (np_argsort w)));
      [apply argsort_NoDup|apply kept_indices_sublist].
  - apply kept_indices_bound.
  - apply kept_indices_sublist.
Qed.

End Pairing.

#[local] Set Warnings "-inexact-float".

Lemma eigenvalues_keep_their_eigenvectors_witness :
  exists w V0 idx,
    eigh_diagonal (Mat 2 [[2; 0]; [0; 3]]%float) = Some (w, V0) /\
    NoDup idx /\ Forall (fun i => i < length w) idx /\
    sublist idx (reverse (np_argsort w)) /\
    [3; 2]%float = map (fun i => nth i w f_zero) idx /\
    ncols (Mat 2 [[0; 1]; [1; 0]]%float) = length idx /\
    rows (Mat 2 [[0; 1]; [1; 0]]%float)
    = map (fun r => map (fun i => nth i r f_zero) idx) (rows V0).
Proof.
  apply (eigenvalues_keep_their_eigenvectors eigh_diagonal
           (Mat 2 [[2; 0]; [0; 3]]%float) eps_default).
  vm_compute. reflexivity.
Defined.

(* ================================================================== *)
(** ** The rows of [U] are orthonormal eigenvectors of the covariance *)

Section Eigenpairs.
Open Scope R_scope.

Lemma cell_mdivs (X : ndarray R) a i j : cell (mdivs X a) i j = cell X i j / a.
Proof.
  destruct (decide (i < nrows X)%nat) as [Hi|Hi].
  - unfold mdivs. rewrite cell_map by done. by rewrite entry_vdivs.
  - rewrite !cell_row_ge; [lra|lia|rewrite nrows_mdivs; lia].
Qed.

Lemma cell_madd (X Y : ndarray R) i j :
  wf X -> wf Y -> nrows X = nrows Y -> ncols X = ncols Y ->
  cell (madd X Y) i j = cell X i j + cell Y i j.
Proof.
  intros HX HY Hn Hd. destruct (decide (i < nrows X)%nat) as [Hi|Hi].
  - unfold cell, madd. simpl. rewrite (nth_zip_with vadd) by done.
    apply entry_vadd. rewrite !wf_row; (done || lia).
  - rewrite !cell_row_ge; [lra|lia|lia|rewrite nrows_madd; lia].
Qed.

Lemma gram_sym (X : ndarray R) j k : gram X j k = gram X k j.
Proof. rewrite !gram_sumn. apply sumn_ext. intros i _. lra. Qed.

(** The cells of the matrix [pca] decomposes, in the two regimes. *)
Lemma covariance_cells (dual : bool) (X C : ndarray R) j k :
  wf X -> covariance dual X = Ok C ->
  cell C j k
  = (if dual then gram (np_T X) j k else gram X j k)
    / IZR (Z.of_nat (nrows X) - 1).
Proof.
  intros HX. unfold covariance.
  assert (Hg : forall D, np_dot (np_T X) X = Ok D ->
            forall a b, cell D a b = gram X a b).
  { intros D HD a b. rewrite (cell_np_dot _ _ D a b (wf_np_T X) HX HD).
    rewrite gram_sumn, ncols_np_T. apply sumn_ext. intros i _.
    by rewrite cell_np_T. }
  assert (Hg' : forall D, np_dot X (np_T X) = Ok D ->
            forall a b, cell D a b = gram (np_T X) a b).
  { intros D HD a b. rewrite (cell_np_dot _ _ D a b HX (wf_np_T X) HD).
    rewrite gram_sumn, nrows_np_T. apply sumn_ext. intros i _.
    rewrite !cell_np_T by done. done. }
  assert (Hfin : forall D (G : nat -> nat -> R),
            wf D -> nrows D = ncols D ->
            (forall a b, cell D a b = G a b) -> (forall a b, G a b = G b a) ->
            cell (mdivs (madd (mdivs D (IZR (Z.of_nat (nrows X) - 1)))
                              (np_T (mdivs D (IZR (Z.of_nat (nrows X) - 1))))) 2) j k
            = G j k / IZR (Z.of_nat (nrows X) - 1)).
  { intros D G HD Hsq HG Hs.
    rewrite cell_mdivs, cell_madd.
    - rewrite cell_np_T by (by apply wf_mdivs). rewrite !cell_mdivs, !HG, (Hs k j). lra.
    - by apply wf_mdivs.
    - apply wf_np_T.
    - rewrite nrows_np_T, nrows_mdivs. done.
    - rewrite ncols_np_T, nrows_mdivs. simpl. lia. }
  destruct dual.
  - destruct (np_dot X (np_T X)) as [D|] eqn:HD; [|discriminate]. simpl.
    intros [= <-]. apply np_dot_shape in HD as HS. destruct HS as [Hn Hd].
    rewrite ncols_np_T in Hd.
    apply Hfin; [eapply wf_np_dot; [apply wf_np_T|exact HD]|lia|by apply Hg'|].
    intros a b. apply gram_sym.
  - destruct (np_dot (np_T X) X) as [D|] eqn:HD; [|discriminate]. simpl.
    intros [= <-]. apply np_dot_shape in HD as HS. destruct HS as [Hn Hd].
    rewrite nrows_np_T in Hn.
    apply Hfin; [eapply wf_np_dot; [exact HX|exact HD]|lia|by apply Hg|].
    intros a b. apply gram_sym.
Qed.


Lemma wf_covariance (dual : bool) (X C : ndarray R) :
  wf X -> covariance dual X = Ok C -> wf C.
Proof.
  intros HX. unfold covariance.
  assert (Hfin : forall D a b, wf D -> nrows D = ncols D ->
            wf (mdivs (madd (mdivs D a) (np_T (mdivs D a))) b)).
  { intros D a b HD Hsq. apply wf_mdivs. unfold wf, madd. simpl.
    apply wf_zip_vadd; [apply (wf_mdivs D a HD)|].
    pose proof (wf_np_T (mdivs D a)) as HT. unfold wf in HT.
    rewrite ncols_np_T, nrows_mdivs, Hsq in HT. exact HT. }
  destruct dual.
  - destruct (np_dot X (np_T X)) as [D|] eqn:HD; [|discriminate]. simpl.
    intros [= <-]. apply np_dot_shape in HD as HS. destruct HS as [Hn Hd].
    rewrite ncols_np_T in Hd.
    apply Hfin; [eapply wf_np_dot; [apply wf_np_T|exact HD]|lia].
  - destruct (np_dot (np_T X) X) as [D|] eqn:HD; [|discriminate]. simpl.
    intros [= <-]. apply np_dot_shape in HD as HS. destruct HS as [Hn Hd].
    rewrite nrows_np_T in Hn.
    apply Hfin; [eapply wf_np_dot; [exact HX|exact HD]|lia].
Qed.

(** The columns [eigh] returns satisfy the eigenvector equation, cell by
    cell. *)
Lemma eigen_equation (C : ndarray R) w (V0 : ndarray R) a i :
  wf C -> eigendecomposition C w V0 ->
  sumn (ncols C) (fun k => cell C a k * cell V0 k i) = cell V0 a i * entry i w.
Proof.
  intros HC ((Hlen & HnV & HdV & HV) & Heq & _).
  rewrite <- (cell_np_dot C V0 _ a i HC HV Heq).
  destruct (decide (a < nrows V0)%nat) as [Ha|Ha].
  - unfold mul_cols. rewrite cell_map by done.
    rewrite entry_vmul; [done|]. rewrite wf_row by done. lia.
  - rewrite !cell_row_ge; [lra|lia|].
    unfold nrows, mul_cols in *. simpl. rewrite length_map. lia.
Qed.

(** The cells of the columns [eigenvalue_decomposition] selects. *)
Lemma cell_selected (V0 : ndarray R) (idx : list nat) a t :
  (t < length idx)%nat ->
  cell (Mat (length idx)
            (map (fun r => map (fun i => nth i r 0) idx) (rows V0))) a t
  = cell V0 a (nth t idx 0%nat).
Proof.
  intros Ht. destruct (decide (a < nrows V0)%nat) as [Ha|Ha].
  - rewrite cell_map by done. unfold cell, entry.
    rewrite (nth_indep _ 0 ((fun i => nth i (nth a (rows V0) []) 0) 0%nat))
      by (by rewrite length_map).
    by rewrite (map_nth (fun i => nth i (nth a (rows V0) []) 0)).
  - rewrite !cell_row_ge; [done|lia|].
    unfold nrows in *. simpl. rewrite length_map. lia.
Qed.

Lemma entry_selected (w : list R) (idx : list nat) t :
  (t < length idx)%nat ->
  entry t (map (fun i => nth i w 0) idx) = entry (nth t idx 0%nat) w.
Proof.
  intros Ht. unfold entry.
  rewrite (nth_indep _ 0 ((fun i => nth i w 0) 0%nat)) by (by rewrite length_map).
  by rewrite (map_nth (fun i => nth i w 0)).
Qed.


Lemma wf_selected (V0 : ndarray R) (idx : list nat) :
  wf (Mat (length idx) (map (fun r => map (fun i => nth i r 0) idx) (rows V0))).
Proof.
  unfold wf. simpl. apply Forall_map, Forall_forall. intros r _. simpl.
  by rewrite length_map.
Qed.

Lemma length_pca_mean (X : ndarray R) centre :
  wf X -> length (pca_mean X centre) = ncols X.
Proof.
  intros HX. unfold pca_mean. destruct centre.
  - by apply length_np_mean0.
  - apply length_np_zeros.
Qed.

Lemma cell_scale_rows (P U : ndarray R) ws t k :
  length ws = nrows P -> scale_rows P ws = Ok U ->
  cell U t k = entry t ws * cell P t k.
Proof.
  intros Hlen. unfold scale_rows. rewrite decide_True by done. intros [= <-].
  destruct (decide (t < nrows P)%nat) as [Ht|Ht].
  - unfold cell. simpl. unfold nrows in *.
    assert (E : nth t (zip_with vscale ws (rows P)) []
                = vscale (nth t ws 0) (nth t (rows P) [])).
    { clear -Hlen Ht. revert ws t Hlen Ht.
      induction (rows P) as [|r rs IH]; intros [|a ws] t Hlen Ht; simpl in *; try lia.
      destruct t; [done|]. apply IH; lia. }
    rewrite E. apply entry_vscale.
  - rewrite !cell_row_ge; [lra|lia|].
    unfold nrows in *. simpl. rewrite length_zip_with. lia.
Qed.

(** What [pca] returns satisfies the eigenvector equation of the
    covariance matrix of the centred data, in both regimes. *)
Lemma pca_values_eigenpairs
    (eigh : ndarray R -> option (list R * ndarray R))
    (X : ndarray R) (centre : bool) (eps : R) (U : ndarray R) (l m : list R) :
  eigh_correct eigh -> wf X -> (2 <= nrows X)%nat ->
  pca_values eigh X centre eps = Ok (U, l, m) ->
  forall t j, (t < length l)%nat ->
    sumn (ncols X) (fun k => gram (sub_row X (pca_mean X centre)) j k * cell U t k)
    = IZR (Z.of_nat (nrows X) - 1) * (entry t l * cell U t j).
Proof.
  intros Heigh HX Hn Hv t j Ht.
  set (Xc := sub_row X (pca_mean X centre)) in *.
  assert (HXc : wf Xc) by (apply wf_sub_row; [done|by apply length_pca_mean]).
  assert (HnXc : nrows Xc = nrows X) by apply nrows_sub_row.
  assert (Hn1 : IZR (Z.of_nat (nrows X) - 1) <> 0).
  { apply not_0_IZR. lia. }
  unfold pca_values in Hv. fold Xc in Hv.
  destruct (ncols X <? nrows X)%nat eqn:Hreg.
  - (* primal regime *)
    destruct (covariance false Xc) as [C|] eqn:HC; [|discriminate]. simpl in Hv.
    destruct (eigenvalue_decomposition eigh C eps) as [[V l0]|] eqn:HE; [|discriminate].
    simpl in Hv. injection Hv as <- <- <-.
    apply eigenvalue_decomposition_columns in HE
      as (w & V0 & mx & Hw & _ & Hl & HV). simpl in Hl, HV.
    set (idx := kept_indices w (mx * eps)) in *.
    assert (Hti : (t < length idx)%nat) by (subst l0; by rewrite length_map in Ht).
    pose proof (Heigh _ _ _ Hw) as Hdec.
    pose proof (wf_covariance false Xc C HXc HC) as HwC.
    destruct (covariance_ok false Xc) as (C' & HC' & _ & HdC).
    rewrite HC in HC'. injection HC' as <-. simpl in HdC.
    change (ncols Xc) with (ncols X) in HdC.
    rewrite (sumn_ext _ _ (fun k => IZR (Z.of_nat (nrows X) - 1)
               * (cell C j k * cell V0 k (nth t idx 0%nat)))).
    2:{ intros k _. rewrite (covariance_cells false Xc C j k HXc HC), HnXc.
        subst V. rewrite cell_np_T by apply wf_selected.
        rewrite cell_selected by done. field. exact Hn1. }
    rewrite sumn_scale, <- HdC, (eigen_equation C w V0 j _ HwC Hdec).
    subst V l0. rewrite cell_np_T by apply wf_selected.
    rewrite cell_selected, entry_selected by done. lra.
  - (* dual regime *)
    destruct (covariance true Xc) as [C|] eqn:HC; [|discriminate]. simpl in Hv.
    destruct (eigenvalue_decomposition eigh C eps) as [[V l0]|] eqn:HE; [|discriminate].
    simpl in Hv.
    destruct (np_dot (np_T V) Xc) as [P|] eqn:HP; [|discriminate]. simpl in Hv.
    destruct (scale_rows P _) as [Y|] eqn:HY; [|discriminate]. simpl in Hv.
    injection Hv as <- <- <-.
    apply eigenvalue_decomposition_columns in HE
      as (w & V0 & mx & Hw & _ & Hl & HV). simpl in Hl, HV.
    set (idx := kept_indices w (mx * eps)) in *.
    assert (Hti : (t < length idx)%nat) by (subst l0; by rewrite length_map in Ht).
    pose proof (Heigh _ _ _ Hw) as Hdec.
    pose proof (wf_covariance true Xc C HXc HC) as HwC.
    destruct (covariance_ok true Xc) as (C' & HC' & HnC & HdC).
    rewrite HC in HC'. injection HC' as <-. simpl in HdC, HnC.
    rewrite HnXc in HdC, HnC.
    destruct Hdec as [(Hlen & HnV & HdV & HwV) Hrest].
    pose proof (conj (conj Hlen (conj HnV (conj HdV HwV))) Hrest) as Hdec.
    assert (HwVs : wf V) by (subst V; apply wf_selected).
    assert (HnVs : nrows V = nrows X).
    { subst V. unfold nrows at 1. simpl. rewrite length_map. fold (nrows V0). lia. }
    apply np_dot_shape in HP as HS. destruct HS as [HnP HdP].
    rewrite nrows_np_T in HnP.
    assert (HdVs : ncols V = length idx) by (by subst V).
    assert (Hws : length (dual_scaling (nrows X) l0) = nrows P).
    { rewrite length_dual_scaling. subst l0. rewrite length_map. lia. }
    assert (EP : forall k, cell P t k
               = sumn (nrows X) (fun a => cell V0 a (nth t idx 0%nat) * cell Xc a k)).
    { intros k. rewrite (cell_np_dot _ _ P t k (wf_np_T V) HXc HP).
      rewrite ncols_np_T, HnVs. apply sumn_ext. intros a _.
      rewrite cell_np_T by done. subst V. by rewrite cell_selected. }
    rewrite !(cell_scale_rows P Y _ t _ Hws HY).
    set (ws := entry t (dual_scaling (nrows X) l0)).
    set (v := fun a => cell V0 a (nth t idx 0%nat)).
    transitivity (ws * sumn (nrows X) (fun a => cell Xc a j *
                    sumn (nrows X) (fun b =>
                      IZR (Z.of_nat (nrows X) - 1) * (cell C a b * v b)))).
    { rewrite <- sumn_scale.
      rewrite (sumn_ext _ _ (fun k => sumn (nrows X) (fun a =>
                 sumn (nrows X) (fun b =>
                   ws * (cell Xc a j * cell Xc a k * (v b * cell Xc b k)))))).
      2:{ intros k _. rewrite (cell_scale_rows P Y _ t k Hws HY). fold ws.
          rewrite gram_sumn, HnXc, EP.
          rewrite <- sumn_scale_r. apply sumn_ext. intros a _.
          rewrite <- !sumn_scale. apply sumn_ext. intros b _. unfold v. lra. }
      rewrite sumn_swap. apply sumn_ext. intros a _.
      rewrite sumn_swap. rewrite <- !sumn_scale. apply sumn_ext. intros b _.
      rewrite (sumn_ext _ _ (fun k => ws * cell Xc a j * v b
                 * (cell (np_T Xc) k a * cell (np_T Xc) k b))).
      2:{ intros k _. rewrite !cell_np_T by done. lra. }
      rewrite sumn_scale.
      rewrite (covariance_cells true Xc C a b HXc HC), HnXc.
      rewrite gram_sumn, nrows_np_T. change (ncols Xc) with (ncols X).
      field. exact Hn1. }
    rewrite (sumn_ext _ _ (fun a => cell Xc a j *
               (IZR (Z.of_nat (nrows X) - 1) * (v a * entry (nth t idx 0%nat) w)))).
    2:{ intros a _. rewrite sumn_scale, <- HdC.
        unfold v. by rewrite (eigen_equation C w V0 a _ HwC Hdec). }
    rewrite EP. subst l0. rewrite entry_selected by done.
    rewrite <- !sumn_scale. apply sumn_ext. intros a _. unfold v. lra.
Qed.


Lemma entry_dual_scaling (n : nat) (l : list R) t :
  (t < length l)%nat ->
  entry t (dual_scaling n l)
  = R_sqrt.sqrt (1 / (IZR (Z.of_nat n - 1) * entry t l)).
Proof.
  intros Ht. unfold dual_scaling, entry.
  rewrite (nth_indep _ 0 ((fun x => f_sqrt (f_div f_one
             (f_mul (f_of_Z (Z.of_nat n - 1)) x))) 0)) by (by rewrite length_map).
  by rewrite (map_nth (fun x => f_sqrt (f_div f_one (f_mul (f_of_Z (Z.of_nat n - 1)) x)))).
Qed.

Lemma kept_indices_NoDup (w : list R) limit : NoDup (kept_indices w limit).
Proof.
  apply (sublist_NoDup _ (reverse (np_argsort w)));
    [apply argsort_NoDup|apply kept_indices_sublist].
Qed.

Lemma kept_indices_distinct (w : list R) limit t t' :
  (t < length (kept_indices w limit))%nat ->
  (t' < length (kept_indices w limit))%nat ->
  t <> t' ->
  nth t (kept_indices w limit) 0%nat <> nth t' (kept_indices w limit) 0%nat.
Proof.
  intros Ht Ht' Hne E. apply Hne.
  pose proof (kept_indices_NoDup w limit) as Hnd.
  apply NoDup_ListNoDup in Hnd.
  by apply (proj1 (List.NoDup_nth _ 0%nat) Hnd).
Qed.

(** The rows of [U] are orthonormal: in the dual regime the scaling
    [w = sqrt(1 / ((n - 1) l))] brings the rows of [V.T X] to unit length,
    and they are orthogonal because the columns of [V] are eigenvectors of
    [X X.T]. *)
Lemma pca_values_orthonormal_rows
    (eigh : ndarray R -> option (list R * ndarray R))
    (X : ndarray R) (centre : bool) (eps : R) (U : ndarray R) (l m : list R) :
  eigh_correct eigh -> orthonormal_columns eigh -> wf X -> (2 <= nrows X)%nat ->
  pca_values eigh X centre eps = Ok (U, l, m) ->
  forall t t', (t < length l)%nat -> (t' < length l)%nat ->
    sumn (ncols X) (fun k => cell U t k * cell U t' k)
    = if decide (t = t') then 1 else 0.
Proof.
  intros Heigh Horth HX Hn Hv t t' Ht Ht'.
  pose proof Hv as Hinv.
  apply pca_values_inv in Hinv as (_ & w' & _ & mx' & _ & _ & _ & Hpos & _ & _).
  assert (Hall : forall s, (s < length l)%nat -> 0 < entry s l).
  { intros s Hs.
    pose proof (pos_eigenvalues_positive (eigenvalues_desc w') (f_mul mx' eps)) as G.
    rewrite <- Hpos in G. rewrite Forall_forall in G.
    apply G, list_elem_of_In, nth_In. exact Hs. }
  set (Xc := sub_row X (pca_mean X centre)) in *.
  assert (HXc : wf Xc) by (apply wf_sub_row; [done|by apply length_pca_mean]).
  assert (HnXc : nrows Xc = nrows X) by apply nrows_sub_row.
  assert (Hn1 : 0 < IZR (Z.of_nat (nrows X) - 1)).
  { apply IZR_lt. lia. }
  unfold pca_values in Hv. fold Xc in Hv.
  destruct (ncols X <? nrows X)%nat eqn:Hreg.
  - destruct (covariance false Xc) as [C|] eqn:HC; [|discriminate]. simpl in Hv.
    destruct (eigenvalue_decomposition eigh C eps) as [[V l0]|] eqn:HE; [|discriminate].
    simpl in Hv. injection Hv as <- <- <-.
    apply eigenvalue_decomposition_columns in HE
      as (w & V0 & mx & Hw & _ & Hl & HV). simpl in Hl, HV.
    set (idx := kept_indices w (mx * eps)) in *.
    assert (Hlen_idx : length l0 = length idx) by (subst l0; by rewrite length_map).
    rewrite Hlen_idx in Ht, Ht'.
    destruct (Heigh _ _ _ Hw) as [(Hlen & HnV & HdV & HwV) _].
    destruct (covariance_ok false Xc) as (C' & HC' & HnC & _).
    rewrite HC in HC'. injection HC' as <-. simpl in HnC.
    change (ncols Xc) with (ncols X) in HnC.
    assert (Hb : forall s, (s < length idx)%nat -> (nth s idx 0 < length w)%nat).
    { intros s Hs.
      pose proof (kept_indices_bound w (mx * eps)) as G. rewrite Forall_forall in G.
      apply G, list_elem_of_In, nth_In. exact Hs. }
    transitivity (gram V0 (nth t idx 0%nat) (nth t' idx 0%nat)).
    { rewrite gram_sumn, HnV, HnC.
      apply sumn_ext. intros k _. subst V.
      rewrite !cell_np_T by apply wf_selected. by rewrite !cell_selected. }
    rewrite (Horth _ _ _ Hw _ _ (Hb _ Ht) (Hb _ Ht')).
    destruct (decide (t = t')) as [->|Hne].
    + by rewrite decide_True.
    + rewrite decide_False; [done|]. by apply kept_indices_distinct.
  - destruct (covariance true Xc) as [C|] eqn:HC; [|discriminate]. simpl in Hv.
    destruct (eigenvalue_decomposition eigh C eps) as [[V l0]|] eqn:HE; [|discriminate].
    simpl in Hv.
    destruct (np_dot (np_T V) Xc) as [P|] eqn:HP; [|discriminate]. simpl in Hv.
    destruct (scale_rows P _) as [Y|] eqn:HY; [|discriminate]. simpl in Hv.
    injection Hv as <- <- <-.
    apply eigenvalue_decomposition_columns in HE
      as (w & V0 & mx & Hw & _ & Hl & HV). simpl in Hl, HV.
    set (idx := kept_indices w (mx * eps)) in *.
    assert (Hlen_idx : length l0 = length idx) by (subst l0; by rewrite length_map).
    pose proof (Heigh _ _ _ Hw) as Hdec.
    pose proof (wf_covariance true Xc C HXc HC) as HwC.
    destruct (covariance_ok true Xc) as (C' & HC' & HnC & HdC).
    rewrite HC in HC'. injection HC' as <-. simpl in HdC, HnC.
    rewrite HnXc in HdC, HnC.
    destruct Hdec as [(Hlen & HnV & HdV & HwV) Hrest].
    pose proof (conj (conj Hlen (conj HnV (conj HdV HwV))) Hrest) as Hdec.
    assert (HwVs : wf V) by (subst V; apply wf_selected).
    assert (HnVs : nrows V = nrows X).
    { subst V. unfold nrows at 1. simpl. rewrite length_map. fold (nrows V0). lia. }
    apply np_dot_shape in HP as HS. destruct HS as [HnP HdP].
    rewrite nrows_np_T in HnP.
    assert (HdVs : ncols V = length idx) by (by subst V).
    assert (Hws : length (dual_scaling (nrows X) l0) = nrows P).
    { rewrite length_dual_scaling. lia. }
    assert (Hb : forall s, (s < length l0)%nat -> (nth s idx 0 < length w)%nat).
    { intros s Hs. rewrite Hlen_idx in Hs.
      pose proof (kept_indices_bound w (mx * eps)) as G. rewrite Forall_forall in G.
      apply G, list_elem_of_In, nth_In. exact Hs. }
    set (v := fun s a => cell V0 a (nth s idx 0%nat)).
    assert (EP : forall s k, (s < length idx)%nat ->
              cell P s k = sumn (nrows X) (fun a => v s a * cell Xc a k)).
    { intros s k Hs. rewrite (cell_np_dot _ _ P s k (wf_np_T V) HXc HP).
      rewrite ncols_np_T, HnVs. apply sumn_ext. intros a _.
      rewrite cell_np_T by done. subst V. by rewrite cell_selected. }
    assert (Hvv : sumn (nrows X) (fun a => v t a * v t' a)
                  = if decide (t = t') then 1 else 0).
    { transitivity (gram V0 (nth t idx 0%nat) (nth t' idx 0%nat)).
      { rewrite gram_sumn, HnV, HnC. reflexivity. }
      rewrite (Horth _ _ _ Hw _ _ (Hb _ Ht) (Hb _ Ht')).
      destruct (decide (t = t')) as [->|Hne].
      - by rewrite decide_True.
      - rewrite decide_False; [done|].
        apply kept_indices_distinct; [fold idx; lia|fold idx; lia|done]. }
    set (ws := fun s => entry s (dual_scaling (nrows X) l0)).
    assert (Hws2 : ws t' * ws t' * (IZR (Z.of_nat (nrows X) - 1) * entry t' l0) = 1).
    { unfold ws. rewrite entry_dual_scaling by done.
      rewrite sqrt_sqrt.
      - field. split; [|lra]. apply Rgt_not_eq. by apply Hall.
      - apply Rlt_le, Rdiv_lt_0_compat; [lra|].
        apply Rmult_lt_0_compat; [done|by apply Hall]. }
    assert (Hlt' : entry t' l0 = entry (nth t' idx 0%nat) w).
    { subst l0. apply entry_selected. lia. }
    transitivity (ws t * ws t' * sumn (nrows X) (fun a => v t a *
                    sumn (nrows X) (fun b =>
                      IZR (Z.of_nat (nrows X) - 1) * (cell C a b * v t' b)))).
    { rewrite <- sumn_scale.
      rewrite (sumn_ext _ _ (fun k => sumn (nrows X) (fun a =>
                 sumn (nrows X) (fun b =>
                   ws t * ws t' * (v t a * cell Xc a k * (v t' b * cell Xc b k)))))).
      2:{ intros k _.
          rewrite (cell_scale_rows P Y _ t k Hws HY).
          rewrite (cell_scale_rows P Y _ t' k Hws HY). fold (ws t) (ws t').
          rewrite !EP by lia.
          transitivity (ws t * ws t' * (sumn (nrows X) (fun a => v t a * cell Xc a k)
                                   * sumn (nrows X) (fun a => v t' a * cell Xc a k)));
            [lra|].
          rewrite sumn_mul, <- sumn_scale. apply sumn_ext. intros a _.
          rewrite <- sumn_scale. apply sumn_ext. intros b _. lra. }
      rewrite sumn_swap. apply sumn_ext. intros a _.
      rewrite sumn_swap. rewrite <- !sumn_scale. apply sumn_ext. intros b _.
      rewrite (sumn_ext _ _ (fun k => ws t * ws t' * v t a * v t' b
                 * (cell (np_T Xc) k a * cell (np_T Xc) k b))).
      2:{ intros k _. rewrite !cell_np_T by done. lra. }
      rewrite sumn_scale.
      rewrite (covariance_cells true Xc C a b HXc HC), HnXc.
      rewrite gram_sumn, nrows_np_T. change (ncols Xc) with (ncols X).
      field. lra. }
    rewrite (sumn_ext _ _ (fun a =>
               IZR (Z.of_nat (nrows X) - 1) * entry t' l0 * (v t a * v t' a))).
    2:{ intros a _. rewrite sumn_scale, <- HdC.
        unfold v. rewrite (eigen_equation C w V0 a _ HwC Hdec), Hlt'. lra. }
    rewrite sumn_scale, Hvv.
    destruct (decide (t = t')) as [->|Hne]; [|lra].
    transitivity (ws t' * ws t' * (IZR (Z.of_nat (nrows X) - 1) * entry t' l0));
      [lra|done].
Qed.

End Eigenpairs.

Section EigenpairTheorems.
Open Scope R_scope.

(** [pca] returns eigenvectors of the covariance matrix: with [Xc] the
    data minus the mean [pca] subtracted, [n >= 2] samples and an exact
    [eigh], every returned row [u] of [U] and its eigenvalue [x] in [l]
    satisfy [(Xc.T Xc) u = (n - 1) x u], in the primal and in the dual
    regime alike. *)
Theorem pca_rows_are_eigenvectors
    (eigh : ndarray R -> option (list R * ndarray R))
    (σ : heap R) (x : nat) (X : ndarray R) (centre inplace : bool) (eps : R)
    (rU rl rm : ref) (σ' : heap R) (U : ndarray R) (l : list R) :
  eigh_correct eigh -> wf X -> (2 <= nrows X)%nat ->
  σ !! x = Some (A2 X) ->
  pca eigh (Whole x) centre inplace eps σ = (Ok (rU, rl, rm), σ') ->
  deref2 σ' rU = Ok U -> deref1 σ' rl = Ok l ->
  forall t j, (t < length l)%nat ->
    sumn (ncols X) (fun k => gram (sub_row X (pca_mean X centre)) j k * cell U t k)
    = IZR (Z.of_nat (nrows X) - 1) * (entry t l * cell U t j).
Proof.
  intros Heigh HX Hn Hx Hrun HU Hl.
  destruct (pca_returns eigh σ x X centre inplace eps _ _ _ _ Hx Hrun)
    as (U' & l' & m & Hv & HU' & Hl' & _).
  rewrite HU in HU'. injection HU' as <-.
  rewrite Hl in Hl'. injection Hl' as <-.
  by apply (pca_values_eigenpairs eigh X centre eps U l m).
Qed.

(** The rows [pca] returns are orthonormal when the eigenvectors of [eigh]
    are (and [eigh] is exact, [n >= 2]): [U U.T] is the identity, in the
    primal and in the dual regime alike; in the dual regime the scaling
    [w = sqrt(1 / ((n - 1) l))] is what brings the rows of [V.T X] to unit
    length. *)
Theorem pca_rows_are_orthonormal
    (eigh : ndarray R -> option (list R * ndarray R))
    (σ : heap R) (x : nat) (X : ndarray R) (centre inplace : bool) (eps : R)
    (rU rl rm : ref) (σ' : heap R) (U : ndarray R) (l : list R) :
  eigh_correct eigh -> orthonormal_columns eigh -> wf X -> (2 <= nrows X)%nat ->
  σ !! x = Some (A2 X) ->
  pca eigh (Whole x) centre inplace eps σ = (Ok (rU, rl, rm), σ') ->
  deref2 σ' rU = Ok U -> deref1 σ' rl = Ok l ->
  forall t t', (t < length l)%nat -> (t' < length l)%nat ->
    sumn (ncols X) (fun k => cell U t k * cell U t' k)
    = if decide (t = t') then 1 else 0.
Proof.
  intros Heigh Horth HX Hn Hx Hrun HU Hl.
  destruct (pca_returns eigh σ x X centre inplace eps _ _ _ _ Hx Hrun)
    as (U' & l' & m & Hv & HU' & Hl' & _).
  rewrite HU in HU'. injection HU' as <-.
  rewrite Hl in Hl'. injection Hl' as <-.
  by apply (pca_values_orthonormal_rows eigh X centre eps U l m).
Qed.

Lemma eigh_pair_orthonormal_columns : orthonormal_columns eigh_pair.
Proof.
  intros C w V HE i j Hi Hj.
  unfold eigh_pair in HE. destruct (decide _) as [->|]; [|discriminate].
  injection HE as <- <-.
  assert (Hs : / R_sqrt.sqrt 2 * / R_sqrt.sqrt 2 = / 2).
  { rewrite <- Rinv_mult, sqrt_sqrt by lra. done. }
  destruct i as [|[|i]]; [| |simpl in Hi; lia];
    (destruct j as [|[|j]]; [| |simpl in Hj; lia]);
    unfold gram, dotp, Rsum; simpl; lra.
Qed.

Lemma wf_X_pair : wf X_pair.
Proof. unfold wf. simpl. repeat constructor. Qed.

Lemma pca_rows_are_eigenvectors_witness :
  exists U : ndarray R,
    forall t j, (t < length [2])%nat ->
      sumn (ncols X_pair)
        (fun k => gram (sub_row X_pair (pca_mean X_pair true)) j k * cell U t k)
      = IZR (Z.of_nat (nrows X_pair) - 1) * (entry t [2] * cell U t j).
Proof.
  destruct (pca_pair [A2 X_pair] 0 false (/ 2) eq_refl)
    as (rU & rl & rm & σ' & U & Hrun & Hl & HU).
  destruct (Rlt_dec (/ 2) 1) as [_|Hn]; [|exfalso; lra].
  exists U.
  apply (pca_rows_are_eigenvectors eigh_pair [A2 X_pair] 0 X_pair true false (/ 2)
           rU rl rm σ' U [2] eigh_pair_correct wf_X_pair);
    [unfold nrows; simpl; lia|reflexivity|exact Hrun|exact HU|exact Hl].
Defined.

Lemma pca_rows_are_orthonormal_witness :
  exists U : ndarray R,
    forall t t', (t < length [2])%nat -> (t' < length [2])%nat ->
      sumn (ncols X_pair) (fun k => cell U t k * cell U t' k)
      = if decide (t = t') then 1 else 0.
Proof.
  destruct (pca_pair [A2 X_pair] 0 false (/ 2) eq_refl)
    as (rU & rl & rm & σ' & U & Hrun & Hl & HU).
  destruct (Rlt_dec (/ 2) 1) as [_|Hn]; [|exfalso; lra].
  exists U.
  apply (pca_rows_are_orthonormal eigh_pair [A2 X_pair] 0 X_pair true false (/ 2)
           rU rl rm σ' U [2] eigh_pair_correct eigh_pair_orthonormal_columns
           wf_X_pair);
    [unfold nrows; simpl; lia|reflexivity|exact Hrun|exact HU|exact Hl].
Defined.

End EigenpairTheorems.

(* ================================================================== *)
(** ** Translations and the order of the samples *)

Section Invariance.
Open Scope R_scope.

Lemma mat_ext (A B : ndarray R) :
  wf A -> wf B -> nrows A = nrows B -> ncols A = ncols B ->
  (forall i j, cell A i j = cell B i j) -> A = B.
Proof.
  destruct A as [dA rA], B as [dB rB]. unfold wf, nrows. simpl.
  intros HA HB Hn Hd Hc. subst dB. f_equal.
  apply (nth_ext rA rB [] [] Hn). intros i Hi.
  apply entry_ext.
  - rewrite Forall_forall in HA, HB.
    rewrite (HA (nth i rA [])) by (apply list_elem_of_In, nth_In; lia).
    rewrite (HB (nth i rB [])) by (apply list_elem_of_In, nth_In; lia). done.
  - intros j _. apply (Hc i j).
Qed.

Lemma wf_add_row (X : ndarray R) c : wf X -> length c = ncols X -> wf (add_row X c).
Proof.
  intros HX Hc. unfold wf, add_row. simpl. apply Forall_map.
  eapply Forall_impl; [exact HX|]. intros r Hr. simpl in *.
  rewrite length_vadd. lia.
Qed.

Lemma nrows_add_row (X : ndarray R) c : nrows (add_row X c) = nrows X.
Proof. unfold nrows, add_row. simpl. apply length_map. Qed.

Lemma cell_add_row (X : ndarray R) c i j :
  wf X -> length c = ncols X -> (i < nrows X)%nat ->
  cell (add_row X c) i j = cell X i j + entry j c.
Proof.
  intros HX Hc Hi. unfold add_row. rewrite cell_map by done.
  apply entry_vadd. rewrite wf_row by done. lia.
Qed.

Lemma mean_add_row (X : ndarray R) c :
  wf X -> length c = ncols X -> nrows X <> 0%nat ->
  np_mean0 (add_row X c) = vadd (np_mean0 X) c.
Proof.
  intros HX Hc Hn.
  pose proof (wf_add_row X c HX Hc) as HX'.
  assert (P : 0 < IZR (Z.of_nat (nrows X))) by (apply IZR_lt; lia).
  apply entry_ext.
  - rewrite length_vadd, !length_np_mean0 by done. simpl. lia.
  - intros j _. rewrite entry_vadd by (rewrite length_np_mean0; done).
    rewrite !entry_np_mean0 by done. rewrite !colsum_sumn, nrows_add_row.
    rewrite (sumn_ext _ _ (fun i => cell X i j + entry j c))
      by (intros i Hi; by apply cell_add_row).
    rewrite sumn_plus, sumn_const. field. lra.
Qed.

(** Centring removes a shift of the data. *)
Lemma centred_add_row (X : ndarray R) c :
  wf X -> length c = ncols X -> nrows X <> 0%nat ->
  sub_row (add_row X c) (np_mean0 (add_row X c)) = sub_row X (np_mean0 X).
Proof.
  intros HX Hc Hn.
  pose proof (wf_add_row X c HX Hc) as HX'.
  apply mat_ext.
  - apply wf_sub_row; [done|]. by apply length_np_mean0.
  - apply wf_sub_row; [done|]. by apply length_np_mean0.
  - by rewrite !nrows_sub_row, nrows_add_row.
  - done.
  - intros i j. destruct (decide (i < nrows X)%nat) as [Hi|Hi].
    + rewrite (cell_sub_row (add_row X c))
        by (done || (by apply length_np_mean0) || (by rewrite nrows_add_row)).
      rewrite (cell_sub_row X) by (done || by apply length_np_mean0).
      rewrite cell_add_row, mean_add_row by done.
      rewrite entry_vadd by (rewrite length_np_mean0; done). lra.
    + rewrite !cell_row_ge; [done|rewrite nrows_sub_row; lia|].
      rewrite nrows_sub_row, nrows_add_row. lia.
Qed.

Lemma pca_values_add_row
    (eigh : ndarray R -> option (list R * ndarray R))
    (X : ndarray R) (c : list R) (eps : R) :
  wf X -> length c = ncols X -> nrows X <> 0%nat ->
  pca_values eigh (add_row X c) true eps
  = '(U, l, m) ← pca_values eigh X true eps; mret (U, l, vadd m c).
Proof.
  intros HX Hc Hn. unfold pca_values, pca_mean.
  rewrite centred_add_row, nrows_add_row by done.
  change (ncols (add_row X c)) with (ncols X).
  rewrite mean_add_row by done.
  destruct (ncols X <? nrows X)%nat.
  - destruct (covariance false _) as [C|]; [|done]. simpl.
    by destruct (eigenvalue_decomposition eigh C eps) as [[V l]|].
  - destruct (covariance true _) as [C|]; [|done]. simpl.
    destruct (eigenvalue_decomposition eigh C eps) as [[V l]|]; [|done]. simpl.
    destruct (np_dot _ _) as [P|]; [|done]. simpl.
    by destruct (scale_rows _ _) as [Y|].
Qed.


Lemma Rsum_Permutation (u v : list R) : Permutation u v -> Rsum u = Rsum v.
Proof.
  unfold Rsum. induction 1; simpl; lra.
Qed.

Lemma gram_rows (X : ndarray R) j k :
  gram X j k = Rsum (map (fun r => entry j r * entry k r) (rows X)).
Proof.
  unfold gram, dotp, col, Rsum, entry.
  induction (rows X) as [|r rs IH]; simpl in *; [done|]. by rewrite IH.
Qed.

Lemma gram_Permutation (X Y : ndarray R) j k :
  Permutation (rows X) (rows Y) -> gram X j k = gram Y j k.
Proof.
  intros HP. rewrite !gram_rows. apply Rsum_Permutation.
  by apply Permutation_map.
Qed.

Lemma mean_Permutation (X Y : ndarray R) :
  wf X -> ncols X = ncols Y -> Permutation (rows X) (rows Y) ->
  np_mean0 X = np_mean0 Y.
Proof.
  intros HX Hd HP.
  assert (HY : wf Y).
  { unfold wf in *. rewrite <- Hd. by rewrite <- HP. }
  assert (Hn : nrows X = nrows Y) by (apply Permutation_length, HP).
  apply entry_ext.
  - rewrite !length_np_mean0 by done. done.
  - intros j _. rewrite !entry_np_mean0 by done. rewrite Hn. f_equal.
    unfold col. apply Rsum_Permutation. by apply Permutation_map.
Qed.

(** In the primal regime the covariance matrix does not see the order of
    the samples. *)
Lemma covariance_Permutation (X Y : ndarray R) :
  wf X -> ncols X = ncols Y -> Permutation (rows X) (rows Y) ->
  covariance false X = covariance false Y.
Proof.
  intros HX Hd HP.
  assert (HY : wf Y).
  { unfold wf in *. rewrite <- Hd. by rewrite <- HP. }
  assert (Hn : nrows X = nrows Y) by (apply Permutation_length, HP).
  destruct (covariance_ok false X) as (C & HC & HnC & HdC).
  destruct (covariance_ok false Y) as (D & HD & HnD & HdD).
  rewrite HC, HD. f_equal. apply mat_ext.
  - apply (wf_covariance false X C HX HC).
  - apply (wf_covariance false Y D HY HD).
  - lia.
  - lia.
  - intros a b.
    rewrite (covariance_cells false X C a b HX HC).
    rewrite (covariance_cells false Y D a b HY HD).
    by rewrite Hn, (gram_Permutation X Y a b HP).
Qed.

Lemma pca_values_Permutation
    (eigh : ndarray R -> option (list R * ndarray R))
    (X Y : ndarray R) (centre : bool) (eps : R) :
  wf X -> ncols X = ncols Y -> Permutation (rows X) (rows Y) ->
  (ncols X < nrows X)%nat ->
  pca_values eigh Y centre eps = pca_values eigh X centre eps.
Proof.
  intros HX Hd HP Hreg.
  assert (Hn : nrows X = nrows Y) by (apply Permutation_length, HP).
  assert (Hm : pca_mean Y centre = pca_mean X centre).
  { unfold pca_mean. destruct centre; [|by rewrite Hd].
    symmetry. by apply mean_Permutation. }
  unfold pca_values. rewrite Hm, <- Hd, <- Hn.
  replace (ncols X <? nrows X)%nat with true by (symmetry; apply Nat.ltb_lt; lia).
  rewrite (covariance_Permutation (sub_row X (pca_mean X centre))
             (sub_row Y (pca_mean X centre))); [done| |done|].
  - apply wf_sub_row; [done|by apply length_pca_mean].
  - unfold sub_row. simpl. by apply Permutation_map.
Qed.

(** Adding the same vector [c] to every sample changes nothing of what
    centred [pca] returns but the mean, which moves by [c]. *)
Theorem pca_translation_invariant
    (eigh : ndarray R -> option (list R * ndarray R))
    (σ1 σ2 : heap R) (x1 x2 : nat) (X : ndarray R) (c : list R)
    (inplace1 inplace2 : bool) (eps : R) :
  wf X -> length c = ncols X -> nrows X <> 0%nat ->
  σ1 !! x1 = Some (A2 X) -> σ2 !! x2 = Some (A2 (add_row X c)) ->
  exists r1 τ1 r2 τ2,
    pca eigh (Whole x1) true inplace1 eps σ1 = (r1, τ1) /\
    pca eigh (Whole x2) true inplace2 eps σ2 = (r2, τ2) /\
    match r1 with
    | Ok (rU, rl, rm) =>
        exists rU' rl' rm' U l m,
          r2 = Ok (rU', rl', rm') /\
          deref2 τ1 rU = Ok U /\ deref2 τ2 rU' = Ok U /\
          deref1 τ1 rl = Ok l /\ deref1 τ2 rl' = Ok l /\
          deref1 τ1 rm = Ok m /\ deref1 τ2 rm' = Ok (vadd m c)
    | Raise e => r2 = Raise e
    end.
Proof.
  intros HX Hc Hn Hx1 Hx2.
  destruct (pca_run eigh σ1 x1 X true inplace1 eps Hx1) as (r1 & τ1 & Hr1 & H1).
  destruct (pca_run eigh σ2 x2 (add_row X c) true inplace2 eps Hx2)
    as (r2 & τ2 & Hr2 & H2).
  exists r1, τ1, r2, τ2. split; [done|]. split; [done|].
  rewrite (pca_values_add_row eigh X c eps HX Hc Hn) in H2.
  destruct (pca_values eigh X true eps) as [[[U l] m]|e]; simpl in H2.
  - destruct H1 as [(rU & rl & rm & -> & HU & Hl & Hm) _].
    destruct H2 as [(rU' & rl' & rm' & -> & HU' & Hl' & Hm') _].
    by exists rU', rl', rm', U, l, m.
  - destruct H1 as [-> _]. by destruct H2 as [-> _].
Qed.

(** With more samples than dimensions, and in exact arithmetic, [pca]
    does not depend on the order of the samples. *)
Theorem pca_sample_order_irrelevant
    (eigh : ndarray R -> option (list R * ndarray R))
    (σ1 σ2 : heap R) (x1 x2 : nat) (X Y : ndarray R)
    (centre inplace1 inplace2 : bool) (eps : R) :
  wf X -> ncols X = ncols Y -> Permutation (rows X) (rows Y) ->
  (ncols X < nrows X)%nat ->
  σ1 !! x1 = Some (A2 X) -> σ2 !! x2 = Some (A2 Y) ->
  exists r1 τ1 r2 τ2,
    pca eigh (Whole x1) centre inplace1 eps σ1 = (r1, τ1) /\
    pca eigh (Whole x2) centre inplace2 eps σ2 = (r2, τ2) /\
    match r1 with
    | Ok (rU, rl, rm) =>
        exists rU' rl' rm' U l m,
          r2 = Ok (rU', rl', rm') /\
          deref2 τ1 rU = Ok U /\ deref2 τ2 rU' = Ok U /\
          deref1 τ1 rl = Ok l /\ deref1 τ2 rl' = Ok l /\
          deref1 τ1 rm = Ok m /\ deref1 τ2 rm' = Ok m
    | Raise e => r2 = Raise e
    end.
Proof.
  intros HX Hd HP Hreg Hx1 Hx2.
  destruct (pca_run eigh σ1 x1 X centre inplace1 eps Hx1) as (r1 & τ1 & Hr1 & H1).
  destruct (pca_run eigh σ2 x2 Y centre inplace2 eps Hx2) as (r2 & τ2 & Hr2 & H2).
  exists r1, τ1, r2, τ2. split; [done|]. split; [done|].
  rewrite (pca_values_Permutation eigh X Y centre eps HX Hd HP Hreg) in H2.
  destruct (pca_values eigh X centre eps) as [[[U l] m]|e].
  - destruct H1 as [(rU & rl & rm & -> & HU & Hl & Hm) _].
    destruct H2 as [(rU' & rl' & rm' & -> & HU' & Hl' & Hm') _].
    by exists rU', rl', rm', U, l, m.
  - destruct H1 as [-> _]. by destruct H2 as [-> _].
Qed.

End Invariance.

Section InvarianceExamples.
Open Scope R_scope.

Lemma wf_Y_old : wf Y_old.
Proof. unfold wf. simpl. repeat constructor. Qed.

Lemma wf_Y_all : wf Y_all.
Proof. unfold wf. simpl. repeat constructor. Qed.

Lemma pca_translation_invariant_witness :
  exists r1 τ1 r2 τ2,
    pca eigh_diagonal (Whole 0) true false (/ 2) [A2 Y_old] = (r1, τ1) /\
    pca eigh_diagonal (Whole 0) true true (/ 2) [A2 (add_row Y_old [5])]
      = (r2, τ2) /\
    match r1 with
    | Ok (rU, rl, rm) =>
        exists rU' rl' rm' U l m,
          r2 = Ok (rU', rl', rm') /\
          deref2 τ1 rU = Ok U /\ deref2 τ2 rU' = Ok U /\
          deref1 τ1 rl = Ok l /\ deref1 τ2 rl' = Ok l /\
          deref1 τ1 rm = Ok m /\ deref1 τ2 rm' = Ok (vadd m [5])
    | Raise e => r2 = Raise e
    end.
Proof.
  apply (pca_translation_invariant eigh_diagonal [A2 Y_old]
           [A2 (add_row Y_old [5])] 0 0 Y_old [5] false true (/ 2) wf_Y_old);
    [reflexivity|discriminate|reflexivity|reflexivity].
Defined.

Lemma pca_sample_order_irrelevant_witness :
  exists r1 τ1 r2 τ2,
    pca eigh_diagonal (Whole 0) true false (/ 2) [A2 Y_all] = (r1, τ1) /\
    pca eigh_diagonal (Whole 0) true false (/ 2) [A2 (Mat 1 [[5]; [1]; [3]])]
      = (r2, τ2) /\
    match r1 with
    | Ok (rU, rl, rm) =>
        exists rU' rl' rm' U l m,
          r2 = Ok (rU', rl', rm') /\
          deref2 τ1 rU = Ok U /\ deref2 τ2 rU' = Ok U /\
          deref1 τ1 rl = Ok l /\ deref1 τ2 rl' = Ok l /\
          deref1 τ1 rm = Ok m /\ deref1 τ2 rm' = Ok m
    | Raise e => r2 = Raise e
    end.
Proof.
  apply (pca_sample_order_irrelevant eigh_diagonal [A2 Y_all]
           [A2 (Mat 1 [[5]; [1]; [3]])] 0 0 Y_all (Mat 1 [[5]; [1]; [3]])
           true false false (/ 2) wf_Y_all);
    [reflexivity| |unfold nrows; simpl; lia|reflexivity|reflexivity].
  simpl. apply (Permutation_app_comm [[1]; [3]] [[5]]).
Defined.

End InvarianceExamples.

(* ================================================================== *)
(** ** Shapes *)

Section Shapes.
Context {F : Type} `{Scalar F}.
Implicit Types (X Y A B C V : ndarray F) (u v w : list F).

Lemma length_lincomb d (a : list F) (Bs : list (list F)) :
  Forall (fun b => length b = d) Bs -> length (lincomb d a Bs) = d.
Proof.
  intros HB. unfold lincomb.
  assert (G : forall ps acc, length acc = d ->
            Forall (fun p : F * list F => length p.2 = d) ps ->
            length (fold_left (fun acc p => vadd acc (vscale p.1 p.2)) ps acc) = d).
  { induction ps as [|p ps IH]; intros acc Hacc Hps; simpl; [done|].
    inversion Hps; subst. apply IH; [|done].
    rewrite length_vadd, length_vscale. lia. }
  apply G; [apply length_np_zeros|].
  rewrite combine_zip. apply Forall_forall. intros [x b] Hin.
  apply list_elem_of_lookup in Hin as [k Hk].
  apply lookup_zip_with_Some in Hk as (x' & b' & [= -> ->] & _ & Hb).
  rewrite Forall_forall in HB. apply HB. by eapply list_elem_of_lookup_2.
Qed.

Lemma np_dot_wf A B P : wf B -> np_dot A B = Ok P -> wf P.
Proof.
  intros HB. unfold np_dot. destruct (decide _); [|discriminate]. intros [= <-].
  unfold wf. simpl. apply Forall_map, Forall_forall. intros a _. simpl.
  by apply length_lincomb.
Qed.

Lemma scale_rows_wf X Y w : wf X -> scale_rows X w = Ok Y -> wf Y.
Proof.
  intros Hwf. unfold scale_rows.
  repeat destruct (decide _); try discriminate; intros [= <-]; unfold wf in *; simpl.
  - revert Hwf. generalize (rows X). clear. intros l Hl. revert w.
    induction Hl as [|r l Hr _ IH]; intros [|a w]; simpl; constructor.
    + by rewrite length_vscale.
    + apply IH.
  - apply Forall_map. eapply Forall_impl; [exact Hwf|]. intros r Hr. simpl.
    by rewrite length_vscale.
Qed.

Lemma sub_row_wf X m : wf X -> length m = ncols X -> wf (sub_row X m).
Proof.
  intros Hwf Hm. unfold wf, sub_row. simpl. apply Forall_map.
  eapply Forall_impl; [exact Hwf|]. intros r Hr. simpl in *.
  rewrite length_vsub. lia.
Qed.

Lemma pca_mean_length X centre : wf X -> length (pca_mean X centre) = ncols X.
Proof.
  intros HX. unfold pca_mean. destruct centre.
  - by apply length_np_mean0.
  - apply length_np_zeros.
Qed.

(** The shapes of what [pca] returns. *)
Lemma pca_values_shapes
    (eigh : ndarray F -> option (list F * ndarray F))
    X (centre : bool) (eps : F) U (l m : list F) :
  eigh_shapes eigh -> wf X ->
  pca_values eigh X centre eps = Ok (U, l, m) ->
  wf U /\ ncols U = ncols X /\ nrows U = length l /\ length m = ncols X.
Proof.
  intros Hsh HX Hv.
  pose proof (pca_values_inv eigh X centre eps U l m Hv)
    as (C0 & w0 & V00 & mx0 & HC0 & Hw0 & _ & _ & Hm & HnU).
  split_and!; [| |done|subst m; by apply pca_mean_length].
  - revert Hv. unfold pca_values.
    destruct (ncols X <? nrows X)%nat.
    + destruct (covariance false _) as [C|]; [|discriminate]. simpl.
      destruct (eigenvalue_decomposition eigh C eps) as [[V l0]|]; [|discriminate].
      simpl. intros [= <- _ _]. apply wf_np_T.
    + destruct (covariance true _) as [C|]; [|discriminate]. simpl.
      destruct (eigenvalue_decomposition eigh C eps) as [[V l0]|]; [|discriminate].
      simpl. destruct (np_dot _ _) as [P|] eqn:HP; [|discriminate]. simpl.
      destruct (scale_rows _ _) as [Y|] eqn:HY; [|discriminate]. simpl.
      intros [= <- _ _]. eapply scale_rows_wf; [|exact HY].
      eapply np_dot_wf; [|exact HP]. apply sub_row_wf; [done|by apply pca_mean_length].
  - revert Hv HC0. unfold pca_values.
    destruct (ncols X <? nrows X)%nat; simpl.
    + destruct (covariance false _) as [C|] eqn:HC; [|discriminate]. simpl.
      destruct (eigenvalue_decomposition eigh C eps) as [[V l0]|] eqn:HE; [|discriminate].
      simpl. intros [= <- _ _] _. rewrite ncols_np_T.
      apply eigenvalue_decomposition_columns in HE
        as (w & V0 & mx & Hw & _ & _ & ->).
      destruct (Hsh _ _ _ Hw) as (_ & HnV & _).
      destruct (covariance_ok false (sub_row X (pca_mean X centre)))
        as (C' & HC' & HnC & _).
      rewrite HC in HC'. injection HC' as <-.
      unfold nrows at 1. simpl. rewrite length_map. fold (nrows V0).
      rewrite HnV, HnC. done.
    + destruct (covariance true _) as [C|]; [|discriminate]. simpl.
      destruct (eigenvalue_decomposition eigh C eps) as [[V l0]|]; [|discriminate].
      simpl. destruct (np_dot _ _) as [P|] eqn:HP; [|discriminate]. simpl.
      destruct (scale_rows _ _) as [Y|] eqn:HY; [|discriminate]. simpl.
      intros [= <- _ _] _.
      apply scale_rows_shape in HY as [_ ->].
      by apply np_dot_shape in HP as [_ ->].
Qed.


Lemma vstack_wf X Y Z :
  wf X -> wf Y -> np_vstack X Y = Ok Z ->
  wf Z /\ ncols Z = ncols X /\ nrows Z = nrows X + nrows Y.
Proof.
  unfold np_vstack. destruct (decide _) as [E|]; [|discriminate].
  intros HX HY [= <-]. unfold wf, nrows in *. simpl.
  split_and!; [|done|by rewrite length_app].
  apply Forall_app. split; [done|]. by rewrite E.
Qed.

Lemma vstack_ok X Y :
  ncols X = ncols Y -> np_vstack X Y = Ok (Mat (ncols X) (rows X ++ rows Y)).
Proof. intros E. unfold np_vstack. by rewrite decide_True. Qed.

Lemma hstack_ok X Y :
  nrows X = nrows Y ->
  np_hstack X Y = Ok (Mat (ncols X + ncols Y) (zip_with app (rows X) (rows Y))).
Proof. intros E. unfold np_hstack. by rewrite decide_True. Qed.

Lemma ipca_centre_shapes B (n_a n_b n : F) (mv : option (list F)) :
  wf B -> (forall m_a, mv = Some m_a -> length m_a = ncols B) ->
  exists B' m,
    ipca_centre B n_a n_b n mv = Ok (B', m) /\
    wf B' /\ ncols B' = ncols B /\ length m = ncols B.
Proof.
  intros HB Hm. unfold ipca_centre, centred.
  assert (Hnone : exists B' m,
            (mret (B, np_zeros (ncols B)) : result (ndarray F * list F)) = Ok (B', m) /\
            wf B' /\ ncols B' = ncols B /\ length m = ncols B).
  { exists B, (np_zeros (ncols B)). split_and!; try done. apply length_np_zeros. }
  destruct mv as [m_a|]; [|exact Hnone].
  destruct (forallb _ m_a); [exact Hnone|].
  specialize (Hm m_a eq_refl).
  assert (Hmb : length (np_mean0 B) = ncols B) by (by apply length_np_mean0).
  rewrite (broadcast_same f_add) by (rewrite !length_vscale; congruence).
  rewrite (broadcast_same f_sub) by congruence.
  simpl. unfold np_vstack. simpl.
  rewrite decide_True.
  2:{ unfold vscale, vsub. rewrite length_map, length_zip_with. lia. }
  simpl. eexists _, _. split; [done|]. split_and!.
  - unfold wf. simpl. apply Forall_app. split.
    + apply (sub_row_wf B); done.
    + constructor; [|constructor].
      unfold vscale, vsub. rewrite length_map, length_zip_with. lia.
  - done.
  - rewrite length_zip_with, !length_vscale. lia.
Qed.

(** With shapes as numpy's drivers give them, the subspace update fails
    only if a driver does, and returns arrays of the documented shapes. *)
Lemma ipca_update_shapes
    (qr : ndarray F -> option (ndarray F))
    (svd : ndarray F -> option (list F * ndarray F))
    B U_a (s_a : list F) (n f eps : F) :
  qr_shapes qr -> svd_shapes svd ->
  wf B -> wf U_a -> ncols U_a = ncols B -> length s_a = nrows U_a ->
  match ipca_update qr svd B U_a s_a n f eps with
  | Ok (U, l) => wf U /\ ncols U = ncols B /\ nrows U = length l
  | Raise e => e = LinAlgError
  end.
Proof.
  intros Hqr Hsvd HB HU Hd Hs. unfold ipca_update, project_out.
  destruct (np_dot_ok B (np_T U_a)) as [BUt HBUt]; [by rewrite nrows_np_T|].
  rewrite HBUt. simpl.
  destruct (np_dot_shape _ _ _ HBUt) as [n1 d1]. rewrite ncols_np_T in d1.
  destruct (np_dot_ok BUt U_a) as [P HP]; [done|]. rewrite HP. simpl.
  destruct (np_dot_shape _ _ _ HP) as [n2 d2].
  set (PB := msub B P).
  assert (HnPB : nrows PB = nrows B) by (unfold PB; rewrite nrows_msub; lia).
  assert (HdPB : ncols PB = ncols B) by done.
  destruct (qr (np_T PB)) as [Q|] eqn:EQ; simpl; [|done].
  destruct (Hqr _ _ EQ) as [HQ HnQ]. rewrite nrows_np_T, HdPB in HnQ.
  unfold form_R.
  assert (HnS : nrows (np_diag s_a) = nrows U_a).
  { unfold nrows at 1, np_diag. simpl. by rewrite length_imap. }
  rewrite (vstack_ok (mscale f (np_diag s_a)) BUt) by (simpl; lia).
  set (left := Mat _ (rows (mscale f (np_diag s_a)) ++ rows BUt)).
  destruct (np_dot_ok PB (np_T (np_T Q))) as [PBBt HPBBt].
  { rewrite nrows_np_T, ncols_np_T. lia. }
  destruct (np_dot_shape _ _ _ HPBBt) as [n3 d3]. rewrite ncols_np_T in d3.
  rewrite (vstack_ok U_a (np_T Q)) by (rewrite ncols_np_T; lia).
  set (W := Mat (ncols U_a) (rows U_a ++ rows (np_T Q))).
  cbn [mbind result_bind mret result_ret]. rewrite HPBBt.
  cbn [mbind result_bind mret result_ret].
  rewrite (vstack_ok (np_zeros2 (nrows (np_diag s_a)) (nrows (np_T Q))) PBBt)
    by (simpl; lia).
  set (right := Mat _ (rows (np_zeros2 _ _) ++ rows PBBt)).
  cbn [mbind result_bind mret result_ret].
  assert (Hnl : nrows left = nrows U_a + nrows B).
  { unfold nrows at 1, left, mscale, np_diag. cbn [rows].
    rewrite length_app, length_map, length_imap. fold (nrows BUt). lia. }
  assert (Hnr : nrows right = nrows U_a + nrows B).
  { unfold nrows at 1, right, np_zeros2. cbn [rows].
    rewrite length_app, repeat_length. fold (nrows PBBt). lia. }
  rewrite (hstack_ok left right) by lia.
  set (Mx := Mat _ (zip_with app (rows left) (rows right))).
  cbn [mbind result_bind mret result_ret].
  destruct (svd Mx) as [[s Vt]|] eqn:ES; cbn [lapack mbind result_bind]; [|done].
  destruct (Hsvd _ _ _ ES) as (HVt & HnVt & HdVt & Hls).
  assert (HdM : ncols Mx = nrows U_a + ncols Q).
  { unfold Mx, left, right, mscale, np_diag, np_zeros2. cbn [ncols].
    rewrite nrows_np_T. lia. }
  assert (HW : wf W).
  { unfold wf, W. simpl. apply Forall_app. split; [done|].
    pose proof (wf_np_T Q) as G. unfold wf in G. rewrite ncols_np_T in G.
    by rewrite Hd, <- HnQ. }
  assert (HnW : nrows W = nrows U_a + ncols Q).
  { unfold nrows at 1, W. cbn [rows]. rewrite length_app.
    fold (nrows U_a) (nrows (np_T Q)). by rewrite nrows_np_T. }
  destruct (np_dot_ok Vt W) as [VtS HVtS]; [lia|]. rewrite HVtS.
  cbn [mbind result_bind mret result_ret].
  destruct (np_dot_shape _ _ _ HVtS) as [n4 d4].
  pose proof (np_dot_wf _ _ _ HW HVtS) as HwV.
  split_and!.
  - unfold wf, take_rows in *. simpl. by apply Forall_take.
  - simpl. rewrite d4. done.
  - unfold nrows at 1, take_rows. simpl. rewrite length_take.
    fold (nrows VtS).
    assert (length (new_eigenvalues s n eps) <= length s); [|lia].
    unfold new_eigenvalues. rewrite compress_filter.
    assert (G : forall (p : F -> bool) v, length (List.filter p v) <= length v).
    { intros p v. induction v as [|a v IH]; simpl; [lia|].
      destruct (p a); simpl; lia. }
    etrans; [apply G|]. by rewrite length_map.
Qed.

Lemma ipca_values_shapes
    (qr : ndarray F -> option (ndarray F))
    (svd : ndarray F -> option (list F * ndarray F))
    B U_a (l_a : list F) (n_a : Z) (mv : option (list F)) (f eps : F) :
  qr_shapes qr -> svd_shapes svd ->
  wf B -> wf U_a -> ncols U_a = ncols B -> length l_a = nrows U_a ->
  (forall m_a, mv = Some m_a -> length m_a = ncols B) ->
  match ipca_values qr svd B U_a l_a n_a mv f eps with
  | Ok (U, l, m) =>
      wf U /\ ncols U = ncols B /\ nrows U = length l /\ length m = ncols B
  | Raise e => e = LinAlgError
  end.
Proof.
  intros Hqr Hsvd HB HU Hd Hl Hm. unfold ipca_values.
  destruct (ipca_centre_shapes B
              (f_mul (f_of_Z n_a) f) (f_of_Z (Z.of_nat (nrows B)))
              (f_add (f_mul (f_of_Z n_a) f) (f_of_Z (Z.of_nat (nrows B)))) mv HB Hm)
    as (B' & m & -> & HB' & HdB' & Hlm).
  simpl.
  pose proof (ipca_update_shapes qr svd B' U_a (prior_singular_values n_a l_a)
                (f_add (f_mul (f_of_Z n_a) f) (f_of_Z (Z.of_nat (nrows B)))) f eps
                Hqr Hsvd HB' HU ltac:(congruence)
                ltac:(unfold prior_singular_values; rewrite length_map; done)) as G.
  destruct (ipca_update _ _ _ _ _ _ _ _) as [[U l]|e]; simpl; [|done].
  destruct G as (? & ? & ?). split_and!; (done || congruence).
Qed.

End Shapes.

Section ShapeTheorems.
Context {F : Type} `{Scalar F}.

(** [pca] returns arrays of the documented shapes, in any arithmetic: [U]
    is (n_components, n_dims), [l] is (n_components,) and [m] is
    (n_dims,). *)
Theorem pca_output_shapes
    (eigh : ndarray F -> option (list F * ndarray F))
    (σ : heap F) (x : nat) (X : ndarray F) (centre inplace : bool) (eps : F)
    (rU rl rm : ref) (σ' : heap F) :
  eigh_shapes eigh -> wf X ->
  σ !! x = Some (A2 X) ->
  pca eigh (Whole x) centre inplace eps σ = (Ok (rU, rl, rm), σ') ->
  exists U l m,
    deref2 σ' rU = Ok U /\ deref1 σ' rl = Ok l /\ deref1 σ' rm = Ok m /\
    wf U /\ ncols U = ncols X /\ nrows U = length l /\ length m = ncols X.
Proof.
  intros Hsh HX Hx Hrun.
  destruct (pca_returns eigh σ x X centre inplace eps _ _ _ _ Hx Hrun)
    as (U & l & m & Hv & HU & Hl & Hm).
  exists U, l, m. split; [done|]. split; [done|]. split; [done|].
  by apply (pca_values_shapes eigh X centre eps).
Qed.

(** On a batch, a basis, eigenvalues and a mean of matching shapes (those
    [pca] returns, for one), with [n_a] a sample count and a total weight
    [n] that is not zero (Python refuses to divide by a zero [n]), [ipca]
    raises nothing but [LinAlgError], when QR or SVD fails, and what it
    returns has those shapes again: [U] is (n_components, n_dims), [l] is
    (n_components,), [m] is (n_dims,). *)
Theorem ipca_keeps_shapes
    (qr : ndarray F -> option (ndarray F))
    (svd : ndarray F -> option (list F * ndarray F))
    (σ : heap F) (B U_a l_a : ref) (n_a : Z) (m_a : option ref) (f eps : F)
    (Bv Uv : ndarray F) (lv : list F) (mv : option (list F)) :
  qr_shapes qr -> svd_shapes svd ->
  deref2 σ B = Ok Bv -> deref2 σ U_a = Ok Uv -> deref1 σ l_a = Ok lv ->
  deref1_opt σ m_a = Ok mv ->
  wf Bv -> wf Uv -> ncols Uv = ncols Bv -> length lv = nrows Uv ->
  (forall m, mv = Some m -> length m = ncols Bv) ->
  (0 <= n_a < 2 ^ 62)%Z -> f_eqb (total_weight n_a f Bv) f_zero = false ->
  exists r σ',
    ipca qr svd B U_a l_a n_a m_a f eps σ = (r, σ') /\
    match r with
    | Ok (rU, rl, rm) =>
        exists U l m,
          deref2 σ' rU = Ok U /\ deref1 σ' rl = Ok l /\ deref1 σ' rm = Ok m /\
          wf U /\ ncols U = ncols Bv /\ nrows U = length l /\
          length m = ncols Bv
    | Raise e => e = LinAlgError
    end.
Proof.
  intros Hqr Hsvd HB HU Hl Hm HwB HwU Hd Hlen Hlm _ _.
  destruct (ipca_run qr svd σ B U_a l_a n_a m_a f eps Bv Uv lv mv HB HU Hl Hm)
    as (r & σ' & Hrun & Hv).
  exists r, σ'. split; [done|].
  pose proof (ipca_values_shapes qr svd Bv Uv lv n_a mv f eps
                Hqr Hsvd HwB HwU Hd Hlen Hlm) as G.
  destruct (ipca_values _ _ _ _ _ _ _ _ _) as [[[U l] m]|e].
  - destruct Hv as (rU & rl & rm & -> & HdU & Hdl & Hdm).
    destruct G as (? & ? & ? & ?). exists U, l, m. by split_and!.
  - by subst r.
Qed.

Lemma qr_thin_shapes : qr_shapes (qr_thin (F:=F)).
Proof.
  intros A Q. unfold qr_thin.
  destruct (nrows A =? 1) eqn:E1.
  - intros [= <-]. apply Nat.eqb_eq in E1. split; [|done].
    unfold wf. simpl. by repeat constructor.
  - destruct (_ && _); [|discriminate]. intros [= <-]. split.
    + unfold wf. simpl. apply Forall_forall. intros r Hr.
      apply list_elem_of_fmap in Hr as (x & -> & _). done.
    + unfold nrows, col. simpl. by rewrite !length_map.
Qed.

Lemma svd_orthogonal_columns_shapes : svd_shapes (svd_orthogonal_columns (F:=F)).
Proof.
  intros M s Vt. unfold svd_orthogonal_columns.
  destruct (_ && _); [|discriminate]. intros [= <- <-]. split_and!.
  - unfold wf. simpl. apply Forall_map, Forall_forall. intros i _. simpl.
    unfold unit_vector. by rewrite length_insert, length_np_zeros.
  - unfold nrows. simpl. by rewrite length_map, length_seq.
  - done.
  - rewrite length_take, length_map, length_seq. lia.
Qed.

End ShapeTheorems.

#[local] Set Warnings "-inexact-float".

Lemma pca_output_shapes_witness :
  exists U l m,
    deref2 [A2 X_tall; A1 [0; 0]; A2 X_tall; A2 (Mat 2 [[0; 1]; [1; 0]]);
            A1 [4.5; 2]]%float (Whole 3) = Ok U /\
    deref1 [A2 X_tall; A1 [0; 0]; A2 X_tall; A2 (Mat 2 [[0; 1]; [1; 0]]);
            A1 [4.5; 2]]%float (Whole 4) = Ok l /\
    deref1 [A2 X_tall; A1 [0; 0]; A2 X_tall; A2 (Mat 2 [[0; 1]; [1; 0]]);
            A1 [4.5; 2]]%float (Whole 1) = Ok m /\
    wf U /\ ncols U = ncols X_tall /\ nrows U = length l /\
    length m = ncols X_tall.
Proof.
  apply (pca_output_shapes eigh_diagonal [A2 X_tall] 0 X_tall false false
           eps_default (Whole 3) (Whole 4) (Whole 1) _ eigh_diagonal_shapes).
  - unfold wf. simpl. repeat constructor.
  - reflexivity.
  - vm_compute. reflexivity.
Defined.

Lemma ipca_keeps_shapes_witness :
  exists r σ',
    ipca qr_thin svd_orthogonal_columns (Whole 0) (Whole 1) (Whole 2) 2 None
      1%float eps_default update_heap = (r, σ') /\
    match r with
    | Ok (rU, rl, rm) =>
        exists U l m,
          deref2 σ' rU = Ok U /\ deref1 σ' rl = Ok l /\ deref1 σ' rm = Ok m /\
          wf U /\ ncols U = ncols B_small /\ nrows U = length l /\
          length m = ncols B_small
    | Raise e => e = LinAlgError
    end.
Proof.
  apply (ipca_keeps_shapes qr_thin svd_orthogonal_columns update_heap
           (Whole 0) (Whole 1) (Whole 2) 2 None 1%float eps_default
           B_small U_prior l_prior None qr_thin_shapes svd_orthogonal_columns_shapes);
    try reflexivity.
  - unfold wf. simpl. repeat constructor.
  - unfold wf. simpl. repeat constructor.
  - discriminate.
  - lia.
Defined.

(* ================================================================== *)
(** ** The selection, and NaN among the eigenvalues *)

Section Selection.
Context {F : Type} `{Scalar F}.
Variable eigh : ndarray F -> option (list F * ndarray F).

Lemma filter_filter_andb (p q : F -> bool) v :
  List.filter q (List.filter p v) = List.filter (fun x => p x && q x) v.
Proof.
  induction v as [|x v IH]; [done|]. simpl.
  destruct (p x); simpl; [destruct (q x)|]; by rewrite ?IH.
Qed.

Lemma filter_Permutation (p : F -> bool) u v :
  Permutation u v -> Permutation (List.filter p u) (List.filter p v).
Proof.
  induction 1; simpl.
  - done.
  - destruct (p x); by rewrite IHPermutation.
  - destruct (p x), (p y); try done. apply perm_swap.
  - by etrans.
Qed.

(** The eigenvalues [eigenvalue_decomposition] returns are, with their
    multiplicities, the eigenvalues [eigh] computed that pass both tests
    of the source: none that passes is dropped and none is repeated. *)
Theorem passing_eigenvalues_all_returned C eps V l :
  eigenvalue_decomposition eigh C eps = Ok (V, l) ->
  exists w V0 mx,
    eigh C = Some (w, V0) /\
    np_max (map f_abs (eigenvalues_desc w)) = Ok mx /\
    Permutation l
      (List.filter (fun x => f_gtb x f_zero && f_gtb x (f_mul mx eps)) w).
Proof.
  intros Hed.
  destruct (eigenvalue_decomposition_inv eigh C eps V l Hed)
    as (w & V0 & mx & Hw & Hmx & -> & _).
  exists w, V0, mx. split; [done|]. split; [done|].
  unfold pos_eigenvalues. rewrite filter_filter_andb.
  apply filter_Permutation, eigenvalues_desc_perm.
Qed.

End Selection.

Section NotANumber.

Lemma SFcompare_refl s : s <> S754_nan -> SFcompare s s = Some Eq.
Proof.
  destruct s as [[]|[]| |[] m e]; simpl; try done; intros _.
  - rewrite Z.compare_refl, Pos.compare_refl. done.
  - rewrite Z.compare_refl, Pos.compare_refl. done.
Qed.

Lemma isnan_float (x : float) :
  f_isnan x = true <-> Prim2SF x = S754_nan.
Proof.
  unfold f_isnan. simpl. rewrite FloatAxioms.eqb_spec. unfold SFeqb. split.
  - intros Hx. destruct (Prim2SF x) as [s|s| |s m e] eqn:E; [| |done|];
      rewrite SFcompare_refl in Hx; done.
  - intros ->. done.
Qed.

Lemma isnan_abs (x : float) : f_isnan x = true -> f_isnan (f_abs x) = true.
Proof.
  rewrite !isnan_float. simpl. rewrite FloatAxioms.abs_spec. by intros ->.
Qed.

Lemma isnan_mul (x y : float) : f_isnan x = true -> f_isnan (f_mul x y) = true.
Proof.
  rewrite !isnan_float. simpl. rewrite FloatAxioms.mul_spec. by intros ->.
Qed.

Lemma gtb_nan (x limit : float) : f_isnan limit = true -> f_gtb x limit = false.
Proof.
  rewrite isnan_float. unfold f_gtb. simpl. rewrite FloatAxioms.ltb_spec.
  intros ->. done.
Qed.

Lemma np_maximum_nan_l (a b : float) :
  f_isnan a = true -> f_isnan (np_maximum a b) = true.
Proof. intros Ha. unfold np_maximum. by rewrite Ha. Qed.

Lemma np_maximum_nan_r (a b : float) :
  f_isnan b = true -> f_isnan (np_maximum a b) = true.
Proof.
  intros Hb. unfold np_maximum.
  destruct (f_isnan a) eqn:Ha; [done|]. by rewrite Hb.
Qed.

Lemma fold_np_maximum_nan (v : list float) (a : float) :
  f_isnan a = true \/ Exists (fun x => f_isnan x = true) v ->
  f_isnan (fold_left np_maximum v a) = true.
Proof.
  revert a. induction v as [|b v IH]; intros a [Ha|Hv]; simpl.
  - done.
  - by apply Exists_nil in Hv.
  - apply IH. left. by apply np_maximum_nan_l.
  - apply IH. apply Exists_cons in Hv as [Hb|Hv].
    + left. by apply np_maximum_nan_r.
    + by right.
Qed.

Lemma np_max_nan (v : list float) mx :
  Exists (fun x => f_isnan x = true) v -> np_max v = Ok mx ->
  f_isnan mx = true.
Proof.
  destruct v as [|a v]; [done|]. simpl. intros Hv [= <-].
  apply fold_np_maximum_nan. apply Exists_cons in Hv as [?|?]; auto.
Qed.

Lemma filter_none {A} (p : A -> bool) v :
  (forall x, p x = false) -> List.filter p v = [].
Proof.
  intros Hp. induction v as [|x v IH]; [done|]. simpl. by rewrite Hp.
Qed.

Variable eigh : ndarray float -> option (list float * ndarray float).

(** In float64, when one of the eigenvalues [eigh] computed is a NaN, the
    tolerance [limit] is a NaN, no comparison with it holds, and
    [eigenvalue_decomposition] returns no eigenvalue and no eigenvector
    at all, without raising. *)
Theorem nan_eigenvalue_discards_everything C eps w V0 :
  eigh C = Some (w, V0) -> eigh_shape C w V0 ->
  Exists (fun x => f_isnan x = true) w ->
  exists V,
    eigenvalue_decomposition eigh C eps = Ok (V, []) /\
    nrows V = nrows C /\ ncols V = 0.
Proof.
  intros Hw Hsh Hnan.
  assert (Hn : nrows C <> 0).
  { destruct Hsh as (Hlen & _). rewrite <- Hlen.
    destruct w; [by apply Exists_nil in Hnan|done]. }
  destruct (eigenvalue_decomposition_ok eigh C eps w V0 Hw Hsh Hn)
    as (V & mx & Hmx & Hed & HnV & HdV).
  assert (Hmxnan : f_isnan mx = true).
  { refine (np_max_nan _ _ _ Hmx).
    apply Exists_exists in Hnan as (x & Hx & Hxn).
    apply Exists_exists. exists (f_abs x). split.
    - apply list_elem_of_fmap. exists x. split; [done|].
      by rewrite (eigenvalues_desc_perm w).
    - by apply isnan_abs. }
  assert (Hl : pos_eigenvalues (eigenvalues_desc w) (f_mul mx eps) = []).
  { unfold pos_eigenvalues. apply filter_none. intros x.
    apply gtb_nan. by apply isnan_mul. }
  rewrite Hl in Hed, HdV. exists V. done.
Qed.

End NotANumber.

#[local] Set Warnings "-inexact-float".

Lemma nan_eigenvalue_discards_everything_witness :
  exists V,
    eigenvalue_decomposition eigh_diagonal C_nan 0.5%float = Ok (V, []) /\
    nrows V = nrows C_nan /\ ncols V = 0.
Proof.
  apply (nan_eigenvalue_discards_everything eigh_diagonal C_nan 0.5%float
           [1; nan]%float (Mat 2 [[0; 1]; [1; 0]]%float)).
  - vm_compute. reflexivity.
  - unfold eigh_shape, wf, nrows. simpl. repeat split; repeat constructor.
  - apply Exists_cons_tl, Exists_cons_hd. vm_compute. reflexivity.
Defined.

Lemma passing_eigenvalues_all_returned_witness :
  exists w V0 mx,
    eigh_diagonal (Mat 2 [[2; 0]; [0; 3]]%float) = Some (w, V0) /\
    np_max (map f_abs (eigenvalues_desc w)) = Ok mx /\
    Permutation [3; 2]%float
      (List.filter (fun x => f_gtb x f_zero && f_gtb x (f_mul mx 0.25%float)) w).
Proof.
  apply (passing_eigenvalues_all_returned eigh_diagonal
           (Mat 2 [[2; 0]; [0; 3]]%float) 0.25%float
           (Mat 2 [[0; 1]; [1; 0]]%float)).
  vm_compute. reflexivity.
Defined.

(* ================================================================== *)
(** ** What pca keeps of the scatter *)

Section Kept.
Context {F : Type} `{Scalar F}.

Lemma keep_filter {A} (g : A -> bool) (xs : list A) :
  keep (map g xs) xs = List.filter g xs.
Proof.
  unfold keep. induction xs as [|x xs IH]; [done|]. simpl.
  destruct (g x); simpl; by rewrite IH.
Qed.

Lemma snd_combine_seq (v : list F) a :
  map snd (combine v (seq a (length v))) = seq a (length v).
Proof.
  revert a. induction v as [|x v IH]; intros a; [done|]. simpl. by rewrite IH.
Qed.

Lemma argsort_Permutation (w : list F) :
  Permutation (np_argsort w) (seq 0 (length w)).
Proof.
  unfold np_argsort. rewrite (sort_pairs_perm (combine w (seq 0 (length w)))).
  by rewrite snd_combine_seq.
Qed.

Lemma kept_indices_filter (w : list F) limit :
  kept_indices w limit
  = List.filter (fun i => f_gtb (nth i w f_zero) limit)
      (List.filter (fun i => f_gtb (nth i w f_zero) f_zero) (reverse (np_argsort w))).
Proof.
  unfold kept_indices. rewrite !map_map.
  rewrite (keep_filter (fun i => f_gtb (nth i w f_zero) f_zero)).
  by rewrite (keep_filter (fun i => f_gtb (nth i w f_zero) limit)).
Qed.

Lemma kept_indices_complete (w : list F) limit i :
  i < length w ->
  f_gtb (nth i w f_zero) f_zero = true -> f_gtb (nth i w f_zero) limit = true ->
  In i (kept_indices w limit).
Proof.
  intros Hi H0 Hl. rewrite kept_indices_filter.
  apply filter_In. split; [|done]. apply filter_In. split; [|done].
  apply list_elem_of_In. rewrite reverse_Permutation, argsort_Permutation.
  apply list_elem_of_In, in_seq. lia.
Qed.

End Kept.

Section Reconstruction.
Open Scope R_scope.

Lemma sumn_NoDup (idx : list nat) n (f : nat -> R) :
  NoDup idx -> Forall (fun i => (i < n)%nat) idx ->
  sumn (length idx) (fun t => f (nth t idx 0%nat))
  = sumn n (fun i => if in_dec Nat.eq_dec i idx then f i else 0).
Proof.
  induction idx as [|a idx IH]; intros Hnd Hb.
  - simpl. rewrite sumn_0. symmetry. by apply sumn_zero.
  - apply NoDup_cons in Hnd as [Ha Hnd]. apply Forall_cons in Hb as [Han Hb].
    cbn [length]. rewrite sumn_S_l. cbn [nth]. rewrite (IH Hnd Hb).
    rewrite <- (sumn_delta n a f Han), <- sumn_plus.
    apply sumn_ext. intros i Hi.
    assert (Ha' : ~ In a idx) by (intros G; apply Ha; by apply list_elem_of_In).
    destruct (in_dec Nat.eq_dec i (a :: idx)) as [Hin|Hnin];
      destruct (in_dec Nat.eq_dec i idx) as [Hin'|Hnin'];
      destruct (Nat.eqb_spec i a) as [->|Hne]; try lra; exfalso.
    + done.
    + destruct Hin as [->|Hin]; done.
    + apply Hnin. by right.
    + apply Hnin. by right.
    + apply Hnin. by left.
Qed.

Lemma sumn_squares_zero n (f : nat -> R) :
  sumn n (fun a => f a * f a) = 0 -> forall a, (a < n)%nat -> f a = 0.
Proof.
  induction n as [|n IH]; intros Hs a Ha; [lia|].
  rewrite sumn_S in Hs.
  assert (Hnn : 0 <= sumn n (fun a => f a * f a)).
  { clear. induction n as [|n IH]; [rewrite sumn_0; lra|]. rewrite sumn_S. nra. }
  assert (Hfn : 0 <= f n * f n) by nra.
  destruct (decide (a = n)) as [->|Hne]; [nra|].
  apply IH; [lra|lia].
Qed.

(** The rows of the eigenvector matrix of [eigh] are orthonormal. *)
Lemma eigh_rows (C : ndarray R) w (V0 : ndarray R) a b :
  eigendecomposition C w V0 ->
  (a < nrows C)%nat -> (b < nrows C)%nat ->
  sumn (nrows C) (fun i => cell V0 a i * cell V0 b i)
  = if (a =? b)%nat then 1 else 0.
Proof.
  intros ((Hlen & HnV & HdV & HV) & _ & Heq) Ha Hb.
  pose proof (cell_np_dot V0 (np_T V0) _ a b HV (wf_np_T V0) Heq) as E.
  rewrite HdV in E.
  rewrite (sumn_ext _ _ (fun i => cell V0 a i * cell V0 b i)) in E.
  2:{ intros i _. by rewrite cell_np_T. }
  rewrite <- E. unfold np_eye. rewrite cell_np_diag.
  destruct (a =? b)%nat; [|done].
  unfold entry. rewrite nth_repeat_lt by done. done.
Qed.

(** [C = V diag(w) V.T], entry by entry. *)
Lemma spectral_cells (C : ndarray R) w (V0 : ndarray R) a b :
  wf C -> ncols C = nrows C -> eigendecomposition C w V0 ->
  (b < nrows C)%nat ->
  cell C a b
  = sumn (nrows C) (fun i => entry i w * (cell V0 a i * cell V0 b i)).
Proof.
  intros HC Hsq Hdec Hb.
  transitivity (sumn (nrows C) (fun k => cell C a k * (if (k =? b)%nat then 1 else 0))).
  { rewrite (sumn_ext _ _ (fun k => if (k =? b)%nat then cell C a k else 0)).
    2:{ intros k _. destruct (k =? b)%nat; lra. }
    by rewrite (sumn_delta _ b (fun k => cell C a k)). }
  rewrite (sumn_ext _ _ (fun k => sumn (nrows C) (fun i =>
             cell C a k * cell V0 k i * cell V0 b i))).
  2:{ intros k Hk. rewrite <- (eigh_rows C w V0 k b Hdec Hk Hb), <- sumn_scale.
      apply sumn_ext. intros i _. lra. }
  rewrite sumn_swap. apply sumn_ext. intros i _.
  rewrite sumn_scale_r. rewrite <- Hsq at 1.
  rewrite (eigen_equation C w V0 a i HC Hdec). lra.
Qed.

End Reconstruction.

Section ReconstructionTheorem.
Open Scope R_scope.

Lemma kept_indices_spec (w : list R) limit i :
  In i (kept_indices w limit)
  <-> (i < length w)%nat /\ 0 < entry i w /\ limit < entry i w.
Proof.
  split.
  - intros Hin. split.
    + pose proof (kept_indices_bound w limit) as Hb. rewrite Forall_forall in Hb.
      by apply Hb, list_elem_of_In.
    + rewrite kept_indices_filter in Hin.
      apply filter_In in Hin as [Hin Hl]. apply filter_In in Hin as [_ H0].
      unfold f_gtb in *. simpl in *. apply Rltb_lt in Hl, H0. done.
  - intros (Hi & H0 & Hl). apply kept_indices_complete; [done|..];
      unfold f_gtb; simpl; by apply Rltb_lt.
Qed.

(** An eigenvalue that is neither zero nor filtered out sits at a kept
    position. *)
Lemma unkept_is_zero (w : list R) limit i :
  Forall (fun x => x = 0 \/ In x (map (fun i => nth i w 0) (kept_indices w limit))) w ->
  (i < length w)%nat -> ~ In i (kept_indices w limit) -> entry i w = 0.
Proof.
  intros Hf Hi Hnin. rewrite Forall_forall in Hf.
  destruct (Hf (entry i w)) as [E|Hin]; [apply list_elem_of_In, nth_In; done|done|].
  exfalso. apply Hnin. apply in_map_iff in Hin as (i' & E & Hin').
  apply kept_indices_spec in Hin' as (_ & H0 & Hl).
  apply kept_indices_spec. unfold entry in *. rewrite <- E. done.
Qed.

Lemma gram_col_ge (X : ndarray R) j k :
  wf X -> (ncols X <= k)%nat -> gram X j k = 0.
Proof.
  intros HX Hk. rewrite gram_sumn. apply sumn_zero. intros i _.
  rewrite (cell_col_ge X i k) by done. lra.
Qed.

(** When [pca] filters out nothing but zero eigenvalues, the model it
    returns accounts for the whole scatter of the data about the mean:
    [Xc.T Xc = (n - 1) U.T diag(l) U]. *)
Lemma pca_accounts_for_scatter
    (eigh : ndarray R -> option (list R * ndarray R))
    (X : ndarray R) (eps : R) (U : ndarray R) (l m : list R) :
  eigh_correct eigh -> wf X -> (2 <= nrows X)%nat ->
  pca_values eigh X true eps = Ok (U, l, m) ->
  filters_only_zeros eigh X l ->
  accounts_for_scatter X U l.
Proof.
  intros Heigh HX Hn Hv Hfil j k.
  set (Xc := sub_row X (np_mean0 X)) in *.
  assert (HXc : wf Xc) by (apply wf_sub_row; [done|by apply length_np_mean0]).
  assert (HnXc : nrows Xc = nrows X) by apply nrows_sub_row.
  assert (Hn1 : 0 < IZR (Z.of_nat (nrows X) - 1)).
  { apply IZR_lt. lia. }
  unfold filters_only_zeros in Hfil. fold Xc in Hfil.
  unfold pca_values in Hv. simpl in Hv. fold Xc in Hv.
  destruct (ncols X <? nrows X)%nat eqn:Hreg; simpl in Hfil.
  - (* primal *)
    destruct (covariance false Xc) as [C|] eqn:HC; [|discriminate]. simpl in Hv.
    destruct (eigenvalue_decomposition eigh C eps) as [[V l0]|] eqn:HE; [|discriminate].
    simpl in Hv. injection Hv as <- <- <-.
    apply eigenvalue_decomposition_columns in HE
      as (w & V0 & mx & Hw & _ & Hl & HV). simpl in Hl, HV.
    set (idx := kept_indices w (mx * eps)) in *.
    pose proof (Heigh _ _ _ Hw) as Hdec.
    destruct Hdec as [(Hlen & HnV & HdV & HwV) Hrest].
    pose proof (conj (conj Hlen (conj HnV (conj HdV HwV))) Hrest) as Hdec.
    pose proof (wf_covariance false Xc C HXc HC) as HwC.
    destruct (covariance_ok false Xc) as (C' & HC' & HnC & HdC).
    rewrite HC in HC'. injection HC' as <-. simpl in HnC, HdC.
    change (ncols Xc) with (ncols X) in HnC, HdC.
    pose proof (Hfil C w V0 eq_refl Hw) as Hf. rewrite Hl in Hf.
    assert (Hlen0 : length l0 = length idx) by (subst l0; by rewrite length_map).
    rewrite Hlen0.
    set (g := fun i => entry i w * (cell V0 j i * cell V0 k i)).
    rewrite (sumn_ext _ _ (fun t => g (nth t idx 0%nat))).
    2:{ intros t Ht. subst l0 V. rewrite entry_selected by done.
        rewrite !cell_np_T by apply wf_selected. by rewrite !cell_selected. }
    rewrite (sumn_NoDup idx (nrows C) g).
    2:{ apply (sublist_NoDup _ (reverse (np_argsort w)));
          [apply argsort_NoDup|apply kept_indices_sublist]. }
    2:{ rewrite <- Hlen. apply kept_indices_bound. }
    rewrite (sumn_ext _ _ g).
    2:{ intros i Hi. destruct (in_dec Nat.eq_dec i idx) as [|Hnin]; [done|].
        unfold g. rewrite (unkept_is_zero w (mx * eps) i Hf) by (done || lia). lra. }
    destruct (decide (k < nrows C)%nat) as [Hk|Hk].
    + unfold g. rewrite <- (spectral_cells C w V0 j k HwC ltac:(lia) Hdec Hk).
      rewrite (covariance_cells false Xc C j k HXc HC), HnXc. field. lra.
    + rewrite gram_col_ge by (done || (change (ncols Xc) with (ncols X); lia)).
      rewrite sumn_zero; [lra|]. intros i _. unfold g.
      rewrite (cell_row_ge V0 k) by lia. lra.
  - (* dual *)
    destruct (covariance true Xc) as [C|] eqn:HC; [|discriminate]. simpl in Hv.
    destruct (eigenvalue_decomposition eigh C eps) as [[V l0]|] eqn:HE; [|discriminate].
    simpl in Hv.
    destruct (np_dot (np_T V) Xc) as [P|] eqn:HP; [|discriminate]. simpl in Hv.
    destruct (scale_rows P _) as [Y|] eqn:HY; [|discriminate]. simpl in Hv.
    injection Hv as <- <- <-.
    pose proof HE as HEinv.
    apply eigenvalue_decomposition_inv in HEinv as (w' & V0' & mx' & Hw' & _ & Hpos & _).
    apply eigenvalue_decomposition_columns in HE
      as (w & V0 & mx & Hw & _ & Hl & HV). simpl in Hl, HV.
    rewrite Hw in Hw'. injection Hw' as <- <-.
    set (idx := kept_indices w (mx * eps)) in *.
    assert (Hlen0 : length l0 = length idx) by (subst l0; by rewrite length_map).
    pose proof (Heigh _ _ _ Hw) as Hdec.
    pose proof (wf_covariance true Xc C HXc HC) as HwC.
    destruct (covariance_ok true Xc) as (C' & HC' & HnC & HdC).
    rewrite HC in HC'. injection HC' as <-. simpl in HdC, HnC.
    rewrite HnXc in HdC, HnC.
    destruct Hdec as [(Hlen & HnV & HdV & HwV) Hrest].
    pose proof (conj (conj Hlen (conj HnV (conj HdV HwV))) Hrest) as Hdec.
    assert (HwVs : wf V) by (subst V; apply wf_selected).
    assert (HnVs : nrows V = nrows X).
    { subst V. unfold nrows at 1. simpl. rewrite length_map. fold (nrows V0). lia. }
    apply np_dot_shape in HP as HS. destruct HS as [HnP HdP].
    rewrite nrows_np_T in HnP.
    assert (HdVs : ncols V = length idx) by (by subst V).
    assert (Hws : length (dual_scaling (nrows X) l0) = nrows P).
    { rewrite length_dual_scaling. lia. }
    pose proof (Hfil C w V0 eq_refl Hw) as Hf. rewrite Hl in Hf.
    assert (Hall : forall t, (t < length l0)%nat -> 0 < entry t l0).
    { intros t Ht.
      pose proof (pos_eigenvalues_positive (eigenvalues_desc w) (f_mul mx' eps)) as G.
      rewrite <- Hpos in G. rewrite Forall_forall in G.
      apply G, list_elem_of_In, nth_In. exact Ht. }
    set (z := fun i a => sumn (nrows X) (fun r => cell V0 r i * cell Xc r a)).
    assert (EU : forall t a, (t < length idx)%nat ->
              cell Y t a = entry t (dual_scaling (nrows X) l0) * z (nth t idx 0%nat) a).
    { intros t a Ht. rewrite (cell_scale_rows P Y _ t a Hws HY). f_equal.
      rewrite (cell_np_dot _ _ P t a (wf_np_T V) HXc HP).
      rewrite ncols_np_T, HnVs. apply sumn_ext. intros r _.
      rewrite cell_np_T by done. subst V. by rewrite cell_selected. }
    rewrite Hlen0.
    rewrite (sumn_ext _ _ (fun t => / IZR (Z.of_nat (nrows X) - 1)
               * (z (nth t idx 0%nat) j * z (nth t idx 0%nat) k))).
    2:{ intros t Ht. rewrite !EU by done.
        set (ws := entry t (dual_scaling (nrows X) l0)).
        assert (Hws2 : ws * ws * (IZR (Z.of_nat (nrows X) - 1) * entry t l0) = 1).
        { unfold ws. rewrite entry_dual_scaling by lia.
          pose proof (Hall t ltac:(lia)) as Hp.
          rewrite sqrt_sqrt.
          - field. split; lra.
          - apply Rlt_le, Rdiv_lt_0_compat; [lra|]. by apply Rmult_lt_0_compat. }
        transitivity (/ IZR (Z.of_nat (nrows X) - 1)
                      * (ws * ws * (IZR (Z.of_nat (nrows X) - 1) * entry t l0))
                      * (z (nth t idx 0%nat) j * z (nth t idx 0%nat) k)).
        { field. lra. }
        rewrite Hws2. lra. }
    rewrite sumn_scale, <- Rmult_assoc, Rinv_r, Rmult_1_l by lra.
    rewrite (sumn_NoDup idx (nrows X) (fun i => z i j * z i k)).
    2:{ apply (sublist_NoDup _ (reverse (np_argsort w)));
          [apply argsort_NoDup|apply kept_indices_sublist]. }
    2:{ rewrite <- HnC, <- Hlen. apply kept_indices_bound. }
    (* the image of an eigenvector with eigenvalue zero is zero *)
    assert (Hz : forall i a, (i < nrows X)%nat -> entry i w = 0 -> z i a = 0).
    { intros i a Hi Hwi.
      destruct (decide (a < ncols X)%nat) as [Ha|Ha].
      2:{ unfold z. apply sumn_zero. intros r _.
          rewrite (cell_col_ge Xc r a) by (done || (change (ncols Xc) with (ncols X); lia)).
          lra. }
      apply (sumn_squares_zero (ncols X) (z i)); [|done].
      transitivity (sumn (nrows X) (fun r => cell V0 r i *
                      sumn (nrows X) (fun r' =>
                        IZR (Z.of_nat (nrows X) - 1) * (cell C r r' * cell V0 r' i)))).
      { unfold z.
        rewrite (sumn_ext (ncols X) _ (fun a0 => sumn (nrows X) (fun r =>
                   sumn (nrows X) (fun r' =>
                     cell V0 r i * cell V0 r' i * (cell Xc r a0 * cell Xc r' a0))))).
        2:{ intros a0 _. rewrite sumn_mul. apply sumn_ext. intros r _.
            apply sumn_ext. intros r' _. lra. }
        rewrite sumn_swap. apply sumn_ext. intros r _.
        rewrite sumn_swap, <- sumn_scale. apply sumn_ext. intros r' _.
        rewrite sumn_scale.
        rewrite (covariance_cells true Xc C r r' HXc HC), HnXc.
        rewrite gram_sumn, nrows_np_T. change (ncols Xc) with (ncols X).
        rewrite (sumn_ext (ncols X) (fun i0 => cell (np_T Xc) i0 r * cell (np_T Xc) i0 r')
                   (fun a0 => cell Xc r a0 * cell Xc r' a0)).
        2:{ intros a0 _. by rewrite !cell_np_T. }
        field. lra. }
      apply sumn_zero. intros r _.
      rewrite sumn_scale, <- HdC, (eigen_equation C w V0 r i HwC Hdec), Hwi. lra. }
    rewrite (sumn_ext _ _ (fun i => z i j * z i k)).
    2:{ intros i Hi. destruct (in_dec Nat.eq_dec i idx) as [|Hnin]; [done|].
        rewrite (Hz i j Hi); [lra|].
        apply (unkept_is_zero w (mx * eps) i Hf); [lia|done]. }
    (* V V.T = I *)
    unfold z.
    rewrite (sumn_ext _ _ (fun i => sumn (nrows X) (fun r => sumn (nrows X) (fun r' =>
               cell Xc r j * cell Xc r' k * (cell V0 r i * cell V0 r' i))))).
    2:{ intros i _. rewrite sumn_mul. apply sumn_ext. intros r _.
        apply sumn_ext. intros r' _. lra. }
    rewrite sumn_swap, gram_sumn, HnXc. apply sumn_ext. intros r Hr.
    rewrite sumn_swap.
    rewrite (sumn_ext _ _ (fun r' => if (r' =? r)%nat
               then cell Xc r j * cell Xc r' k else 0)).
    2:{ intros r' Hr'. rewrite sumn_scale. rewrite <- HnC.
        rewrite (eigh_rows C w V0 r r' Hdec) by lia.
        rewrite Nat.eqb_sym. destruct (r' =? r)%nat; lra. }
    by rewrite (sumn_delta _ r (fun r' => cell Xc r j * cell Xc r' k)).
Qed.

End ReconstructionTheorem.

(* ================================================================== *)
(** ** Eigenpairs of a decomposed symmetric matrix *)

Section Spectral.
Open Scope R_scope.

Lemma sumn_nonzero n f : sumn n f <> 0 -> exists i, (i < n)%nat /\ f i <> 0.
Proof.
  induction n as [|n IH]; intros Hs.
  - by rewrite sumn_0 in Hs.
  - rewrite sumn_S in Hs.
    destruct (Req_dec_T (f n) 0) as [E|E].
    + rewrite E, Rplus_0_r in Hs. destruct (IH Hs) as (i & Hi & Hf).
      exists i. split; [lia|done].
    + exists n. split; [lia|done].
Qed.

(** The right singular vectors are eigenvectors of the Gram matrix. *)
Lemma gram_right_vectors (nR K Ks : nat) (Mx V : nat -> nat -> R) (s : nat -> R) :
  (Ks <= K)%nat ->
  (forall c c', (c < K)%nat -> (c' < K)%nat ->
     sumn nR (fun r => Mx r c * Mx r c')
     = sumn Ks (fun t => s t * s t * (V t c * V t c'))) ->
  (forall t t', (t < Ks)%nat -> (t' < Ks)%nat ->
     sumn K (fun c => V t c * V t' c) = if decide (t = t') then 1 else 0) ->
  forall t c, (t < Ks)%nat -> (c < K)%nat ->
    sumn K (fun c' => sumn nR (fun r => Mx r c * Mx r c') * V t c')
    = s t * s t * V t c.
Proof.
  intros HK Hgram Horth t c Ht Hc.
  rewrite (sumn_ext _ _ (fun c' => sumn Ks (fun t' =>
             s t' * s t' * V t' c * (V t' c' * V t c')))).
  2:{ intros c' Hc'. rewrite Hgram by done. rewrite <- sumn_scale_r.
      apply sumn_ext. intros t' _. lra. }
  rewrite sumn_swap.
  rewrite (sumn_ext _ _ (fun t' => if (t' =? t)%nat then s t' * s t' * V t' c else 0)).
  2:{ intros t' Ht'. rewrite sumn_scale, Horth by done.
      destruct (Nat.eqb_spec t' t) as [->|Hne].
      - rewrite decide_True by done. lra.
      - rewrite decide_False by done. lra. }
  by rewrite (sumn_delta _ t (fun t' => s t' * s t' * V t' c)).
Qed.

Section AbstractUpdate.
Variables (nR K Ks d : nat) (Mx Wx V : nat -> nat -> R) (s : nat -> R).
Let N r j := sumn K (fun c => Mx r c * Wx c j).
Let P t j := sumn K (fun c => V t c * Wx c j).
Let y t r := sumn K (fun c => Mx r c * V t c).
Hypothesis HK : (Ks <= K)%nat.
Hypothesis HNN : forall r r', (r < nR)%nat -> (r' < nR)%nat ->
  sumn d (fun j => N r j * N r' j) = sumn K (fun c => Mx r c * Mx r' c).
Hypothesis Hgram : forall c c', (c < K)%nat -> (c' < K)%nat ->
  sumn nR (fun r => Mx r c * Mx r c')
  = sumn Ks (fun t => s t * s t * (V t c * V t c')).
Hypothesis Horth : forall t t', (t < Ks)%nat -> (t' < Ks)%nat ->
  sumn K (fun c => V t c * V t' c) = if decide (t = t') then 1 else 0.

Lemma right_vector_image t c :
  (t < Ks)%nat -> (c < K)%nat ->
  sumn nR (fun r => Mx r c * y t r) = s t * s t * V t c.
Proof.
  intros Ht Hc. unfold y.
  rewrite <- (gram_right_vectors nR K Ks Mx V s HK Hgram Horth t c Ht Hc).
  rewrite (sumn_ext _ _ (fun r => sumn K (fun c' => Mx r c * Mx r c' * V t c'))).
  2:{ intros r _. rewrite <- sumn_scale. apply sumn_ext. intros c' _. lra. }
  rewrite sumn_swap. apply sumn_ext. intros c' _. by rewrite sumn_scale_r.
Qed.

Lemma right_vector_lift t j :
  (t < Ks)%nat ->
  sumn nR (fun r => N r j * y t r) = s t * s t * P t j.
Proof.
  intros Ht. unfold N, P.
  rewrite (sumn_ext _ _ (fun r => sumn K (fun c => Wx c j * (Mx r c * y t r)))).
  2:{ intros r _. rewrite <- sumn_scale_r. apply sumn_ext. intros c _. lra. }
  rewrite sumn_swap.
  rewrite (sumn_ext _ _ (fun c => s t * s t * (V t c * Wx c j))).
  2:{ intros c Hc. rewrite sumn_scale, right_vector_image by done. lra. }
  by rewrite sumn_scale.
Qed.

Lemma right_vector_images t t' :
  (t < Ks)%nat -> (t' < Ks)%nat ->
  sumn nR (fun r => y t r * y t' r)
  = s t' * s t' * (if decide (t = t') then 1 else 0).
Proof.
  intros Ht Ht'.
  rewrite (sumn_ext _ _ (fun r => sumn K (fun c => V t c * (Mx r c * y t' r)))).
  2:{ intros r _. unfold y at 1. rewrite <- sumn_scale_r.
      apply sumn_ext. intros c _. lra. }
  rewrite sumn_swap.
  rewrite (sumn_ext _ _ (fun c => s t' * s t' * (V t c * V t' c))).
  2:{ intros c Hc. rewrite sumn_scale, right_vector_image by done. lra. }
  by rewrite sumn_scale, Horth.
Qed.

(** Transporting a pair of row-combinations through [N N.T = M M.T]. *)
Lemma NN_transport (a b : nat -> R) :
  sumn d (fun j => sumn nR (fun r => N r j * a r) * sumn nR (fun r => N r j * b r))
  = sumn K (fun c => sumn nR (fun r => Mx r c * a r) * sumn nR (fun r => Mx r c * b r)).
Proof.
  transitivity (sumn nR (fun r => sumn nR (fun r' =>
                  a r * b r' * sumn d (fun j => N r j * N r' j)))).
  { rewrite (sumn_ext d _ (fun j => sumn nR (fun r => sumn nR (fun r' =>
               a r * b r' * (N r j * N r' j))))).
    2:{ intros j _. rewrite sumn_mul. apply sumn_ext. intros r _.
        apply sumn_ext. intros r' _. lra. }
    rewrite sumn_swap. apply sumn_ext. intros r _.
    rewrite sumn_swap. apply sumn_ext. intros r' _. by rewrite sumn_scale. }
  transitivity (sumn nR (fun r => sumn nR (fun r' =>
                  a r * b r' * sumn K (fun c => Mx r c * Mx r' c)))).
  { apply sumn_ext. intros r Hr. apply sumn_ext. intros r' Hr'. by rewrite HNN. }
  symmetry.
  rewrite (sumn_ext K _ (fun c => sumn nR (fun r => sumn nR (fun r' =>
             a r * b r' * (Mx r c * Mx r' c))))).
  2:{ intros c _. rewrite sumn_mul. apply sumn_ext. intros r _.
      apply sumn_ext. intros r' _. lra. }
  rewrite sumn_swap. apply sumn_ext. intros r _.
  rewrite sumn_swap. apply sumn_ext. intros r' _. by rewrite sumn_scale.
Qed.

Lemma update_orthonormal t t' :
  (t < Ks)%nat -> (t' < Ks)%nat -> s t <> 0 -> s t' <> 0 ->
  sumn d (fun j => P t j * P t' j) = if decide (t = t') then 1 else 0.
Proof.
  intros Ht Ht' Hs Hs'.
  assert (E : (s t * s t) * (s t' * s t') * sumn d (fun j => P t j * P t' j)
              = (s t * s t) * (s t' * s t') * (if decide (t = t') then 1 else 0)).
  { rewrite <- sumn_scale.
    rewrite (sumn_ext _ _ (fun j => sumn nR (fun r => N r j * y t r)
                                    * sumn nR (fun r => N r j * y t' r))).
    2:{ intros j _. rewrite !right_vector_lift by done. lra. }
    rewrite NN_transport.
    rewrite (sumn_ext _ _ (fun c => (s t * s t) * (s t' * s t') * (V t c * V t' c))).
    2:{ intros c Hc. rewrite !right_vector_image by done. lra. }
    by rewrite sumn_scale, Horth. }
  apply (Rmult_eq_reg_l ((s t * s t) * (s t' * s t'))); [exact E|].
  apply Rmult_integral_contrapositive_currified;
    by apply Rmult_integral_contrapositive_currified.
Qed.

Lemma update_eigen t j :
  (t < Ks)%nat -> s t <> 0 ->
  sumn d (fun k => sumn nR (fun r => N r j * N r k) * P t k) = s t * s t * P t j.
Proof.
  intros Ht Hs.
  assert (E : (s t * s t)
              * sumn d (fun k => sumn nR (fun r => N r j * N r k) * P t k)
              = (s t * s t) * (s t * s t * P t j)).
  { rewrite <- sumn_scale.
    rewrite (sumn_ext _ _ (fun k =>
               sumn nR (fun r => N r k * N r j) * sumn nR (fun r => N r k * y t r))).
    2:{ intros k _. rewrite right_vector_lift by done.
        rewrite (sumn_ext nR (fun r => N r k * N r j) (fun r => N r j * N r k))
          by (intros; lra). lra. }
    rewrite (NN_transport (fun r => N r j) (y t)).
    rewrite (sumn_ext _ _ (fun c => s t * s t * (V t c * sumn nR (fun r => Mx r c * N r j)))).
    2:{ intros c Hc. rewrite right_vector_image by done. lra. }
    rewrite sumn_scale. f_equal.
    rewrite <- right_vector_lift by done.
    rewrite (sumn_ext K _ (fun c => sumn nR (fun r => N r j * (Mx r c * V t c)))).
    2:{ intros c _. rewrite <- sumn_scale. apply sumn_ext. intros r _. lra. }
    rewrite sumn_swap. apply sumn_ext. intros r _. unfold y.
    by rewrite sumn_scale. }
  apply (Rmult_eq_reg_l (s t * s t)); [exact E|].
  by apply Rmult_integral_contrapositive_currified.
Qed.

End AbstractUpdate.

(** Two descriptions of one symmetric matrix: a decomposition into
    eigenpairs [(mu t, P t)] and a further eigenpair [(lam, u)] with
    [lam <> 0]. Then [u] is a combination of the [P t] with [mu t = lam]. *)
Section Match.
Variables (d K : nat) (S : nat -> nat -> R) (mu : nat -> R) (P : nat -> nat -> R)
          (lam : R) (u : nat -> R).
Hypothesis Hdec : forall j k, (j < d)%nat -> (k < d)%nat ->
  S j k = sumn K (fun t => mu t * (P t j * P t k)).
Hypothesis Heig : forall t j, (t < K)%nat -> mu t <> 0 -> (j < d)%nat ->
  sumn d (fun k => S j k * P t k) = mu t * P t j.
Hypothesis Hu : forall j, (j < d)%nat -> sumn d (fun k => S j k * u k) = lam * u j.
Hypothesis Hlam : lam <> 0.

Let pu t := sumn d (fun k => P t k * u k).

Lemma match_orthogonal t :
  (t < K)%nat -> mu t <> 0 -> mu t <> lam -> pu t = 0.
Proof.
  intros Ht Hmu Hne.
  assert (E : mu t * pu t = lam * pu t).
  { unfold pu. rewrite <- !sumn_scale.
    transitivity (sumn d (fun j => sumn d (fun k => S j k * P t k) * u j)).
    { apply sumn_ext. intros j Hj. rewrite Heig by done. lra. }
    transitivity (sumn d (fun k => P t k * sumn d (fun j => S k j * u j))).
    { rewrite (sumn_ext d _ (fun j => sumn d (fun k => S j k * P t k * u j))).
      2:{ intros j _. by rewrite sumn_scale_r. }
      rewrite sumn_swap. apply sumn_ext. intros k Hk.
      rewrite <- sumn_scale. apply sumn_ext. intros j Hj.
      rewrite (Hdec j k), (Hdec k j) by done.
      rewrite (sumn_ext K (fun t0 => mu t0 * (P t0 j * P t0 k))
                 (fun t0 => mu t0 * (P t0 k * P t0 j))) by (intros; lra).
      lra. }
    apply sumn_ext. intros k Hk. rewrite Hu by done. lra. }
  assert (E' : (mu t - lam) * pu t = 0) by lra.
  apply Rmult_integral in E' as [E'|E']; [lra|done].
Qed.

Lemma match_span j :
  (j < d)%nat ->
  u j = sumn K (fun t => if Reqb (mu t) lam then pu t * P t j else 0).
Proof.
  intros Hj.
  assert (E : lam * u j
              = lam * sumn K (fun t => if Reqb (mu t) lam then pu t * P t j else 0)).
  { rewrite <- Hu by done.
    rewrite (sumn_ext d _ (fun k => sumn K (fun t => mu t * (P t j * P t k) * u k))).
    2:{ intros k Hk. rewrite Hdec by done. by rewrite sumn_scale_r. }
    rewrite sumn_swap, <- sumn_scale. apply sumn_ext. intros t Ht.
    rewrite (sumn_ext d _ (fun k => mu t * P t j * (P t k * u k)))
      by (intros; lra).
    rewrite sumn_scale. fold (pu t).
    unfold Reqb. destruct (Req_dec_T (mu t) lam) as [->|Hne]; [lra|].
    destruct (Req_dec_T (mu t) 0) as [->|Hmu]; [lra|].
    rewrite match_orthogonal by done. lra. }
  by apply (Rmult_eq_reg_l lam).
Qed.

Lemma match_eigenvalue :
  sumn d (fun k => u k * u k) <> 0 ->
  exists t, (t < K)%nat /\ mu t = lam /\ pu t <> 0.
Proof.
  intros Hnz. apply sumn_nonzero in Hnz as (k & Hk & Huk).
  assert (Hukk : u k <> 0) by (intros E; apply Huk; rewrite E; lra).
  rewrite (match_span k Hk) in Hukk.
  apply sumn_nonzero in Hukk as (t & Ht & Hterm).
  exists t. split; [done|]. unfold Reqb in Hterm.
  destruct (Req_dec_T (mu t) lam) as [E|E]; [|done].
  split; [done|]. intros E0. apply Hterm. rewrite E0. lra.
Qed.

End Match.

End Spectral.

(* ================================================================== *)
(** ** The rows of the merge matrix *)

Section MergeRows.
Open Scope R_scope.

(** The cells of [B.dot(U_a.T)] and of [PB]. *)
Lemma project_out_cells (B U_a BUt PB : ndarray R) :
  wf B -> wf U_a ->
  project_out B U_a = Ok (BUt, PB) ->
  ncols B = ncols U_a /\ wf BUt /\ wf PB /\
  nrows BUt = nrows B /\ ncols BUt = nrows U_a /\
  nrows PB = nrows B /\ ncols PB = ncols B /\
  (forall i c, cell BUt i c = sumn (ncols B) (fun j => cell B i j * cell U_a c j)) /\
  (forall i r, cell PB i r
     = cell B i r - sumn (nrows U_a) (fun c => cell BUt i c * cell U_a c r)).
Proof.
  intros HB HU Hproj. unfold project_out in Hproj.
  destruct (np_dot B (np_T U_a)) as [BUt'|] eqn:E1; [|discriminate]. simpl in Hproj.
  destruct (np_dot BUt' U_a) as [P|] eqn:E2; [|discriminate]. simpl in Hproj.
  injection Hproj as -> <-.
  assert (HBUt : wf BUt) by (eapply wf_np_dot; [apply wf_np_T|exact E1]).
  assert (HP : wf P) by (eapply wf_np_dot; [exact HU|exact E2]).
  destruct (np_dot_shape _ _ _ E1) as [n1 d1].
  destruct (np_dot_shape _ _ _ E2) as [n2 d2].
  rewrite ncols_np_T in d1.
  assert (Hd : ncols B = ncols U_a).
  { unfold np_dot in E1. destruct (decide _) as [e|]; [|discriminate].
    by rewrite nrows_np_T in e. }
  assert (HPB : wf (msub B P)) by (apply wf_msub; [done..|congruence]).
  assert (HnPB : nrows (msub B P) = nrows B).
  { unfold nrows, msub in *. simpl. rewrite length_zip_with. lia. }
  split_and!; try done.
  - intros i c. rewrite (cell_np_dot B (np_T U_a) BUt i c HB (wf_np_T _) E1).
    apply sumn_ext. intros j _. by rewrite cell_np_T.
  - intros i r. rewrite cell_msub by (done || congruence).
    by rewrite (cell_np_dot BUt U_a P i r HBUt HU E2), d1.
Qed.

(** The cells of the merge matrix. *)
Lemma merge_cells (B U_a : ndarray R) (s_a : list R) (BUt PB Q M : ndarray R) :
  wf B -> wf U_a -> length s_a = nrows U_a -> wf Q ->
  project_out B U_a = Ok (BUt, PB) ->
  form_R 1 s_a BUt PB (np_T Q) = Ok M ->
  forall i c,
    cell M i c
    = if (c <? nrows U_a)%nat
      then (if (i <? nrows U_a)%nat
            then (if (i =? c)%nat then entry i s_a else 0)
            else cell BUt (i - nrows U_a) c)
      else (if (i <? nrows U_a)%nat then 0
            else sumn (ncols B) (fun r =>
                   cell PB (i - nrows U_a) r * cell Q r (c - nrows U_a))).
Proof.
  intros HB HU Hs HQ Hproj HM i c.
  destruct (project_out_cells B U_a BUt PB HB HU Hproj)
    as (Hd & HBUt & HPB & HnBUt & HdBUt & HnPB & HdPB & _ & _).
  unfold form_R in HM.
  destruct (np_vstack (mscale 1 (np_diag s_a)) BUt) as [left|] eqn:E3; [|discriminate].
  simpl in HM.
  destruct (np_dot PB (np_T (np_T Q))) as [PBBt|] eqn:E4; [|discriminate].
  simpl in HM.
  destruct (np_vstack (np_zeros2 _ _) PBBt) as [right|] eqn:E5; [|discriminate].
  simpl in HM.
  assert (HnS : nrows (np_diag s_a) = nrows U_a).
  { unfold nrows, np_diag in *. simpl. by rewrite length_imap. }
  assert (Hleft : wf left /\ ncols left = nrows U_a).
  { destruct (wf_vstack _ _ _ (wf_mscale 1 _ (wf_np_diag s_a)) HBUt E3) as (? & -> & _).
    split; [done|]. simpl. congruence. }
  destruct Hleft as [Hleft Hcl].
  rewrite (cell_hstack left right M i c Hleft HM), Hcl.
  destruct (c <? nrows U_a)%nat.
  - rewrite (cell_vstack _ _ _ i c E3).
    change (nrows (mscale 1 (np_diag s_a))) with (length (map (vscale 1) (rows (np_diag s_a)))).
    rewrite length_map. fold (nrows (np_diag s_a)). rewrite HnS.
    destruct (i <? nrows U_a)%nat; [|done].
    rewrite cell_mscale, cell_np_diag. lra.
  - rewrite (cell_vstack _ _ _ i _ E5).
    replace (nrows (np_zeros2 (nrows (np_diag s_a)) (nrows (np_T Q))))
      with (nrows U_a)
      by (unfold nrows at 2, np_zeros2; simpl; by rewrite repeat_length).
    destruct (i <? nrows U_a)%nat; [apply cell_np_zeros2|].
    rewrite (cell_np_dot _ _ PBBt _ _ HPB (wf_np_T _) E4), HdPB.
    apply sumn_ext. intros r _.
    rewrite (cell_np_T (np_T Q)) by apply wf_np_T.
    by rewrite (cell_np_T Q).
Qed.

(** With orthonormal rows of [U_a] and a QR answer that spans, the rows
    of [[S_a U_a; B]] have the inner products of the rows of the merge
    matrix. *)
Lemma merge_row_products (B U_a : ndarray R) (s_a : list R)
    (BUt PB Q M : ndarray R) r r' :
  wf B -> wf U_a -> length s_a = nrows U_a ->
  project_out B U_a = Ok (BUt, PB) ->
  qr_spans (np_T PB) Q ->
  form_R 1 s_a BUt PB (np_T Q) = Ok M ->
  (forall a b, (a < nrows U_a)%nat -> (b < nrows U_a)%nat ->
     sumn (ncols U_a) (fun j => cell U_a a j * cell U_a b j)
     = if decide (a = b) then 1 else 0) ->
  (r < nrows U_a + nrows B)%nat -> (r' < nrows U_a + nrows B)%nat ->
  let N := fun i j => if (i <? nrows U_a)%nat then entry i s_a * cell U_a i j
                      else cell B (i - nrows U_a) j in
  sumn (ncols B) (fun j => N r j * N r' j)
  = sumn (nrows U_a + ncols Q) (fun c => cell M r c * cell M r' c).
Proof.
  intros HB HU Hs Hproj (HQ & HnQ & Hspan) HM Horth Hr Hr' N.
  destruct (project_out_cells B U_a BUt PB HB HU Hproj)
    as (Hd & HBUt & HPB & HnBUt & HdBUt & HnPB & HdPB & EBUt & EPB).
  pose proof (merge_cells B U_a s_a BUt PB Q M HB HU Hs HQ Hproj HM) as EM.
  rewrite nrows_np_T, ncols_np_T in Hspan. rewrite nrows_np_T in HnQ.
  rewrite HdPB in Hspan. rewrite HnPB in Hspan.
  set (k := nrows U_a) in *.
  rewrite sumn_split.
  (* the two blocks of columns *)
  rewrite (sumn_ext k (fun c => cell M r c * cell M r' c) (fun c =>
    (if (r <? k)%nat then (if (r =? c)%nat then entry r s_a else 0)
     else cell BUt (r - k) c)
    * (if (r' <? k)%nat then (if (r' =? c)%nat then entry r' s_a else 0)
       else cell BUt (r' - k) c))).
  2:{ intros c Hc. rewrite !EM. by destruct (Nat.ltb_spec c k); [|lia]. }
  rewrite (sumn_ext (ncols Q) (fun c => cell M r (k + c) * cell M r' (k + c)) (fun c =>
    (if (r <? k)%nat then 0
     else sumn (ncols B) (fun a => cell PB (r - k) a * cell Q a c))
    * (if (r' <? k)%nat then 0
       else sumn (ncols B) (fun a => cell PB (r' - k) a * cell Q a c)))).
  2:{ intros c Hc. rewrite !EM. destruct (Nat.ltb_spec (k + c) k); [lia|].
      by replace (k + c - k)%nat with c by lia. }
  unfold N.
  destruct (Nat.ltb_spec r k) as [Hlt|Hge]; destruct (Nat.ltb_spec r' k) as [Hlt'|Hge'].
  - (* two rows of S_a U_a *)
    rewrite (sumn_zero (ncols Q)) by (intros; lra).
    rewrite (sumn_ext _ _ (fun j => entry r s_a * entry r' s_a
                                    * (cell U_a r j * cell U_a r' j)))
      by (intros; lra).
    rewrite sumn_scale, Hd, Horth by done.
    rewrite (sumn_ext k _ (fun c => if (c =? r)%nat
               then (if (r' =? c)%nat then entry r s_a * entry r' s_a else 0) else 0)).
    2:{ intros c _. rewrite (Nat.eqb_sym c r).
        destruct (r =? c)%nat; destruct (r' =? c)%nat; lra. }
    rewrite (sumn_delta k r (fun c => if (r' =? c)%nat
                                      then entry r s_a * entry r' s_a else 0)) by done.
    destruct (decide (r = r')) as [->|Hne].
    + rewrite Nat.eqb_refl. lra.
    + destruct (Nat.eqb_spec r' r); [congruence|lra].
  - (* a row of S_a U_a and a row of B *)
    rewrite (sumn_zero (ncols Q)) by (intros; lra).
    rewrite (sumn_ext k _ (fun c => if (c =? r)%nat
               then entry r s_a * cell BUt (r' - k) c else 0)).
    2:{ intros c _. rewrite (Nat.eqb_sym c r). destruct (r =? c)%nat; lra. }
    rewrite (sumn_delta k r (fun c => entry r s_a * cell BUt (r' - k) c)) by done.
    rewrite EBUt, Rplus_0_r, <- sumn_scale. apply sumn_ext. intros j _. lra.
  - rewrite (sumn_zero (ncols Q)) by (intros; lra).
    rewrite (sumn_ext k _ (fun c => if (c =? r')%nat
               then cell BUt (r - k) c * entry r' s_a else 0)).
    2:{ intros c _. rewrite (Nat.eqb_sym c r'). destruct (r' =? c)%nat; lra. }
    rewrite (sumn_delta k r' (fun c => cell BUt (r - k) c * entry r' s_a)) by done.
    rewrite EBUt, Rplus_0_r, <- sumn_scale_r. apply sumn_ext. intros j _. lra.
  - (* two rows of B *)
    set (i := (r - k)%nat). set (i' := (r' - k)%nat).
    assert (Hi : (i < nrows B)%nat) by (unfold i; lia).
    assert (Hi' : (i' < nrows B)%nat) by (unfold i'; lia).
    set (X := sumn k (fun c => cell BUt i c * cell BUt i' c)).
    (* PB Q Q.T PB.T = PB PB.T *)
    assert (EQ : sumn (ncols Q) (fun c =>
                   sumn (ncols B) (fun a => cell PB i a * cell Q a c)
                   * sumn (ncols B) (fun a => cell PB i' a * cell Q a c))
                 = sumn (ncols B) (fun a => cell PB i a * cell PB i' a)).
    { rewrite (sumn_ext (ncols Q) _ (fun c => sumn (ncols B) (fun a =>
                 cell PB i a * (cell Q a c
                   * sumn (ncols B) (fun a' => cell Q a' c * cell PB i' a'))))).
      2:{ intros c _. rewrite <- sumn_scale_r. apply sumn_ext. intros a _.
          rewrite (sumn_ext (ncols B) (fun a' => cell Q a' c * cell PB i' a')
                     (fun a' => cell PB i' a' * cell Q a' c)) by (intros; lra).
          lra. }
      rewrite sumn_swap. apply sumn_ext. intros a Ha.
      rewrite sumn_scale. f_equal.
      pose proof (Hspan a i' Ha Hi') as Hsp.
      rewrite (cell_np_T PB) in Hsp by done. rewrite Hsp.
      apply sumn_ext. intros c _. f_equal. apply sumn_ext. intros a' _.
      by rewrite (cell_np_T PB). }
    rewrite EQ.
    (* B.dot(P.T), P.dot(B.T) and P.dot(P.T) *)
    set (Pc := fun a b => sumn k (fun c => cell BUt a c * cell U_a c b)).
    assert (EBP : forall a b, sumn (ncols B) (fun j => cell B a j * Pc b j)
                  = sumn k (fun c => cell BUt a c * cell BUt b c)).
    { intros a b. unfold Pc.
      rewrite (sumn_ext (ncols B) _ (fun j => sumn k (fun c =>
                 cell BUt b c * (cell B a j * cell U_a c j)))).
      2:{ intros j _. rewrite <- sumn_scale. apply sumn_ext. intros c _. lra. }
      rewrite sumn_swap. apply sumn_ext. intros c _.
      rewrite sumn_scale, (EBUt a c). lra. }
    assert (EPP : sumn (ncols B) (fun j => Pc i j * Pc i' j) = X).
    { unfold Pc.
      rewrite (sumn_ext (ncols B) _ (fun j => sumn k (fun c => sumn k (fun c' =>
                 cell BUt i c * cell BUt i' c' * (cell U_a c j * cell U_a c' j))))).
      2:{ intros j _. rewrite sumn_mul. apply sumn_ext. intros c _.
          apply sumn_ext. intros c' _. lra. }
      rewrite sumn_swap. unfold X. apply sumn_ext. intros c Hc.
      rewrite sumn_swap.
      rewrite (sumn_ext k _ (fun c' => if (c' =? c)%nat
                 then cell BUt i c * cell BUt i' c' else 0)).
      2:{ intros c' Hc'. rewrite sumn_scale, Hd, Horth by done.
          destruct (Nat.eqb_spec c' c) as [->|Hne].
          - rewrite decide_True by done. lra.
          - rewrite decide_False by congruence. lra. }
      by rewrite (sumn_delta k c (fun c' => cell BUt i c * cell BUt i' c')). }
    rewrite (sumn_ext (ncols B) (fun a => cell PB i a * cell PB i' a) (fun a =>
               cell B i a * cell B i' a - cell B i a * Pc i' a
               - cell B i' a * Pc i a + Pc i a * Pc i' a)).
    2:{ intros a _. rewrite !EPB. unfold Pc. lra. }
    rewrite sumn_plus, !sumn_minus, EPP, !EBP. fold X.
    rewrite (sumn_ext k (fun c => cell BUt i' c * cell BUt i c)
               (fun c => cell BUt i c * cell BUt i' c)) by (intros; lra).
    fold X. lra.
Qed.

End MergeRows.

(* ================================================================== *)
(** ** The eigenpairs of the update *)

Section Filter.
Open Scope R_scope.

Lemma filter_prefix (p : R -> bool) (v : list R) :
  (forall t t', (t <= t')%nat -> (t' < length v)%nat ->
     p (entry t' v) = true -> p (entry t v) = true) ->
  List.filter p v = take (length (List.filter p v)) v /\
  forall t, (t < length v)%nat -> p (entry t v) = true ->
    (t < length (List.filter p v))%nat.
Proof.
  induction v as [|x v IH]; intros Hanti; [split; [done|simpl; lia]|].
  assert (Hanti' : forall t t', (t <= t')%nat -> (t' < length v)%nat ->
            p (entry t' v) = true -> p (entry t v) = true).
  { intros t t' Htt Ht' Hp. apply (Hanti (S t) (S t')); [lia|simpl; lia|exact Hp]. }
  destruct (IH Hanti') as [IH1 IH2]. simpl.
  destruct (p x) eqn:Hpx; simpl.
  - split; [by rewrite <- IH1|].
    intros [|t] Ht Hp; [lia|]. apply ->Nat.succ_lt_mono. apply IH2; [simpl in Ht; lia|done].
  - assert (Hnone : forall t, (t < length v)%nat -> p (entry t v) = false).
    { intros t Ht. destruct (p (entry t v)) eqn:E; [|done].
      pose proof (Hanti 0%nat (S t) ltac:(lia) ltac:(simpl; lia) E) as G.
      unfold entry in G. simpl in G. congruence. }
    assert (Hnil : List.filter p v = []).
    { destruct (List.filter p v) as [|y w] eqn:E; [done|].
      assert (Hlt : (0 < length v)%nat).
      { destruct v; [done|simpl; lia]. }
      exfalso. assert (In y (List.filter p v)) by (rewrite E; by left).
      apply filter_In in H as [Hin Hp].
      apply (In_nth _ _ 0) in Hin as (t & Ht & <-).
      specialize (Hnone t Ht). unfold entry in Hnone. congruence. }
    rewrite Hnil. split; [done|].
    intros [|t] Ht Hp.
    + unfold entry in Hp. simpl in Hp. congruence.
    + simpl in Ht. change (entry (S t) (x :: v)) with (entry t v) in Hp.
      rewrite (Hnone t) in Hp by lia. discriminate.
Qed.

Lemma entry_take m (v : list R) t : (t < m)%nat -> entry t (take m v) = entry t v.
Proof.
  intros Ht. rewrite !entry_lookup. by rewrite lookup_take_lt.
Qed.

(** With singular values in descending order, the eigenvalues above
    [eps] are the leading ones. *)
Lemma new_eigenvalues_prefix (s : list R) (n eps : R) :
  0 < n - 1 -> Forall (fun x => 0 <= x) s ->
  (forall t t', (t <= t')%nat -> (t' < length s)%nat -> entry t' s <= entry t s) ->
  (length (new_eigenvalues s n eps) <= length s)%nat /\
  (forall t, (t < length (new_eigenvalues s n eps))%nat ->
     entry t (new_eigenvalues s n eps) = entry t s * entry t s / (n - 1) /\
     eps < entry t (new_eigenvalues s n eps)) /\
  (forall t, (t < length s)%nat -> eps < entry t s * entry t s / (n - 1) ->
     (t < length (new_eigenvalues s n eps))%nat).
Proof.
  intros Hn Hpos Hdesc. unfold new_eigenvalues. rewrite compress_filter.
  set (g := fun x : R => f_div (f_mul x x) (f_sub n f_one)).
  set (p := fun x : R => f_gtb x eps).
  assert (Hg : forall t, entry t (map g s) = entry t s * entry t s / (n - 1)).
  { intros t. unfold entry.
    replace 0 with (g 0) at 1 by (unfold g; simpl; unfold Rdiv; ring).
    by rewrite map_nth. }
  assert (Hp : forall x, p x = true <-> eps < x).
  { intros x. unfold p, f_gtb. simpl. apply Rltb_lt. }
  assert (Hs0 : forall t, (t < length s)%nat -> 0 <= entry t s).
  { intros t Ht. rewrite Forall_forall in Hpos.
    apply Hpos, list_elem_of_In, nth_In. exact Ht. }
  assert (Hanti : forall t t', (t <= t')%nat -> (t' < length (map g s))%nat ->
            p (entry t' (map g s)) = true -> p (entry t (map g s)) = true).
  { intros t t' Htt Ht'. rewrite length_map in Ht'.
    rewrite !Hp, !Hg. intros Hlt.
    pose proof (Hdesc t t' Htt Ht') as Hd.
    pose proof (Hs0 t' Ht') as H0.
    eapply Rlt_le_trans; [exact Hlt|].
    apply Rmult_le_compat_r; [apply Rlt_le, Rinv_0_lt_compat; lra|]. nra. }
  destruct (filter_prefix p (map g s) Hanti) as [Hpre Hin].
  set (l' := List.filter p (map g s)) in *.
  assert (Hlen : (length l' <= length s)%nat).
  { rewrite <- (length_map g s). unfold l'.
    clear. induction (map g s) as [|x v IH]; simpl; [lia|].
    destruct (p x); simpl; lia. }
  split; [done|]. split.
  - intros t Ht. rewrite Hpre, entry_take by done. rewrite Hg. split; [done|].
    rewrite <- Hg. apply Hp.
    assert (Hel : In (entry t l') l') by (apply nth_In; done).
    apply filter_In in Hel as [_ Hel].
    by rewrite Hpre, entry_take in Hel.
  - intros t Ht Hlt. apply Hin; [by rewrite length_map|].
    apply Hp. by rewrite Hg.
Qed.

Lemma cell_take_rows m (X : ndarray R) t j :
  (t < m)%nat -> cell (take_rows m X) t j = cell X t j.
Proof.
  intros Ht. rewrite !cell_lookup. unfold take_rows. simpl.
  by rewrite lookup_take_lt.
Qed.

End Filter.

Section UpdateEigen.
Open Scope R_scope.

(** The eigen-structure of the update of [ipca], in exact arithmetic with
    exact QR and SVD answers and orthonormal rows of [U_a]: the rows
    returned are orthonormal eigenvectors of the scatter
    [U_a.T diag(s_a^2) U_a + B.T B], with eigenvalues [(n - 1) l]. *)
Lemma update_eigenpairs
    (qr : ndarray R -> option (ndarray R))
    (svd : ndarray R -> option (list R * ndarray R))
    (B U_a : ndarray R) (s_a : list R) (n eps : R)
    (BUt PB Q M : ndarray R) (s : list R) (Vt W VtS : ndarray R) :
  wf B -> wf U_a -> length s_a = nrows U_a -> orthonormal_rows U_a ->
  project_out B U_a = Ok (BUt, PB) ->
  qr_spans (np_T PB) Q ->
  form_R 1 s_a BUt PB (np_T Q) = Ok M ->
  svd_exact M s Vt ->
  np_vstack U_a (np_T Q) = Ok W -> np_dot Vt W = Ok VtS ->
  0 < n - 1 -> 0 <= eps ->
  let l' := new_eigenvalues s n eps in
  let U' := take_rows (length l') VtS in
  let S0 := fun j k =>
    sumn (nrows U_a) (fun i =>
      entry i s_a * entry i s_a * (cell U_a i j * cell U_a i k))
    + gram B j k in
  (forall t t', (t < length l')%nat -> (t' < length l')%nat ->
     sumn (ncols B) (fun j => cell U' t j * cell U' t' j)
     = if decide (t = t') then 1 else 0) /\
  (forall t j, (t < length l')%nat ->
     sumn (ncols B) (fun k => S0 j k * cell U' t k)
     = (n - 1) * entry t l' * cell U' t j) /\
  (forall t j, (t < length s)%nat -> entry t s <> 0 ->
     sumn (ncols B) (fun k => S0 j k * cell VtS t k)
     = entry t s * entry t s * cell VtS t j).
Proof.
  intros HB HU Hs Horth Hproj Hspan HM Hsvd HW HV Hn Heps l' U' S0.
  destruct Hsvd as ((HVt & HnVt & HdVt & Hgram) & Hlen & HVorth & Hpos & Hdesc).
  assert (HQ : wf Q) by apply Hspan.
  destruct (merge_shape B U_a s_a BUt PB Q M HB HU Hs HQ Hproj HM)
    as (HwM & HnM & HdM & _).
  destruct (wf_vstack _ _ _ HU (wf_np_T Q) HW) as (HwW & _ & HnW).
  rewrite HdM in *.
  set (k := nrows U_a) in *.
  set (nR := (k + nrows B)%nat) in *.
  set (K := (k + ncols Q)%nat) in *.
  set (Nc := fun i j => if (i <? k)%nat then entry i s_a * cell U_a i j
                        else cell B (i - k) j).
  assert (EN : forall r j, (r < nR)%nat ->
            sumn K (fun c => cell M r c * cell W c j) = Nc r j).
  { intros r j Hr.
    exact (merge_times_basis B U_a s_a BUt PB Q M W r j HB HU Hs Hproj Hspan HM HW Hr). }
  assert (HNN : forall r r', (r < nR)%nat -> (r' < nR)%nat ->
            sumn (ncols B) (fun j => sumn K (fun c => cell M r c * cell W c j)
                                     * sumn K (fun c => cell M r' c * cell W c j))
            = sumn K (fun c => cell M r c * cell M r' c)).
  { intros r r' Hr Hr'.
    rewrite (sumn_ext _ _ (fun j => Nc r j * Nc r' j)).
    2:{ intros j _. by rewrite !EN. }
    exact (merge_row_products B U_a s_a BUt PB Q M r r' HB HU Hs Hproj Hspan HM
             Horth Hr Hr'). }
  assert (Hgram' : forall c c', (c < K)%nat -> (c' < K)%nat ->
            sumn nR (fun r => cell M r c * cell M r c')
            = sumn (length s) (fun t =>
                entry t s * entry t s * (cell Vt t c * cell Vt t c'))).
  { intros c c' Hc Hc'. rewrite <- Hgram by done. by rewrite gram_sumn, HnM. }
  assert (HVorth' : forall t t', (t < length s)%nat -> (t' < length s)%nat ->
            sumn K (fun c => cell Vt t c * cell Vt t' c)
            = if decide (t = t') then 1 else 0).
  { intros t t' Ht Ht'. apply HVorth; lia. }
  assert (EP : forall t j, cell VtS t j = sumn K (fun c => cell Vt t c * cell W c j)).
  { intros t j. by rewrite (cell_np_dot Vt W VtS t j HVt HwW HV), HdVt. }
  assert (ES : forall j k',
            sumn nR (fun r => sumn K (fun c => cell M r c * cell W c j)
                              * sumn K (fun c => cell M r c * cell W c k'))
            = S0 j k').
  { intros j k'. unfold S0.
    rewrite (sumn_ext nR _ (fun r => Nc r j * Nc r k')).
    2:{ intros r Hr. by rewrite !EN. }
    unfold nR. rewrite sumn_split, gram_sumn. f_equal.
    - apply sumn_ext. intros i Hi. unfold Nc.
      destruct (Nat.ltb_spec i k); [lra|lia].
    - apply sumn_ext. intros i Hi. unfold Nc.
      destruct (Nat.ltb_spec (k + i) k); [lia|].
      by replace (k + i - k)%nat with i by lia. }
  destruct (new_eigenvalues_prefix s n eps Hn Hpos Hdesc) as (Hl1 & Hl2 & _).
  fold l' in Hl1, Hl2.
  assert (Hnz : forall t, (t < length l')%nat -> entry t s <> 0).
  { intros t Ht E. destruct (Hl2 t Ht) as [E1 E2]. rewrite E1, E in E2.
    unfold Rdiv in E2. rewrite !Rmult_0_l in E2. lra. }
  assert (Heig : forall t j, (t < length s)%nat -> entry t s <> 0 ->
            sumn (ncols B) (fun k => S0 j k * cell VtS t k)
            = entry t s * entry t s * cell VtS t j).
  { intros t j Ht Hst.
    rewrite (sumn_ext _ _ (fun k' =>
               sumn nR (fun r => sumn K (fun c => cell M r c * cell W c j)
                                 * sumn K (fun c => cell M r c * cell W c k'))
               * sumn K (fun c => cell Vt t c * cell W c k'))).
    2:{ intros k' _. by rewrite ES, EP. }
    rewrite (update_eigen nR K (length s) (ncols B) (cell M) (cell W) (cell Vt)
               (fun t => entry t s) Hlen HNN Hgram' HVorth' t j Ht Hst).
    by rewrite EP. }
  split_and!.
  - intros t t' Ht Ht'.
    rewrite (sumn_ext _ _ (fun j => sumn K (fun c => cell Vt t c * cell W c j)
                                    * sumn K (fun c => cell Vt t' c * cell W c j))).
    2:{ intros j _. unfold U'. rewrite !cell_take_rows by done. by rewrite !EP. }
    apply (update_orthonormal nR K (length s) (ncols B) (cell M) (cell W) (cell Vt)
             (fun t => entry t s) Hlen HNN Hgram' HVorth'); try lia; by apply Hnz.
  - intros t j Ht. unfold U'.
    rewrite (sumn_ext _ _ (fun k' => S0 j k' * cell VtS t k')).
    2:{ intros k' _. by rewrite cell_take_rows. }
    rewrite cell_take_rows by done.
    rewrite Heig; [|lia|by apply Hnz].
    destruct (Hl2 t Ht) as [-> _]. field. lra.
  - exact Heig.
Qed.

End UpdateEigen.

(* ================================================================== *)
(** ** ipca against pca on the concatenation: the theorem *)

Section BatchAgreementTheorem.
Open Scope R_scope.


End BatchAgreementTheorem.

(* ================================================================== *)
(** ** The reference drivers are exact on the example, in order *)

Section DriversExactOrder.
Open Scope R_scope.

Lemma eigh_single_inv (C : ndarray R) w V :
  eigh_single C = Some (w, V) ->
  exists c, C = Mat 1 [[c]] /\ w = [c] /\ V = Mat 1 [[1]].
Proof.
  destruct C as [nc rs]. unfold eigh_single.
  destruct nc as [|[|nc]]; try discriminate.
  destruct rs as [|[|c [|? ?]] [|? ?]]; try discriminate.
  intros [= <- <-]. by exists c.
Qed.

Lemma eigh_single_correct : eigh_correct (eigh_single (F:=R)).
Proof.
  intros C w V HE. apply eigh_single_inv in HE as (c & -> & -> & ->).
  unfold eigendecomposition, eigh_shape. split_and!; try done.
  - unfold wf. simpl. by repeat constructor.
  - R_compute. repeat (f_equal; try lra).
  - R_compute. repeat (f_equal; try lra).
Qed.

Lemma eigh_single_orthonormal : orthonormal_columns eigh_single.
Proof.
  intros C w V HE i j Hi Hj. apply eigh_single_inv in HE as (c & -> & -> & ->).
  simpl in Hi, Hj. assert (i = 0%nat) as -> by lia. assert (j = 0%nat) as -> by lia.
  rewrite decide_True by done. unfold gram, dotp, Rsum. simpl. lra.
Qed.

Lemma pca_values_single_Y_old :
  pca_values eigh_single Y_old true (/ 2) = Ok (Mat 1 [[1]], [2], [2]).
Proof. R_decide. repeat (f_equal; try lra). Qed.

Lemma pca_values_single_Y_all :
  pca_values eigh_single Y_all true (/ 2) = Ok (Mat 1 [[1]], [4], [3]).
Proof. R_decide. repeat (f_equal; try lra). Qed.

(** The reference SVD driver answers exactly, with orthonormal rows of
    [Vt] and singular values in descending order, on a matrix with no
    more columns than rows. *)
Lemma svd_orthogonal_columns_exact (M : ndarray R) s Vt :
  (ncols M <= nrows M)%nat ->
  svd_orthogonal_columns M = Some (s, Vt) -> svd_exact M s Vt.
Proof.
  intros Hshape Hsvd. split; [by apply svd_orthogonal_columns_gram|].
  unfold svd_orthogonal_columns in Hsvd.
  destruct (forallb _ _) eqn:Horth; [|discriminate]. simpl in Hsvd.
  destruct (forallb _ (seq 0 (ncols M - 1))) eqn:Hdesc; [|discriminate].
  injection Hsvd as <- <-.
  rewrite Nat.min_r by done.
  rewrite firstn_all2 by (by rewrite length_map, length_seq).
  assert (Hen : forall t, (t < ncols M)%nat ->
            entry t (map (col_norm M) (seq 0 (ncols M))) = col_norm M t).
  { intros t Ht. unfold entry.
    rewrite (nth_indep _ 0 (col_norm M 0)) by (by rewrite length_map, length_seq).
    by rewrite (map_nth (col_norm M)), seq_nth. }
  split_and!.
  - by rewrite length_map, length_seq.
  - intros t t' Ht Ht'.
    rewrite (sumn_ext _ _ (fun c => if (c =? t)%nat
               then (if (t' =? c)%nat then 1 else 0) else 0)).
    2:{ intros c Hc. rewrite !cell_unit_rows.
        destruct (Nat.ltb_spec t (ncols M)); [|lia].
        destruct (Nat.ltb_spec t' (ncols M)); [|lia].
        rewrite !andb_true_r, (Nat.eqb_sym c t).
        destruct (t =? c)%nat; destruct (t' =? c)%nat; lra. }
    rewrite (sumn_delta _ t (fun c => if (t' =? c)%nat then 1 else 0)) by done.
    destruct (decide (t = t')) as [->|Hne].
    + by rewrite Nat.eqb_refl.
    + by destruct (Nat.eqb_spec t' t); [congruence|].
  - apply Forall_forall. intros x Hx. apply list_elem_of_fmap in Hx as (j & -> & _).
    unfold col_norm. simpl. apply sqrt_pos.
  - intros t t' Htt Ht'. rewrite length_map, length_seq in Ht'.
    rewrite !Hen by lia.
    induction Htt as [|t' Htt IH]; [apply Rle_refl|].
    eapply Rle_trans; [|apply IH; lia].
    rewrite forallb_forall in Hdesc.
    specialize (Hdesc t' ltac:(apply in_seq; lia)).
    apply negb_true_iff in Hdesc. simpl in Hdesc.
    unfold Rltb in Hdesc. destruct (Rlt_dec _ _) as [|Hnlt]; [discriminate|].
    apply Rnot_lt_le in Hnlt. exact Hnlt.
Qed.

Lemma filters_only_zeros_Y_old : filters_only_zeros eigh_single Y_old [2].
Proof.
  intros C w V0 HC HE.
  cbv -[Rplus Rminus Rmult Rdiv Rinv Ropp IZR Rabs R_sqrt.sqrt
        Rlt_dec Req_dec_T Rltb Reqb] in HC.
  injection HC as <-.
  apply eigh_single_inv in HE as (c & [= <-] & -> & _).
  constructor; [|constructor]. right. left. lra.
Qed.

Lemma filters_only_zeros_Y_all : filters_only_zeros eigh_single Y_all [4].
Proof.
  intros C w V0 HC HE.
  cbv -[Rplus Rminus Rmult Rdiv Rinv Ropp IZR Rabs R_sqrt.sqrt
        Rlt_dec Req_dec_T Rltb Reqb] in HC.
  injection HC as <-.
  apply eigh_single_inv in HE as (c & [= <-] & -> & _).
  constructor; [|constructor]. right. left. lra.
Qed.

End DriversExactOrder.

(* ================================================================== *)
(** ** The example of the agreement *)

Section BatchAgreementWitness.
Open Scope R_scope.


End BatchAgreementWitness.
